(** * Forbes Travel Guide brand-store form controller (main.js)

    A shallow embedding of the controller's state-management core:
    the LRU-lite query cache, the option matcher, the mode/visibility
    machinery, the autocomplete adapter, the cancelable query gateway
    and the selection-invalidation logic, with the properties the
    specification states about them.

    main.js holds two revisions of the controller.  The model follows
    the later one (window.FTG_CONFIG, window.FTGForm, the abort
    controllers and lastSelectedEstablishment); cacheGet and cacheSet are
    the same in both.

    Conventions of the model.
    - A JavaScript string is a [string] of code units below 256; on that
      range [trim] and [toLowerCase] below are the exact JavaScript
      functions.
    - A JavaScript [Map] is an association list in insertion order
      (oldest entry first), which is the order [Map.prototype.keys]
      iterates in.
    - The module-level variables of main.js are the fields of [State];
      the DOM elements reached through [fields] carry their own state
      inside the binding.
    - One event of the browser's event loop (a timer firing, a listener
      running, a fetch settling) is one call of [step]; promise
      continuations scheduled as microtasks run inside the event that
      scheduled them. *)

From Stdlib Require Import List String Ascii Bool Arith NArith Lia.
Import ListNotations.
Open Scope string_scope.
Open Scope list_scope.

Set Implicit Arguments.

(** ** JavaScript strings *)

Module Js.

(** Code units that [String.prototype.trim] strips: TAB, LF, VT, FF, CR,
    SPACE and NO-BREAK SPACE. *)
Definition isWhiteSpace (c : ascii) : bool :=
  let n := N_of_ascii c in
  ((9 <=? n) && (n <=? 13) || (n =? 32) || (n =? 160))%N.

Fixpoint trimStart (s : string) : string :=
  match s with
  | EmptyString => EmptyString
  | String c r => if isWhiteSpace c then trimStart r else s
  end.

Fixpoint trimEnd (s : string) : string :=
  match s with
  | EmptyString => EmptyString
  | String c r =>
      match trimEnd r with
      | EmptyString => if isWhiteSpace c then EmptyString else String c EmptyString
      | r' => String c r'
      end
  end.

Definition trim (s : string) : string := trimEnd (trimStart s).

(** [toLowerCase] on one code unit: A-Z and the Latin-1 capitals
    U+00C0..U+00DE (U+00D7, the multiplication sign, apart). *)
Definition lowerChar (c : ascii) : ascii :=
  let n := N_of_ascii c in
  if ((65 <=? n) && (n <=? 90) || (192 <=? n) && (n <=? 222) && negb (n =? 215))%N
  then ascii_of_N (n + 32) else c.

Fixpoint toLowerCase (s : string) : string :=
  match s with
  | EmptyString => EmptyString
  | String c r => String (lowerChar c) (toLowerCase r)
  end.

(** [s.startsWith(t)] and [s.includes(t)]. *)
Fixpoint startsWith (s t : string) : bool :=
  match t, s with
  | EmptyString, _ => true
  | String b t', String a s' => Ascii.eqb a b && startsWith s' t'
  | String _ _, EmptyString => false
  end.

Fixpoint includes (s t : string) : bool :=
  startsWith s t ||
  match s with
  | EmptyString => false
  | String _ s' => includes s' t
  end.

(** Truthiness of a string: only the empty string is falsy. *)
Definition truthy (s : string) : bool :=
  match s with EmptyString => false | _ => true end.

End Js.

(** ** Lookup cache (airtableCache, cacheGet, cacheSet) *)

Module Cache.
Section WithValue.

Variable V : Type.

(** [new Map()] in insertion order, oldest first. *)
Definition t := list (string * V).

Definition keys (c : t) : list string := map fst c.

Definition has (k : string) (c : t) : bool :=
  existsb (fun e => String.eqb (fst e) k) c.

Fixpoint get (k : string) (c : t) : option V :=
  match c with
  | [] => None
  | (k', v) :: r => if String.eqb k' k then Some v else get k r
  end.

Definition delete (k : string) (c : t) : t :=
  filter (fun e => negb (String.eqb (fst e) k)) c.

(** [Map.prototype.set]: an existing key keeps its position, a new key
    goes last. *)
Fixpoint set (k : string) (v : V) (c : t) : t :=
  match c with
  | [] => [(k, v)]
  | (k', v') :: r => if String.eqb k' k then (k', v) :: r else (k', v') :: set k v r
  end.

Definition MAX_CACHE : nat := 50.

(** [cacheGet]: [None] is the JavaScript [null] of a miss. *)
Definition cacheGet (k : string) (c : t) : option V * t :=
  if negb (has k c) then (None, c)
  else
    match get k c with
    | Some val => (Some val, set k val (delete k c))
    | None => (None, c)
    end.

(** [cacheSet] with the capacity as a parameter ([MAX_CACHE] in main.js). *)
Definition cacheSetN (N : nat) (k : string) (v : V) (c : t) : t :=
  let c1 := if has k c then delete k c else c in
  let c2 := set k v c1 in
  if (N <? List.length c2)%nat then
    match c2 with
    | [] => c2
    | (first, _) :: _ => delete first c2
    end
  else c2.

Definition cacheSet := cacheSetN MAX_CACHE.

(** A run of cache operations, with the recency order of every key
    touched so far kept beside the cache (most recent first).  A [get]
    that misses touches nothing. *)
Inductive Op := OpGet (k : string) | OpPut (k : string) (v : V).

Definition removeKey (k : string) (r : list string) : list string :=
  filter (fun x => negb (String.eqb x k)) r.

Definition touch (k : string) (r : list string) : list string :=
  k :: removeKey k r.

Definition runOp (N : nat) (op : Op) (st : t * list string) : t * list string :=
  let (c, r) := st in
  match op with
  | OpGet k =>
      match cacheGet k c with
      | (Some _, c') => (c', touch k r)
      | (None, c') => (c', r)
      end
  | OpPut k v => (cacheSetN N k v c, touch k r)
  end.

Definition run (N : nat) (ops : list Op) : t * list string :=
  fold_left (fun st op => runOp N op st) ops ([], []).

(** The value of the latest [OpPut] on [k] in a run, if any. *)
Fixpoint lastPut (k : string) (ops : list Op) : option V :=
  match ops with
  | [] => None
  | op :: rest =>
      match lastPut k rest with
      | Some v => Some v
      | None =>
          match op with
          | OpPut k' v => if String.eqb k' k then Some v else None
          | OpGet _ => None
          end
      end
  end.

End WithValue.

Arguments OpGet {V} k.
Arguments OpPut {V} k v.

End Cache.

(** ** The page: field bindings and the state of their DOM elements *)

Module Ftg.

(** The values of FIELD_LABEL_TO_KEY. *)
Inductive FieldKey :=
| redemptionCode
| officialEstablishmentName
| customEstablishmentName
| establishmentType
| partnerStatus
| awardLevel
| dutiesAndTaxes.

Scheme Equality for FieldKey.

Definition memKey (k : FieldKey) (l : list FieldKey) : bool :=
  existsb (FieldKey_beq k) l.

(** An <option>: its text content, its value and its data-name attribute
    ([None] when the attribute is absent). *)
Record OptionEl := {
  textContent : string;
  optValue : string;
  dataName : option string
}.

(** A <select>: [selectedIndex] is [None] for -1; [select2] says that
    jQuery is loaded and the element carries select2-hidden-accessible. *)
Record SelectEl := {
  options : list OptionEl;
  selectedIndex : option nat;
  select2 : bool
}.

Inductive LockState := Unlocked | PlainLock | Select2Lock.

(** One entry of [fields]: label, wrapper, input and select of a
    .form-item, with the state main.js reads or writes on them.  The
    control is a direct child of its wrapper, so the inline messages
    main.js hangs on [input.parentNode] live on the wrapper. *)
Record Field := {
  label : string;                (* label.textContent *)
  input : option string;         (* input.value, None without <input> *)
  select : option SelectEl;
  hidden : bool;                 (* wrapper.style.display = 'none' *)
  lock : LockState;              (* what preventEdit left on the control *)
  mismatchText : option string;  (* .mismatch-text *)
  errorMsg : option string;      (* .ftg-inline-msg.error *)
  noResultsMsg : option string;  (* .ftg-inline-msg.no-results *)
  spinner : bool;                (* .loading-inline-spinner *)
  helpText : option string       (* .help-text *)
}.

Definition withInput (v : option string) (f : Field) : Field :=
  {| label := label f; input := v; select := select f; hidden := hidden f;
     lock := lock f; mismatchText := mismatchText f; errorMsg := errorMsg f;
     noResultsMsg := noResultsMsg f; spinner := spinner f; helpText := helpText f |}.

Definition withSelect (v : option SelectEl) (f : Field) : Field :=
  {| label := label f; input := input f; select := v; hidden := hidden f;
     lock := lock f; mismatchText := mismatchText f; errorMsg := errorMsg f;
     noResultsMsg := noResultsMsg f; spinner := spinner f; helpText := helpText f |}.

Definition withHidden (v : bool) (f : Field) : Field :=
  {| label := label f; input := input f; select := select f; hidden := v;
     lock := lock f; mismatchText := mismatchText f; errorMsg := errorMsg f;
     noResultsMsg := noResultsMsg f; spinner := spinner f; helpText := helpText f |}.

Definition withLock (v : LockState) (f : Field) : Field :=
  {| label := label f; input := input f; select := select f; hidden := hidden f;
     lock := v; mismatchText := mismatchText f; errorMsg := errorMsg f;
     noResultsMsg := noResultsMsg f; spinner := spinner f; helpText := helpText f |}.

Definition withMismatch (v : option string) (f : Field) : Field :=
  {| label := label f; input := input f; select := select f; hidden := hidden f;
     lock := lock f; mismatchText := v; errorMsg := errorMsg f;
     noResultsMsg := noResultsMsg f; spinner := spinner f; helpText := helpText f |}.

Definition withError (v : option string) (f : Field) : Field :=
  {| label := label f; input := input f; select := select f; hidden := hidden f;
     lock := lock f; mismatchText := mismatchText f; errorMsg := v;
     noResultsMsg := noResultsMsg f; spinner := spinner f; helpText := helpText f |}.

Definition withNoResults (v : option string) (f : Field) : Field :=
  {| label := label f; input := input f; select := select f; hidden := hidden f;
     lock := lock f; mismatchText := mismatchText f; errorMsg := errorMsg f;
     noResultsMsg := v; spinner := spinner f; helpText := helpText f |}.

Definition withSpinner (v : bool) (f : Field) : Field :=
  {| label := label f; input := input f; select := select f; hidden := hidden f;
     lock := lock f; mismatchText := mismatchText f; errorMsg := errorMsg f;
     noResultsMsg := noResultsMsg f; spinner := v; helpText := helpText f |}.

Definition withHelp (v : option string) (f : Field) : Field :=
  {| label := label f; input := input f; select := select f; hidden := hidden f;
     lock := lock f; mismatchText := mismatchText f; errorMsg := errorMsg f;
     noResultsMsg := noResultsMsg f; spinner := spinner f; helpText := v |}.

(** The [fields] object: keys in insertion order. *)
Definition Fields := list (FieldKey * Field).

Fixpoint getField (k : FieldKey) (fs : Fields) : option Field :=
  match fs with
  | [] => None
  | (k', f) :: r => if FieldKey_beq k' k then Some f else getField k r
  end.

(** Run [g] on the element state bound to [k]; nothing happens when
    [fields[k]] is undefined. *)
Definition updField (k : FieldKey) (g : Field -> Field) (fs : Fields) : Fields :=
  map (fun e => if FieldKey_beq (fst e) k then (fst e, g (snd e)) else e) fs.

(** ** Records of the record source *)

(** A JSON value as main.js looks at it: a string, or anything else with
    its truthiness and its string conversion.  A missing attribute reads
    as [JUndefined]. *)
Inductive JsVal :=
| JStr (s : string)
| JOther (isTruthy : bool) (shown : string).

Definition JUndefined : JsVal := JOther false "undefined".

Definition jsTruthy (v : JsVal) : bool :=
  match v with
  | JStr s => Js.truthy s
  | JOther b _ => b
  end.

Definition isString (v : JsVal) : bool :=
  match v with JStr _ => true | JOther _ _ => false end.

Definition toStr (v : JsVal) : string :=
  match v with JStr s => s | JOther _ shown => shown end.

Record AirtableRecord := {
  rec_id : option string;                 (* r.id *)
  rec_fields : list (string * JsVal)      (* r.fields *)
}.

Fixpoint assoc (name : string) (l : list (string * JsVal)) : option JsVal :=
  match l with
  | [] => None
  | (n, v) :: r => if String.eqb n name then Some v else assoc name r
  end.

(** [r.fields[name]] *)
Definition attr (r : AirtableRecord) (name : string) : JsVal :=
  match assoc name (rec_fields r) with
  | Some v => v
  | None => JUndefined
  end.

(** The parsed response body; [records] is [None] when the body has no
    such member. *)
Record QueryResult := { records : option (list AirtableRecord) }.

(** A suggestion handed to the autocomplete widget. *)
Record Item := {
  item_label : string;
  item_value : string;
  item_data : AirtableRecord
}.

Definition NAME_FIELD : string := "Official Establishment Name".

(** The part of [searchAirtableForAutocomplete] after the query has
    resolved to [data]. *)
Definition keepRecord (r : AirtableRecord) : bool :=
  let n := attr r NAME_FIELD in
  jsTruthy n && isString n && Js.truthy (Js.trim (toStr n)).

Definition toItem (r : AirtableRecord) : Item :=
  let name := toStr (attr r NAME_FIELD) in
  {| item_label := name; item_value := name; item_data := r |}.

Definition searchAirtableForAutocomplete (data : QueryResult) : list Item :=
  match records data with
  | None => []
  | Some rs => map toItem (filter keepRecord rs)
  end.

(** ** Module-level state of main.js and its environment *)

Inductive Channel := nameSearch | codeLookup.

(** A fetch that has been issued and has not settled. *)
Record Request := {
  rq_ctrl : nat;        (* the AbortController whose signal it carries *)
  rq_channel : Channel;
  rq_field : string;    (* the field parameter *)
  rq_query : string;    (* cleanQuery, the q parameter *)
  rq_typed : string     (* the text the handler was called with *)
}.

(** What the page does that a user or the network can see. *)
Inductive Effect :=
| Fetch (ctrl : nat) (field q : string)     (* fetch(url, {signal}) *)
| Alert (fieldType value : string)          (* window.alert(populated) *)
| Callback (items : list Item)              (* the widget's callback(results) *)
| ShowMismatch (k : FieldKey) (text : string).  (* .mismatch-text written *)

Record LastSel := { ls_id : option string; ls_name : option JsVal }.

(** The <form>: the disabled flag of each of its submit buttons. *)
Record Form := { submitDisabled : list bool }.

Record State := mkState {
  fields : Fields;
  currentMode : string;
  autocompleteInstance : bool; (* false for null *)
  lastSelectedEstablishment : LastSel;
  nameSearchController : option nat;
  codeLookupController : option nat;
  mismatchAlertDispatched : bool;
  formEl : bool; (* false for null, true for document.querySelector('form') *)
  airtableCache : Cache.t QueryResult;
  (* environment *)
  form : option Form; (* the document's <form> *)
  aborted : list nat; (* controllers whose abort() ran *)
  nextController : nat; (* identity of the next new AbortController *)
  pending : list Request; (* fetches in flight *)
  online : bool; (* navigator.onLine *)
  log : list Effect (* oldest first *)
}.

Definition setFields v s :=
  mkState v (currentMode s) (autocompleteInstance s)
    (lastSelectedEstablishment s) (nameSearchController s)
    (codeLookupController s) (mismatchAlertDispatched s) (formEl s)
    (airtableCache s) (form s) (aborted s) (nextController s) (pending s)
    (online s) (log s).
Definition setCurrentMode v s :=
  mkState (fields s) v (autocompleteInstance s) (lastSelectedEstablishment s)
    (nameSearchController s) (codeLookupController s)
    (mismatchAlertDispatched s) (formEl s) (airtableCache s) (form s)
    (aborted s) (nextController s) (pending s) (online s) (log s).
Definition setAutocompleteInstance v s :=
  mkState (fields s) (currentMode s) v (lastSelectedEstablishment s)
    (nameSearchController s) (codeLookupController s)
    (mismatchAlertDispatched s) (formEl s) (airtableCache s) (form s)
    (aborted s) (nextController s) (pending s) (online s) (log s).
Definition setLastSelected v s :=
  mkState (fields s) (currentMode s) (autocompleteInstance s) v
    (nameSearchController s) (codeLookupController s)
    (mismatchAlertDispatched s) (formEl s) (airtableCache s) (form s)
    (aborted s) (nextController s) (pending s) (online s) (log s).
Definition setNameSearchController v s :=
  mkState (fields s) (currentMode s) (autocompleteInstance s)
    (lastSelectedEstablishment s) v (codeLookupController s)
    (mismatchAlertDispatched s) (formEl s) (airtableCache s) (form s)
    (aborted s) (nextController s) (pending s) (online s) (log s).
Definition setCodeLookupController v s :=
  mkState (fields s) (currentMode s) (autocompleteInstance s)
    (lastSelectedEstablishment s) (nameSearchController s) v
    (mismatchAlertDispatched s) (formEl s) (airtableCache s) (form s)
    (aborted s) (nextController s) (pending s) (online s) (log s).
Definition setMismatchAlertDispatched v s :=
  mkState (fields s) (currentMode s) (autocompleteInstance s)
    (lastSelectedEstablishment s) (nameSearchController s)
    (codeLookupController s) v (formEl s) (airtableCache s) (form s)
    (aborted s) (nextController s) (pending s) (online s) (log s).
Definition setFormEl v s :=
  mkState (fields s) (currentMode s) (autocompleteInstance s)
    (lastSelectedEstablishment s) (nameSearchController s)
    (codeLookupController s) (mismatchAlertDispatched s) v (airtableCache s)
    (form s) (aborted s) (nextController s) (pending s) (online s) (log s).
Definition setAirtableCache v s :=
  mkState (fields s) (currentMode s) (autocompleteInstance s)
    (lastSelectedEstablishment s) (nameSearchController s)
    (codeLookupController s) (mismatchAlertDispatched s) (formEl s) v (form s)
    (aborted s) (nextController s) (pending s) (online s) (log s).
Definition setForm v s :=
  mkState (fields s) (currentMode s) (autocompleteInstance s)
    (lastSelectedEstablishment s) (nameSearchController s)
    (codeLookupController s) (mismatchAlertDispatched s) (formEl s)
    (airtableCache s) v (aborted s) (nextController s) (pending s) (online s)
    (log s).
Definition setAborted v s :=
  mkState (fields s) (currentMode s) (autocompleteInstance s)
    (lastSelectedEstablishment s) (nameSearchController s)
    (codeLookupController s) (mismatchAlertDispatched s) (formEl s)
    (airtableCache s) (form s) v (nextController s) (pending s) (online s)
    (log s).
Definition setNextController v s :=
  mkState (fields s) (currentMode s) (autocompleteInstance s)
    (lastSelectedEstablishment s) (nameSearchController s)
    (codeLookupController s) (mismatchAlertDispatched s) (formEl s)
    (airtableCache s) (form s) (aborted s) v (pending s) (online s) (log s).
Definition setPending v s :=
  mkState (fields s) (currentMode s) (autocompleteInstance s)
    (lastSelectedEstablishment s) (nameSearchController s)
    (codeLookupController s) (mismatchAlertDispatched s) (formEl s)
    (airtableCache s) (form s) (aborted s) (nextController s) v (online s)
    (log s).
Definition setOnline v s :=
  mkState (fields s) (currentMode s) (autocompleteInstance s)
    (lastSelectedEstablishment s) (nameSearchController s)
    (codeLookupController s) (mismatchAlertDispatched s) (formEl s)
    (airtableCache s) (form s) (aborted s) (nextController s) (pending s) v
    (log s).
Definition setLog v s :=
  mkState (fields s) (currentMode s) (autocompleteInstance s)
    (lastSelectedEstablishment s) (nameSearchController s)
    (codeLookupController s) (mismatchAlertDispatched s) (formEl s)
    (airtableCache s) (form s) (aborted s) (nextController s) (pending s)
    (online s) v.

(** Run [g] on the elements bound to [k]. *)
Definition onField (k : FieldKey) (g : Field -> Field) (s : State) : State :=
  setFields (updField k g (fields s)) s.

Definition emit (e : Effect) (s : State) : State := setLog (log s ++ [e]) s.

(** ** Modes (MODES, setMode, hideElements, preventInteraction) *)

Record ModeConfig := { hide : list FieldKey; prevent : list FieldKey }.

Definition CODE_LOOKUP : string := "Partner Early-Access Code Lookup".
Definition NAME_LOOKUP : string := "Establishment Name Lookup".

Definition MODES (mode : string) : option ModeConfig :=
  if String.eqb mode CODE_LOOKUP then
    Some {| hide := [];
            prevent := [establishmentType; partnerStatus; awardLevel;
                        dutiesAndTaxes; officialEstablishmentName] |}
  else if String.eqb mode NAME_LOOKUP then
    Some {| hide := [redemptionCode];
            prevent := [establishmentType; partnerStatus; awardLevel;
                        dutiesAndTaxes] |}
  else None.

Definition hideElements (fieldNames : list FieldKey) (s : State) : State :=
  fold_left (fun s fieldName => onField fieldName (withHidden true) s) fieldNames s.

Definition preventEdit (f : Field) : Field :=
  match select f, input f with
  | None, None => f
  | Some sel, _ => if select2 sel then withLock Select2Lock f else withLock PlainLock f
  | None, Some _ => withLock PlainLock f
  end.

Definition preventInteraction (fieldNames : list FieldKey) (s : State) : State :=
  fold_left (fun s fieldName => onField fieldName preventEdit s) fieldNames s.

(** [MODES[mode] || { hide: [], prevent: [] }] *)
Definition configOf (mode : string) : ModeConfig :=
  match MODES mode with
  | Some c => c
  | None => {| hide := []; prevent := [] |}
  end.

Definition setMode (mode : string) (s : State) : State :=
  let s1 := setCurrentMode mode s in
  let config := configOf mode in
  preventInteraction (prevent config) (hideElements (hide config) s1).

(** The page is static: a scan finds the bindings [fields] already
    holds, so [initializeFields] comes down to re-applying the mode. *)
Definition initializeFields (s : State) : State := setMode (currentMode s) s.

(** ** Resetting (resetField, resetFields, resetDependentFields) *)

Definition resetSelect (sel : SelectEl) : SelectEl :=
  {| options := options sel;
     selectedIndex := match options sel with [] => None | _ :: _ => Some 0 end;
     select2 := select2 sel |}.

Definition resetField (f : Field) : Field :=
  match input f, select f with
  | None, None => f
  | _, _ => withSelect (option_map resetSelect (select f))
              (withInput (option_map (fun _ => "") (input f)) f)
  end.

Definition resetFields (exclusions : list FieldKey) (s : State) : State :=
  setFields
    (map (fun e => if memKey (fst e) exclusions then e
                   else (fst e, resetField (snd e))) (fields s)) s.

Definition idTruthy (id : option string) : bool :=
  match id with Some i => Js.truthy i | None => false end.

Definition updateFormSubmitState (s : State) : State :=
  if formEl s then
    let enabled := idTruthy (ls_id (lastSelectedEstablishment s)) in
    setForm (option_map (fun f =>
               {| submitDisabled := map (fun _ => negb enabled) (submitDisabled f) |})
               (form s)) s
  else s.

(** [input.value = v] where the binding has an input. *)
Definition writeInput (k : FieldKey) (v : string) (s : State) : State :=
  onField k (fun f => match input f with
                      | Some _ => withInput (Some v) f
                      | None => f
                      end) s.

Definition resetDependentFields (exclusions : list FieldKey) (s : State) : State :=
  let s1 := resetFields exclusions s in
  let s2 := if negb (memKey customEstablishmentName exclusions)
            then writeInput customEstablishmentName "" s1 else s1 in
  let s3 := setLastSelected {| ls_id := None; ls_name := None |} s2 in
  updateFormSubmitState s3.

(** ** clearAndResetForm *)

Definition clearMessages (f : Field) : Field :=
  withMismatch None (withSpinner false (withNoResults None (withError None f))).

Definition clearAndResetForm (s : State) : State :=
  let s1 := resetFields [] s in
  let s2 := setFields (map (fun e => (fst e, clearMessages (snd e))) (fields s1)) s1 in
  let preventList :=
    if String.eqb (currentMode s2) CODE_LOOKUP
    then [establishmentType; partnerStatus; awardLevel; dutiesAndTaxes;
          officialEstablishmentName]
    else [establishmentType; partnerStatus; awardLevel; dutiesAndTaxes] in
  let s3 := preventInteraction preventList s2 in
  if negb (String.eqb (currentMode s3) CODE_LOOKUP) && autocompleteInstance s3
  then writeInput officialEstablishmentName "" s3
  else s3.

(** ** Option matcher (setSelectValue) *)

Definition dq : string := String (ascii_of_nat 34) EmptyString.

Fixpoint dropStr (n : nat) (s : string) : string :=
  match n, s with
  | O, _ => s
  | S n', String _ r => dropStr n' r
  | S _, EmptyString => EmptyString
  end.

(** [s.replace(/\(required\)/i, '')]: the first occurrence goes. *)
Fixpoint removeRequired (s : string) : string :=
  if Js.startsWith (Js.toLowerCase s) "(required)" then dropStr 10 s
  else match s with
       | EmptyString => EmptyString
       | String c r => String c (removeRequired r)
       end.

(** [s.replace(/:$/, '')] *)
Fixpoint dropTrailingColon (s : string) : string :=
  match s with
  | EmptyString => EmptyString
  | String c EmptyString => if Ascii.eqb c ":" then EmptyString else s
  | String c r => String c (dropTrailingColon r)
  end.

Definition orDefault (s d : string) : string := if Js.truthy s then s else d.

Definition labelTextOf (f : Field) : string :=
  let rawLabelText := orDefault (label f) "Field" in
  orDefault (Js.trim (dropTrailingColon (removeRequired rawLabelText))) "Field".

Definition mismatchMessage (establishmentValue labelText : string) : string :=
  "This product does not meet your establishment details. This product does not have "
  ++ dq ++ establishmentValue ++ dq ++ " for the option " ++ dq ++ labelText ++ dq ++ ".".

Definition candidates (o : OptionEl) : list string :=
  [Js.trim (textContent o); optValue o;
   Js.trim (match dataName o with Some d => d | None => "" end)].

Definition optionMatches (tv : string) (o : OptionEl) : bool :=
  existsb (fun v => String.eqb (Js.toLowerCase v) tv
                    || Js.includes (Js.toLowerCase v) tv) (candidates o).

(** [options.find(...)], as the position of the option found. *)
Fixpoint findIndexFrom (p : OptionEl -> bool) (l : list OptionEl) (i : nat) : option nat :=
  match l with
  | [] => None
  | o :: r => if p o then Some i else findIndexFrom p r (S i)
  end.

Definition findIndex (p : OptionEl -> bool) (l : list OptionEl) : option nat :=
  findIndexFrom p l 0.

(** A call either returns a value or leaves by an exception; both carry
    the state reached. *)
Inductive Result (A : Type) :=
| Val (a : A) (s : State)
| Exn (s : State).

Arguments Val {A} a s.
Arguments Exn {A} s.

Definition bind {A B : Type} (r : Result A) (k : A -> State -> Result B) : Result B :=
  match r with
  | Val a s => k a s
  | Exn s => Exn s
  end.

Definition stateOf {A : Type} (r : Result A) : State :=
  match r with Val _ s => s | Exn s => s end.

(** The option left selected once [matched], at position [i], has been
    found.  [select.value = matched.value] and [matched.el.selected = true]
    leave [matched] selected.  On a select run by Select2,
    [jQuery(select).val(matched.value)] then walks the options from the
    last to the first and sets [selected] on each by whether its value is
    [matched.value], so that the first option with that value ends up
    selected. *)
Definition selectedBy (sel : SelectEl) (i : nat) : nat :=
  if select2 sel then
    match nth_error (options sel) i with
    | Some matched =>
        match findIndex (fun o => String.eqb (optValue o) (optValue matched))
                        (options sel) with
        | Some j => j
        | None => i
        end
    | None => i
    end
  else i.

(** The no-match branch of [setSelectValue] up to its reset: the inline
    message is written under the field, then the blocking notice is
    raised unless the cooldown flag is set. *)
Definition showMismatch (k : FieldKey) (f : Field) (target : string) (s : State) : State :=
  let labelText := labelTextOf f in
  let msg := mismatchMessage target labelText in
  let s1 := emit (ShowMismatch k msg) (onField k (withMismatch (Some msg)) s) in
  if mismatchAlertDispatched s1 then s1
  else emit (Alert labelText target) (setMismatchAlertDispatched true s1).

(** [setSelectValue(fields[k].select, targetValue)].  A truthy target
    that is not a string has no [toLowerCase]: a TypeError.  The change
    events it dispatches have no listener in main.js. *)
Definition setSelectValue (k : FieldKey) (targetValue : JsVal) (s : State) : Result bool :=
  match getField k (fields s) with
  | None => Val false s
  | Some f =>
      match select f with
      | None => Val false s
      | Some sel =>
          if negb (jsTruthy targetValue) then Val false s
          else
            match targetValue with
            | JOther _ _ => Exn s
            | JStr target =>
                let tv := Js.toLowerCase target in
                match findIndex (optionMatches tv) (options sel) with
                | Some i =>
                    Val true
                      (onField k (fun f =>
                         withMismatch None
                           (withSelect (Some {| options := options sel;
                                                selectedIndex := Some (selectedBy sel i);
                                                select2 := select2 sel |}) f)) s)
                | None => Val false (clearAndResetForm (showMismatch k f target s))
                end
            end
      end
  end.

(** ** Selection resolver (handleRedemptionCodeSelection, updateSelectElements) *)

Definition hasSelect (k : FieldKey) (s : State) : bool :=
  match getField k (fields s) with
  | Some f => match select f with Some _ => true | None => false end
  | None => false
  end.

(** [x || ''] *)
Definition orEmpty (v : JsVal) : JsVal := if jsTruthy v then v else JStr "".

Definition updateSelectElements
    (officialEstablishmentName_ partnerStatus_ awardLevel_ dutiesAndTaxes_ : JsVal)
    (s : State) : Result unit :=
  let s1 := writeInput customEstablishmentName (toStr officialEstablishmentName_) s in
  bind (if hasSelect partnerStatus s1
        then setSelectValue partnerStatus partnerStatus_ s1 else Val false s1)
    (fun _ s2 =>
  bind (if hasSelect awardLevel s2
        then setSelectValue awardLevel awardLevel_ s2 else Val false s2)
    (fun _ s3 =>
  bind (if hasSelect dutiesAndTaxes s3
        then setSelectValue dutiesAndTaxes dutiesAndTaxes_ s3 else Val false s3)
    (fun _ s4 => Val tt s4))).

Definition dropdownMappings : list (string * FieldKey) :=
  [("Award Level", awardLevel); ("Establishment Type", establishmentType);
   ("Partner Status", partnerStatus); ("Duties & Taxes", dutiesAndTaxes)].

Fixpoint forEachDropdown (l : list (string * FieldKey)) (record : AirtableRecord)
    (s : State) : Result unit :=
  match l with
  | [] => Val tt s
  | (fieldName, configName) :: rest =>
      if jsTruthy (attr record fieldName) && hasSelect configName s
      then bind (setSelectValue configName (attr record fieldName) s)
             (fun _ s' => forEachDropdown rest record s')
      else forEachDropdown rest record s
  end.

Definition handleRedemptionCodeSelection (record : AirtableRecord) (s : State)
    : Result unit :=
  let name := attr record NAME_FIELD in
  let s1 := if jsTruthy name
            then writeInput customEstablishmentName (toStr name)
                   (writeInput officialEstablishmentName (toStr name) s)
            else s in
  bind (forEachDropdown dropdownMappings record s1) (fun _ s2 =>
    updateSelectElements (orEmpty name)
      (orEmpty (attr record "Partner Status"))
      (orEmpty (attr record "Award Level"))
      (orEmpty (attr record "Duties & Taxes")) s2).

(** ** Inline messages *)

Definition noResultsText (searchType : Channel) (queryText : string) : string :=
  match searchType with
  | nameSearch => "No Official Establishment Name matches " ++ dq ++ queryText ++ dq ++ "."
  | codeLookup => "No Partner Early-Access Code matches " ++ dq ++ queryText ++ dq ++ "."
  end.

Definition errorText (s : State) : string :=
  if online s then "Something went wrong fetching results. Please try again."
  else "You appear to be offline. Check your connection and try again.".

Definition lengthHelpText : string :=
  "Please check Partner Early-Access Code length. It must be exactly 8 characters.".

(** ** Selection tracking *)

Definition inputValue (k : FieldKey) (s : State) : option string :=
  match getField k (fields s) with
  | Some f => input f
  | None => None
  end.

(** [r.id || null] *)
Definition idOrNull (r : AirtableRecord) : option string :=
  match rec_id r with
  | Some i => if Js.truthy i then Some i else None
  | None => None
  end.

(** [r.fields?.[NAME] || officialName.value || null] *)
Definition nameOrNull (r : AirtableRecord) (s : State) : option JsVal :=
  if jsTruthy (attr r NAME_FIELD) then Some (attr r NAME_FIELD)
  else match inputValue officialEstablishmentName s with
       | Some v => if Js.truthy v then Some (JStr v) else None
       | None => None
       end.

Definition markSelection (r : AirtableRecord) (s : State) : State :=
  setLastSelected {| ls_id := idOrNull r; ls_name := nameOrNull r s |} s.

(** [lastSelectedEstablishment.name && current !== lastSelectedEstablishment.name] *)
Definition nameDiverged (current : string) (s : State) : bool :=
  match ls_name (lastSelectedEstablishment s) with
  | None => false
  | Some (JStr n) => Js.truthy n && negb (String.eqb current n)
  | Some (JOther b _) => b
  end.

(** ** Query gateway (queryAirtableContains) and the two lookups *)

Definition abortController (c : option nat) (s : State) : State :=
  match c with
  | Some id => setAborted (id :: aborted s) s
  | None => s
  end.

Definition cacheKey (field cleanQuery : string) : string :=
  field ++ "::" ++ Js.toLowerCase cleanQuery.

(** What [await queryAirtableContains(field, query, signal)] does up to
    the point where it has data or has issued the fetch. *)
Inductive Queried :=
| Resolved (data : QueryResult) (s : State)
| Issued (s : State).

Definition queryAirtableContains (ch : Channel) (field query : string) (ctrl : nat)
    (s : State) : Queried :=
  let cleanQuery := Js.trim query in
  if negb (Js.truthy cleanQuery) then Resolved {| records := Some [] |} s
  else
    match Cache.cacheGet (cacheKey field cleanQuery) (airtableCache s) with
    | (Some cached, c') => Resolved cached (setAirtableCache c' s)
    | (None, _) =>
        Issued (setPending (pending s ++
                  [{| rq_ctrl := ctrl; rq_channel := ch; rq_field := field;
                      rq_query := cleanQuery; rq_typed := query |}])
                  (emit (Fetch ctrl field cleanQuery) s))
    end.

(** *** Name search: the widget's [source] and its continuations *)

Definition nameThen (query : string) (results : list Item) (s : State) : State :=
  let s1 := onField officialEstablishmentName
              (fun f => withError None (withSpinner false f)) s in
  let s2 := onField officialEstablishmentName
              (withNoResults (match results with
                              | [] => Some (noResultsText nameSearch query)
                              | _ :: _ => None
                              end)) s1 in
  emit (Callback results) s2.

Definition nameCatch (s : State) : State :=
  let s1 := onField officialEstablishmentName
              (fun f => withNoResults None (withSpinner false f)) s in
  emit (Callback [])
    (onField officialEstablishmentName (withError (Some (errorText s1))) s1).

Definition nameAborted (s : State) : State :=
  onField officialEstablishmentName (withSpinner false) s.

Definition nameSource (query : string) (s : State) : State :=
  let s1 := onField officialEstablishmentName
              (fun f => withSpinner true (withError None (withNoResults None f))) s in
  if (String.length query <? 2)%nat then
    emit (Callback [])
      (onField officialEstablishmentName
         (fun f => withError None (withNoResults None (withSpinner false f))) s1)
  else
    let s2 := abortController (nameSearchController s1) s1 in
    let ctrl := nextController s2 in
    let s3 := setNameSearchController (Some ctrl) (setNextController (S ctrl) s2) in
    match queryAirtableContains nameSearch NAME_FIELD query ctrl s3 with
    | Resolved data s4 => nameThen query (searchAirtableForAutocomplete data) s4
    | Issued s4 => s4
    end.

Definition onSelectItem (item : Item) (s : State) : State :=
  let s1 := onField officialEstablishmentName
              (fun f => withError None (withNoResults None f)) s in
  match handleRedemptionCodeSelection (item_data item) s1 with
  | Exn s2 => s2
  | Val _ s2 => updateFormSubmitState (markSelection (item_data item) s2)
  end.

Definition DEPENDENT_OF_NAME : list FieldKey := [officialEstablishmentName; redemptionCode].
Definition DEPENDENT_OF_CODE : list FieldKey := [redemptionCode; officialEstablishmentName].

Definition currentName (s : State) : string :=
  Js.trim (match inputValue officialEstablishmentName s with
           | Some v => v
           | None => ""
           end).

(** The debounced input listener of the name field. *)
Definition nameInputListener (s : State) : State :=
  let current := currentName s in
  let s1 := if nameDiverged current s then resetDependentFields DEPENDENT_OF_NAME s else s in
  if negb (Js.truthy current) then resetDependentFields DEPENDENT_OF_NAME s1 else s1.

Definition nameBlurListener (s : State) : State :=
  let current := currentName s in
  if negb (Js.truthy current) || nameDiverged current s
  then resetDependentFields DEPENDENT_OF_NAME s else s.

(** *** Code lookup: [handleInput] and its continuations *)

Definition codeCatch (s : State) : State :=
  let s1 := onField redemptionCode (withNoResults None) s in
  resetDependentFields DEPENDENT_OF_CODE
    (onField redemptionCode (withError (Some (errorText s1))) s1).

Definition codeFinally (s : State) : State :=
  onField redemptionCode (withSpinner false) s.

Definition codeThen (code : string) (data : QueryResult) (s : State) : State :=
  codeFinally
    match records data with
    | None => codeCatch s
    | Some [] =>
        resetDependentFields DEPENDENT_OF_CODE
          (onField redemptionCode
             (withNoResults (Some (noResultsText codeLookup code))) s)
    | Some (r :: _) =>
        let s1 := onField redemptionCode
                    (fun f => withError None (withNoResults None f)) s in
        match handleRedemptionCodeSelection r s1 with
        | Exn s2 => codeCatch s2
        | Val _ s2 => updateFormSubmitState (markSelection r s2)
        end
    end.

Definition handleInput (s : State) : State :=
  match inputValue redemptionCode s with
  | None => s
  | Some value =>
      let code := Js.trim value in
      let s1 := resetFields [redemptionCode] s in
      let s2 := onField redemptionCode
                  (fun f => withHelp None (withError None (withNoResults None f))) s1 in
      let s3 := abortController (codeLookupController s2) s2 in
      if negb (String.length code =? 8)%nat then
        resetDependentFields DEPENDENT_OF_CODE
          (onField redemptionCode (withHelp (Some lengthHelpText)) s3)
      else
        let s4 := onField redemptionCode (withSpinner true) s3 in
        let ctrl := nextController s4 in
        let s5 := setCodeLookupController (Some ctrl) (setNextController (S ctrl) s4) in
        match queryAirtableContains codeLookup "Redemption Code" code ctrl s5 with
        | Resolved data s6 => codeThen code data s6
        | Issued s6 => s6
        end
  end.

(** ** The event loop *)

(** How a fetch settles is the transport's choice, not the page's.  The
    browser's fetch rejects with an AbortError once the signal it was
    given is aborted; main.js itself never looks at the signal again. *)
Inductive FetchOutcome :=
| FetchOk (data : QueryResult)   (* response.ok and a parsed body *)
| FetchError                     (* a non-success status or a network failure *)
| FetchAbort.                    (* an AbortError *)

Fixpoint takeRequest (ctrl : nat) (l : list Request) : option (Request * list Request) :=
  match l with
  | [] => None
  | rq :: r =>
      if (rq_ctrl rq =? ctrl)%nat then Some (rq, r)
      else match takeRequest ctrl r with
           | Some (x, r') => Some (x, rq :: r')
           | None => None
           end
  end.

(** The fetch of controller [ctrl] settles and the awaiting code resumes. *)
Definition settle (ctrl : nat) (o : FetchOutcome) (s : State) : State :=
  match takeRequest ctrl (pending s) with
  | None => s
  | Some (rq, rest) =>
      let s1 := setPending rest s in
      match o with
      | FetchOk data =>
          let s2 := setAirtableCache
                      (Cache.cacheSet (cacheKey (rq_field rq) (rq_query rq)) data
                         (airtableCache s1)) s1 in
          match rq_channel rq with
          | nameSearch => nameThen (rq_typed rq) (searchAirtableForAutocomplete data) s2
          | codeLookup => codeThen (rq_typed rq) data s2
          end
      | FetchError =>
          match rq_channel rq with
          | nameSearch => nameCatch s1
          | codeLookup => codeFinally (codeCatch s1)
          end
      | FetchAbort =>
          match rq_channel rq with
          | nameSearch => nameAborted s1
          | codeLookup => codeFinally s1
          end
      end
  end.

Inductive Event :=
| EvUserEdit (k : FieldKey) (text : string)   (* the user changes an input's text *)
| EvConnectivity (up : bool)                  (* navigator.onLine changes *)
| EvNameSource (query : string)               (* the debounced source runs *)
| EvSelectItem (item : Item)                  (* the widget's onSelectItem *)
| EvNameInput                                 (* the debounced input listener *)
| EvNameBlur
| EvCodeInput                                 (* the debounced handleInput *)
| EvSettle (ctrl : nat) (o : FetchOutcome)
| EvCooldown                                  (* the 1200 ms timer of the notice *)
| EvReset                                     (* FTGForm.reset() *)
| EvSetMode (mode : string)                   (* FTGForm.setMode(mode) *)
| EvReinitialize.                             (* FTGForm.reinitialize() *)

(** The name listeners exist once the widget has been built. *)
Definition step (e : Event) (s : State) : State :=
  match e with
  | EvUserEdit k text => writeInput k text s
  | EvConnectivity up => setOnline up s
  | EvNameSource query => if autocompleteInstance s then nameSource query s else s
  | EvSelectItem item => if autocompleteInstance s then onSelectItem item s else s
  | EvNameInput => if autocompleteInstance s then nameInputListener s else s
  | EvNameBlur => if autocompleteInstance s then nameBlurListener s else s
  | EvCodeInput => handleInput s
  | EvSettle ctrl o => settle ctrl o s
  | EvCooldown => setMismatchAlertDispatched false s
  | EvReset => clearAndResetForm s
  | EvSetMode mode => setMode mode s
  | EvReinitialize => initializeFields s
  end.

Definition run (evs : list Event) (s : State) : State :=
  fold_left (fun s e => step e s) evs s.

(** ** Start-up *)

(** The module-level initialisers over a page with the form items [page]
    and the form [f]. *)
Definition loaded (page : Fields) (f : option Form) : State :=
  {| fields := page;
     currentMode := CODE_LOOKUP;
     autocompleteInstance := false;
     lastSelectedEstablishment := {| ls_id := None; ls_name := None |};
     nameSearchController := None;
     codeLookupController := None;
     mismatchAlertDispatched := false;
     formEl := false;
     airtableCache := [];
     form := f;
     aborted := [];
     nextController := 0;
     pending := [];
     online := true;
     log := [] |}.

(** [widget] says that window.Autocomplete is defined and constructs. *)
Definition addEstablishmentNameListener (widget : bool) (s : State) : State :=
  if autocompleteInstance s then s
  else match inputValue officialEstablishmentName s with
       | None => s
       | Some _ => if widget then setAutocompleteInstance true s else s
       end.

Definition initializeSystem (widget : bool) (s : State) : State :=
  let s1 := addEstablishmentNameListener widget (initializeFields s) in
  match form s1 with
  | Some _ => updateFormSubmitState (setFormEl true s1)
  | None => s1
  end.

(** States the controller can be in between two events. *)
Inductive reachable : State -> Prop :=
| reach_init page f mode widget :
    reachable (initializeSystem widget (setCurrentMode mode (loaded page f)))
| reach_step e s : reachable s -> reachable (step e s)
| reach_again widget s : reachable s -> reachable (initializeSystem widget s).

End Ftg.

(** ** The specification's vocabulary

    Definitions that follow the words of the specification, to be
    compared with the code above. *)

Module Spec.
Import Ftg.

(** [t] occurs in [s] as a substring. *)
Definition contains (s t : string) : Prop :=
  exists pre post : string, s = (pre ++ t ++ post)%string.

(** Equal or containing, case-insensitively. *)
Definition ciMatches (candidate target : string) : Prop :=
  Js.toLowerCase candidate = Js.toLowerCase target \/
  contains (Js.toLowerCase candidate) (Js.toLowerCase target).

(** Some option's visible text, value or name attribute matches. *)
Definition optionMatchesTarget (target : string) (o : OptionEl) : Prop :=
  exists v, In v (candidates o) /\ ciMatches v target.

(** A name made of nothing but white space (the empty name included). *)
Definition whitespaceOnly (n : string) : bool :=
  forallb Js.isWhiteSpace (list_ascii_of_string n).

(** The record carries a name: a string that is not white space only. *)
Definition hasName (r : AirtableRecord) : bool :=
  match attr r NAME_FIELD with
  | JStr n => negb (whitespaceOnly n)
  | JOther _ _ => false
  end.

Definition recordsOf (data : QueryResult) : list AirtableRecord :=
  match records data with Some rs => rs | None => [] end.

(** A field as [resetField] leaves it: empty text, first option. *)
Definition isReset (f : Field) : Prop :=
  (forall v, input f = Some v -> v = "") /\
  (forall sel, select f = Some sel ->
     selectedIndex sel = match options sel with [] => None | _ :: _ => Some 0 end).

(** No inline message of the four kinds clearAndResetForm removes. *)
Definition noMessages (f : Field) : Prop :=
  mismatchText f = None /\ errorMsg f = None /\ noResultsMsg f = None /\ spinner f = false.

Definition isLocked (f : Field) : Prop := lock f <> Unlocked.

(** A binding with a control to lock. *)
Definition hasControl (f : Field) : Prop := input f <> None \/ select f <> None.

Definition isFetch (e : Effect) : bool :=
  match e with Fetch _ _ _ => true | _ => false end.

Definition isAlert (e : Effect) : bool :=
  match e with Alert _ _ => true | _ => false end.

(** The network calls in a log. *)
Definition fetches (l : list Effect) : list Effect := filter isFetch l.

(** The blocking notices in a log. *)
Definition alerts (l : list Effect) : list Effect := filter isAlert l.

(** The submit control is enabled: no submit button of the form is
    disabled. *)
Definition submitEnabled (s : State) : Prop :=
  forall f, form s = Some f -> Forall (fun d => d = false) (submitDisabled f).

Definition submitDisabledAll (s : State) : Prop :=
  forall f, form s = Some f -> Forall (fun d => d = true) (submitDisabled f).

(** The controller a channel's variable holds. *)
Definition controllerOf (ch : Channel) (s : State) : option nat :=
  match ch with
  | nameSearch => nameSearchController s
  | codeLookup => codeLookupController s
  end.

(** The values of the bound controls: text of each input, options and
    selection of each select. *)
Definition controls (s : State) : list (FieldKey * option string * option SelectEl) :=
  map (fun e => (fst e, input (snd e), select (snd e))) (fields s).



(** [s'] is [s] with the selection invalidated: LastSelection cleared,
    every bound field outside [kept] reset, the fields of [kept] as they
    were, and the submit buttons recomputed from the cleared selection
    (all disabled, when the form is known). *)
Definition invalidated (kept : list FieldKey) (s s' : State) : Prop :=
  lastSelectedEstablishment s' = {| ls_id := None; ls_name := None |} /\
  (forall k f, In (k, f) (fields s') -> ~ In k kept -> isReset f) /\
  (forall k, In k kept -> getField k (fields s') = getField k (fields s)) /\
  (formEl s = true -> submitDisabledAll s').

(** The submit control is enabled exactly when LastSelection.identity is
    non-null: a submit button is not disabled if and only if it is. *)
Definition submitFollowsIdentity (s : State) : Prop :=
  forall f d, form s = Some f -> In d (submitDisabled f) ->
              (d = false <-> ls_id (lastSelectedEstablishment s) <> None).

(** Of two requests in flight on one channel, the one issued first (the
    one with the older controller) has been aborted. *)
Definition superseded (s : State) : Prop :=
  forall rq1 rq2,
    In rq1 (pending s) -> In rq2 (pending s) ->
    rq_channel rq1 = rq_channel rq2 ->
    rq_ctrl rq1 < rq_ctrl rq2 ->
    In (rq_ctrl rq1) (aborted s).

End Spec.

(** ** A sample page *)

Module Sample.
Import Ftg.

Definition opt (text value : string) : OptionEl :=
  {| textContent := text; optValue := value; dataName := None |}.

Definition inputField (lbl : string) : Field :=
  {| label := lbl; input := Some ""; select := None; hidden := false;
     lock := Unlocked; mismatchText := None; errorMsg := None;
     noResultsMsg := None; spinner := false; helpText := None |}.

Definition selectField (lbl : string) (opts : list OptionEl) : Field :=
  {| label := lbl; input := None;
     select := Some {| options := opts; selectedIndex := Some 0; select2 := false |};
     hidden := false; lock := Unlocked; mismatchText := None; errorMsg := None;
     noResultsMsg := None; spinner := false; helpText := None |}.

Definition awardOptions : list OptionEl :=
  [opt "Select an award level" ""; opt "Silver" "silver";
   opt " Gold Tier " "tier-gold"; opt "Gold" "gold"].

Definition page : Fields :=
  [(redemptionCode, inputField "Partner Early-Access Code");
   (officialEstablishmentName, inputField "Official Establishment Name (required)");
   (customEstablishmentName, inputField "Custom Establishment Name");
   (establishmentType, selectField "Establishment Type:"
      [opt "Select a type" ""; opt "Hotel" "hotel"; opt "Spa" "spa"]);
   (partnerStatus, selectField "Partner Status"
      [opt "Select a status" ""; opt "Partner" "partner"]);
   (awardLevel, selectField "Award Level" awardOptions);
   (dutiesAndTaxes, selectField "Duties & Taxes"
      [opt "Select" ""; opt "Excluded" "excluded"])].

Definition theForm : Form := {| submitDisabled := [false] |}.

(** The page once the script has started in its default mode. *)
Definition started : State :=
  initializeSystem true (loaded page (Some theForm)).

Definition amanTokyo : AirtableRecord :=
  {| rec_id := Some "recAman";
     rec_fields := [("Official Establishment Name", JStr "Aman Tokyo");
                    ("Award Level", JStr "Gold");
                    ("Partner Status", JStr "Partner")] |}.

(** A record whose establishment type the page has no option for. *)
Definition villa : AirtableRecord :=
  {| rec_id := Some "recVilla";
     rec_fields := [("Official Establishment Name", JStr "Villa Rosa");
                    ("Establishment Type", JStr "Resort");
                    ("Partner Status", JStr "Partner")] |}.

End Sample.

(** ** Invariants and relations of the proofs *)

Module Inv.
Import Ftg Spec.

(** The invariant of a run: the cache holds, oldest first, the [N] most
    recent keys of the recency list. *)
Definition lru_inv (V : Type) (N : nat) (c : Cache.t V) (r : list string) : Prop :=
  NoDup r /\ Cache.keys c = rev (firstn N r).

Definition values_inv (V : Type) (ops : list (Cache.Op V)) (c : Cache.t V) : Prop :=
  forall k v, Cache.get k c = Some v -> Cache.lastPut k ops = Some v.

(** Running [g] on each of [names] in turn is one pass over the
    bindings, when doing [g] twice is doing it once. *)
Definition onEach (names : list FieldKey) (g : Field -> Field) (fs : Fields) : Fields :=
  map (fun e => (fst e, if memKey (fst e) names then g (snd e) else snd e)) fs.

(** A property of every bound field. *)
Definition allFields (P : FieldKey -> Field -> Prop) (fs : Fields) : Prop :=
  forall k f, In (k, f) fs -> P k f.

(** What entering a mode does to one binding. *)
Definition entered (cfg : ModeConfig) (k : FieldKey) (f : Field) : Field :=
  let f1 := if memKey k (hide cfg) then withHidden true f else f in
  if memKey k (prevent cfg) then preventEdit f1 else f1.

(** [s'] differs from [s] in the state of the bound elements only. *)
Definition onlyFields (s s' : State) : Prop :=
  exists fs, s' = setFields fs s /\ map fst fs = map fst (fields s).

Definition preventListOf (mode : string) : list FieldKey :=
  if String.eqb mode CODE_LOOKUP
  then [establishmentType; partnerStatus; awardLevel; dutiesAndTaxes;
        officialEstablishmentName]
  else [establishmentType; partnerStatus; awardLevel; dutiesAndTaxes].

(** A bound field as clearAndResetForm leaves it in mode [mode]. *)
Definition cleared (mode : string) (k : FieldKey) (f : Field) : Prop :=
  isReset f /\ noMessages f /\
  (memKey k (prevent (configOf mode)) = true -> hasControl f -> isLocked f).

(** [s'] differs from [s] in what runs after a query may write: the
    bound elements, the notice flag, the selection, the submit buttons
    and effects other than network calls. *)
Definition local (s s' : State) : Prop :=
  map fst (fields s') = map fst (fields s) /\
  currentMode s' = currentMode s /\
  autocompleteInstance s' = autocompleteInstance s /\
  nameSearchController s' = nameSearchController s /\
  codeLookupController s' = codeLookupController s /\
  formEl s' = formEl s /\
  airtableCache s' = airtableCache s /\
  aborted s' = aborted s /\
  nextController s' = nextController s /\
  pending s' = pending s /\
  online s' = online s /\
  fetches (log s') = fetches (log s).

(** [s'] has the selection and the submit buttons of [s]. *)
Definition neutral (s s' : State) : Prop :=
  lastSelectedEstablishment s' = lastSelectedEstablishment s /\
  form s' = form s /\ formEl s' = formEl s.

(** From [s] to [s'] either no notice was raised and a set flag stayed
    set, or the flag was clear, exactly one notice was raised and the
    flag is now set. *)
Definition noticeStep (s s' : State) : Prop :=
  (alerts (log s') = alerts (log s) /\
   (mismatchAlertDispatched s = true -> mismatchAlertDispatched s' = true)) \/
  (mismatchAlertDispatched s = false /\ mismatchAlertDispatched s' = true /\
   List.length (alerts (log s')) = S (List.length (alerts (log s)))).

(** The three together, for code that only resolves a record. *)
Definition resolves (s s' : State) : Prop :=
  local s s' /\ neutral s s' /\ noticeStep s s'.

(** The state [handleInput] has reached when it looks at the length. *)
Definition afterAbort (s : State) : State :=
  let s2 := onField redemptionCode
              (fun f => withHelp None (withError None (withNoResults None f)))
              (resetFields [redemptionCode] s) in
  abortController (codeLookupController s2) s2.

(** The invariant between events: the form, when there is one, is the
    one [formEl] holds; a recorded identity and a recorded name are
    truthy; every submit button is disabled exactly when there is no
    identity. *)
Definition gated (s : State) : Prop :=
  (form s <> None -> formEl s = true) /\
  (forall i, ls_id (lastSelectedEstablishment s) = Some i -> Js.truthy i = true) /\
  (forall v, ls_name (lastSelectedEstablishment s) = Some v -> jsTruthy v = true) /\
  (forall f d, form s = Some f -> In d (submitDisabled f) ->
               d = negb (idTruthy (ls_id (lastSelectedEstablishment s)))).

(** Every request in flight carries the controller its channel's
    variable holds or an older one, and an older one has been aborted;
    the variables hold controllers that exist. *)
Definition ordered (s : State) : Prop :=
  (forall rq, In rq (pending s) ->
     exists c, controllerOf (rq_channel rq) s = Some c /\
               rq_ctrl rq <= c /\
               (rq_ctrl rq <> c -> In (rq_ctrl rq) (aborted s))) /\
  (forall ch c, controllerOf ch s = Some c -> c < nextController s).

(** [s'] has the requests, controllers and aborts of [s]. *)
Definition sameTraffic (s s' : State) : Prop :=
  pending s' = pending s /\ aborted s' = aborted s /\
  nameSearchController s' = nameSearchController s /\
  codeLookupController s' = codeLookupController s /\
  nextController s' = nextController s.

(** A channel gets a new controller after the old one has been aborted. *)
Definition renewed (ch : Channel) (s s' : State) : Prop :=
  pending s' = pending s /\
  nextController s' = S (nextController s) /\
  controllerOf ch s' = Some (nextController s) /\
  (forall ch', ch' <> ch -> controllerOf ch' s' = controllerOf ch' s) /\
  (forall x, In x (aborted s) -> In x (aborted s')) /\
  (forall c, controllerOf ch s = Some c -> In c (aborted s')).

(** Two codes typed one after the other, neither lookup settled yet. *)
Definition twoCodes : State :=
  run [EvUserEdit redemptionCode "ABCD1234"; EvCodeInput;
       EvUserEdit redemptionCode "WXYZ5678"; EvCodeInput] Sample.started.

End Inv.

(** * Further parts of main.js *)

(** ** Field registry: from a label to a key (initializeFields) *)

Module Registry.
Import Ftg.

(** [s.replace(/\s+/g, ' ')]: [inRun] says that the code unit before was
    white space. *)
Fixpoint collapse (inRun : bool) (s : string) : string :=
  match s with
  | EmptyString => EmptyString
  | String c r =>
      if Js.isWhiteSpace c
      then if inRun then collapse true r else String " " (collapse true r)
      else String c (collapse false r)
  end.

Definition collapseSpaces (s : string) : string := collapse false s.

(** The label text as initializeFields looks it up: trimmed, white space
    collapsed, the required marker and a closing colon removed, trimmed
    again. *)
Definition rawTextOf (textContent : string) : string :=
  Js.trim (dropTrailingColon (removeRequired (collapseSpaces (Js.trim textContent)))).

Definition FIELD_LABEL_TO_KEY : list (string * FieldKey) :=
  [("Partner Early-Access Code", redemptionCode);
   ("Official Establishment Name", officialEstablishmentName);
   ("Custom Establishment Name", customEstablishmentName);
   ("Establishment Type", establishmentType);
   ("Partner Status", partnerStatus);
   ("Award Level", awardLevel);
   ("Duties & Taxes", dutiesAndTaxes)].

(** Names every object literal inherits from Object.prototype. *)
Definition inheritedNames : list string :=
  ["constructor"; "toString"; "toLocaleString"; "valueOf"; "hasOwnProperty";
   "isPrototypeOf"; "propertyIsEnumerable"; "__proto__"; "__defineGetter__";
   "__defineSetter__"; "__lookupGetter__"; "__lookupSetter__"].

(** [FIELD_LABEL_TO_KEY[name]]: an own entry, a member inherited from
    Object.prototype (a truthy value that is no key), or undefined. *)
Inductive Lookup := Own (k : FieldKey) | Inherited | Undefined.

Fixpoint ownEntry (name : string) (t : list (string * FieldKey)) : option FieldKey :=
  match t with
  | [] => None
  | (l, k) :: r => if String.eqb l name then Some k else ownEntry name r
  end.

Definition lookup (name : string) : Lookup :=
  match ownEntry name FIELD_LABEL_TO_KEY with
  | Some k => Own k
  | None => if existsb (String.eqb name) inheritedNames then Inherited else Undefined
  end.

(** [Object.entries(t).find(p)?.[1]] *)
Fixpoint findEntry (p : string -> bool) (t : list (string * FieldKey)) : option FieldKey :=
  match t with
  | [] => None
  | (l, k) :: r => if p l then Some k else findEntry p r
  end.

(** What a form item is bound under: one of the keys, a member of
    Object.prototype taken for a key, or nothing. *)
Inductive Resolved := Key (k : FieldKey) | Stray | Unmapped.

(** The key of a form item with label text [rawText] (already cleaned)
    whose select, if any, has the data-name attribute [dataName]. *)
Definition resolveKey (rawText : string) (dataName : option string) : Resolved :=
  match lookup rawText with
  | Own k => Key k
  | Inherited => Stray
  | Undefined =>
      match findEntry (fun knownLabel =>
                         Js.startsWith (Js.toLowerCase rawText) (Js.toLowerCase knownLabel))
                      FIELD_LABEL_TO_KEY with
      | Some k => Key k
      | None =>
          match dataName with
          | Some d =>
              if Js.truthy d then
                let dataName' := Js.trim d in
                match lookup dataName' with
                | Own k => Key k
                | Inherited => Stray
                | Undefined =>
                    match findEntry (fun k => String.eqb (Js.toLowerCase dataName')
                                                         (Js.toLowerCase k))
                                    FIELD_LABEL_TO_KEY with
                    | Some k => Key k
                    | None => Unmapped
                    end
                end
              else Unmapped
          | None => Unmapped
          end
      end
  end.

(** A .form-item of the page: whether it has a <label>, the data-name
    attribute of its select, and its elements with their state. *)
Record FormItem := {
  fi_hasLabel : bool;
  fi_dataName : option string;
  fi_binding : Field
}.

Definition resolveItem (item : FormItem) : Resolved :=
  resolveKey (rawTextOf (label (fi_binding item)))
    (match select (fi_binding item) with
     | Some _ => fi_dataName item
     | None => None
     end).

(** [fields[key] = binding]: an existing key keeps its place. *)
Fixpoint assign (k : FieldKey) (b : Field) (fs : Fields) : Fields :=
  match fs with
  | [] => [(k, b)]
  | (k', b') :: r => if FieldKey_beq k' k then (k', b) :: r else (k', b') :: assign k b r
  end.

(** The scan of initializeFields over the form items of the page, from
    [fields = {}].  [None]: some item was bound under a name inherited
    from Object.prototype, which is no key of the model. *)
Fixpoint scanInto (items : list FormItem) (fs : Fields) : option Fields :=
  match items with
  | [] => Some fs
  | item :: rest =>
      if fi_hasLabel item then
        match resolveItem item with
        | Key k => scanInto rest (assign k (fi_binding item) fs)
        | Stray => None
        | Unmapped => scanInto rest fs
        end
      else scanInto rest fs
  end.

Definition scan (items : list FormItem) : option Fields := scanInto items [].

(** A page with two items labelled "Award Level". *)
Definition twoAwardItems : list FormItem :=
  [ {| fi_hasLabel := true; fi_dataName := None;
       fi_binding := Sample.selectField "Award Level" [] |};
    {| fi_hasLabel := true; fi_dataName := None;
       fi_binding := Sample.selectField "Award Level:" Sample.awardOptions |} ].

(** The binding of the last labelled form item that resolves to [k]. *)
Fixpoint lastBound (k : FieldKey) (items : list FormItem) : option Field :=
  match items with
  | [] => None
  | item :: rest =>
      match lastBound k rest with
      | Some b => Some b
      | None =>
          if fi_hasLabel item then
            match resolveItem item with
            | Key k' => if FieldKey_beq k' k then Some (fi_binding item) else None
            | _ => None
            end
          else None
      end
  end.

(** A label as the table writes them: no white space at either end or
    doubled inside, no parenthesis, no closing colon. *)
Fixpoint endsInSpace (b : bool) (s : string) : bool :=
  match s with
  | EmptyString => b
  | String c r => endsInSpace (Js.isWhiteSpace c) r
  end.

Definition plainLabel (l : string) : bool :=
  match l with
  | EmptyString => false
  | String c _ => negb (Js.isWhiteSpace c)
  end
  && String.eqb (Js.trimEnd l) l
  && String.eqb (collapse false l) l
  && negb (endsInSpace false l)
  && forallb (fun c => negb (Ascii.eqb (Js.lowerChar c) "("%char)) (list_ascii_of_string l)
  && String.eqb (dropTrailingColon l) l.

(** No known label is, case apart, the beginning of another one, and no
    inherited name begins with a known label. *)
Definition tableChecked : bool :=
  forallb (fun e1 =>
    forallb (fun e2 =>
      negb (Js.startsWith (Js.toLowerCase (fst e1)) (Js.toLowerCase (fst e2)))
      || (String.eqb (fst e1) (fst e2) && FieldKey_beq (snd e1) (snd e2)))
      FIELD_LABEL_TO_KEY
    && forallb (fun n => negb (Js.startsWith (Js.toLowerCase n) (Js.toLowerCase (fst e1))))
         inheritedNames
    && plainLabel (fst e1))
    FIELD_LABEL_TO_KEY.

End Registry.

(** ** The debounce utility *)

Module Debounce.
Section WithArgs.

Variable A : Type.

(** The timer of one debounced function: the arguments it will call
    [fn] with, if it is set. *)
Definition Timer := option A.

Inductive Ev :=
| Call (args : A)      (* the debounced function is called *)
| Expire.              (* the delay has passed since the timer was set *)

(** One event: the timer afterwards and the call of [fn] it made. *)
Definition stepTimer (t : Timer) (e : Ev) : Timer * option A :=
  match e with
  | Call args => (Some args, None)       (* clearTimeout(t); t = setTimeout(...) *)
  | Expire => (None, t)                  (* fn.apply(this, args), once *)
  end.

(** The calls of [fn], oldest first, over a sequence of events. *)
Fixpoint calls (t : Timer) (evs : list Ev) : list A :=
  match evs with
  | [] => []
  | e :: rest =>
      let (t', done) := stepTimer t e in
      match done with
      | Some a => a :: calls t' rest
      | None => calls t' rest
      end
  end.

(** The timer after a sequence of events. *)
Definition timerAfter (t : Timer) (evs : list Ev) : Timer :=
  fold_left (fun t e => fst (stepTimer t e)) evs t.

End WithArgs.

Arguments Call {A} args.
Arguments Expire {A}.

End Debounce.

(** ** What the markup fixes *)

Module Structure.
Import Ftg.

(** The part of a binding that comes from the page's markup: the label,
    whether there is an input, and the options of the select with the
    widget that runs it. *)
Definition fieldShape (f : Field) : string * bool * option (list OptionEl * bool) :=
  (label f,
   match input f with Some _ => true | None => false end,
   option_map (fun sel => (options sel, select2 sel)) (select f)).

Definition shape (s : State)
    : list (FieldKey * (string * bool * option (list OptionEl * bool))) :=
  map (fun e => (fst e, fieldShape (snd e))) (fields s).


(** [Object.keys(fields)] *)
Definition keysOf (s : State) : list FieldKey := map fst (fields s).

(** [s'] has the markup of [s], when no key of [s] is bound twice (as
    in any JavaScript object). *)
Definition kept (s s' : State) : Prop := NoDup (keysOf s) -> shape s' = shape s.

(** [f'] is still hidden if [f] was, and still locked if [f] was. *)
Definition stuck (f f' : Field) : Prop :=
  (hidden f = true -> hidden f' = true) /\ (lock f <> Unlocked -> lock f' <> Unlocked).

(** The bindings of [s'] are those of [s], key by key, each still
    hidden or locked if it was. *)
Definition sticky (s s' : State) : Prop :=
  Forall2 (fun e e' => fst e' = fst e /\ stuck (snd e) (snd e')) (fields s) (fields s').

(** The field a channel's spinner and messages hang on. *)
Definition fieldOf (ch : Channel) : FieldKey :=
  match ch with
  | nameSearch => officialEstablishmentName
  | codeLookup => redemptionCode
  end.

(** What clearAndResetForm does to the binding of [k], in mode [mode],
    [named] saying that the mode is not the code lookup and the
    suggestion widget exists. *)
Definition resetOne (mode : string) (named : bool) (k : FieldKey) (f : Field) : Field :=
  let f1 := clearMessages (resetField f) in
  let f2 := if memKey k (Inv.preventListOf mode) then preventEdit f1 else f1 in
  if FieldKey_beq k officialEstablishmentName && named
  then match input f2 with
       | Some _ => withInput (Some "") f2
       | None => f2
       end
  else f2.

End Structure.

(** ** Outcomes of the selection resolver *)

Module Resolver.
Import Ftg Structure.

Definition threw {A : Type} (r : Result A) : bool :=
  match r with Exn _ => true | Val _ _ => false end.

(** An attribute the option matcher cannot lower-case: truthy and not a
    string, for a dropdown whose select the page has. *)
Definition unusable (record : AirtableRecord) (s : State) (m : string * FieldKey) : bool :=
  jsTruthy (attr record (fst m)) && negb (isString (attr record (fst m)))
  && hasSelect (snd m) s.

(** The option [setSelectValue] leaves selected for [v] in
    [fields[k].select]. *)
Definition pick (v : JsVal) (k : FieldKey) (s : State) : option nat :=
  match v with
  | JStr t =>
      match getField k (fields s) with
      | Some f =>
          match select f with
          | Some sel =>
              option_map (selectedBy sel)
                (findIndex (optionMatches (Js.toLowerCase t)) (options sel))
          | None => None
          end
      | None => None
      end
  | JOther _ _ => None
  end.

(** The record asks nothing of dropdown [m] that the page cannot show:
    the attribute is not set, or the page has no such select, or some
    option matches. *)
Definition showable (record : AirtableRecord) (s : State) (m : string * FieldKey) : bool :=
  negb (jsTruthy (attr record (fst m))) || negb (hasSelect (snd m) s)
  || match pick (attr record (fst m)) (snd m) s with Some _ => true | None => false end.

(** Dropdown [m] of [s] shows what the record asks for, picked among the
    options it had in [s0], with no mismatch message. *)
Definition filled (record : AirtableRecord) (s0 s : State) (m : string * FieldKey) : Prop :=
  forall f sel,
    getField (snd m) (fields s0) = Some f -> select f = Some sel ->
    jsTruthy (attr record (fst m)) = true ->
    exists f', getField (snd m) (fields s) = Some f' /\
               select f' = Some {| options := options sel;
                                   selectedIndex := pick (attr record (fst m)) (snd m) s0;
                                   select2 := select2 sel |} /\
               mismatchText f' = None.

(** The invariant of a resolution that meets no mismatch, started in
    [s0]: the dropdowns of [done] are filled, those the record does not
    set are as they were, the other bindings are as in [sb], and no
    effect was recorded. *)
Definition resolving (record : AirtableRecord) (s0 sb : State)
    (done : list (string * FieldKey)) (s : State) : Prop :=
  shape s = shape s0 /\ log s = log s0 /\
  mismatchAlertDispatched s = mismatchAlertDispatched s0 /\
  (forall m, In m done -> filled record s0 s m) /\
  (forall m, In m dropdownMappings -> jsTruthy (attr record (fst m)) = false ->
             getField (snd m) (fields s) = getField (snd m) (fields s0)) /\
  (forall k, ~ In k (map snd dropdownMappings) ->
             getField k (fields s) = getField k (fields sb)).

(** A select run by Select2 in which two options share a value, and the
    sample page with it as the award level. *)
Definition tiers : SelectEl :=
  {| options := [Sample.opt "Silver" "x"; Sample.opt "Gold" "x"; Sample.opt "Gold Tier" "y"];
     selectedIndex := Some 2;
     select2 := true |}.

Definition tiersPage : State :=
  onField awardLevel (withSelect (Some tiers)) Sample.started.

(** A record whose award level is a number. *)
Definition numbered : AirtableRecord :=
  {| rec_id := Some "recNum";
     rec_fields := [("Official Establishment Name", JStr "Aman Tokyo");
                    ("Award Level", JOther true "5")] |}.

(** The selection before any record was chosen, and after invalidation. *)
Definition noSelection : LastSel := {| ls_id := None; ls_name := None |}.

End Resolver.

(** ** Start-up wiring ($(document).ready, initializeSystem) *)

Module Boot.

(** What the page has for initializeSystem to wire: the input of the
    code field, the input of the name field, a <form>; and whether
    [new window.Autocomplete(...)] returns. *)
Record Page := {
  hasCodeInput : bool;
  hasNameInput : bool;
  hasForm : bool;
  constructs : bool
}.

Record Wiring := {
  defined : bool;          (* typeof window.Autocomplete !== 'undefined' *)
  waiting : bool;          (* the autocompleteReady listener is registered *)
  timer : bool;            (* the 1000 ms timer is pending *)
  runs : nat;              (* calls of initializeSystem *)
  codeListeners : nat;     (* input listeners on the code field *)
  submitListeners : nat;   (* submit listeners on the form *)
  widgets : nat;           (* Autocomplete instances built *)
  instance : bool          (* autocompleteInstance is not null *)
}.

Definition initializeSystem (p : Page) (w : Wiring) : Wiring :=
  let build := negb (instance w) && hasNameInput p && defined w && constructs p in
  {| defined := defined w; waiting := waiting w; timer := timer w;
     runs := S (runs w);
     codeListeners := if hasCodeInput p then S (codeListeners w) else codeListeners w;
     submitListeners := if hasForm p then S (submitListeners w) else submitListeners w;
     widgets := if build then S (widgets w) else widgets w;
     instance := instance w || build |}.

(** The state the ready handler leaves, [d] saying whether
    window.Autocomplete was defined when it ran. *)
Definition start (p : Page) (d : bool) : Wiring :=
  let w0 := {| defined := d; waiting := false; timer := false; runs := 0;
               codeListeners := 0; submitListeners := 0; widgets := 0;
               instance := false |} in
  if d then initializeSystem p w0
  else {| defined := false; waiting := true; timer := true; runs := 0;
          codeListeners := 0; submitListeners := 0; widgets := 0;
          instance := false |}.

Inductive Ev :=
| Defined             (* the library's script defines window.Autocomplete *)
| AutocompleteReady   (* an autocompleteReady event reaches window *)
| Timeout.            (* 1000 ms have passed since the ready handler ran *)

Definition step (p : Page) (w : Wiring) (e : Ev) : Wiring :=
  match e with
  | Defined =>
      {| defined := true; waiting := waiting w; timer := timer w; runs := runs w;
         codeListeners := codeListeners w; submitListeners := submitListeners w;
         widgets := widgets w; instance := instance w |}
  | AutocompleteReady => if waiting w then initializeSystem p w else w
  | Timeout =>
      if timer w then
        let w' := {| defined := defined w; waiting := waiting w; timer := false;
                     runs := runs w; codeListeners := codeListeners w;
                     submitListeners := submitListeners w; widgets := widgets w;
                     instance := instance w |} in
        if defined w then initializeSystem p w' else w'
      else w
  end.

Definition run (p : Page) (evs : list Ev) (w : Wiring) : Wiring :=
  fold_left (step p) evs w.

Definition isReady (e : Ev) : bool :=
  match e with AutocompleteReady => true | _ => false end.

(** Whether the timer, when it fires, finds the library: [d] says
    whether it is defined so far. *)
Fixpoint timerFinds (d : bool) (evs : list Ev) : bool :=
  match evs with
  | [] => false
  | Timeout :: _ => d
  | Defined :: rest => timerFinds true rest
  | AutocompleteReady :: rest => timerFinds d rest
  end.

End Boot.

(** ** The submit listener (handleFormSubmission) *)

Module Submission.
Import Ftg.

(** [select.value]: the value of the selected option, the empty string
    when no option is selected. *)
Definition selectValue (sel : SelectEl) : string :=
  match selectedIndex sel with
  | Some i =>
      match nth_error (options sel) i with
      | Some o => optValue o
      | None => ""
      end
  | None => ""
  end.

(** [submittedData], in the order of [Object.keys(fields)]: the input's
    value where the binding has an input, else the select's; a binding
    with neither is left out (and warned about). *)
Definition submittedData (fs : Fields) : list (FieldKey * string) :=
  flat_map (fun e =>
              match input (snd e) with
              | Some v => [(fst e, v)]
              | None =>
                  match select (snd e) with
                  | Some sel => [(fst e, selectValue sel)]
                  | None => []
                  end
              end) fs.

(** [!value || value.trim() === ''] *)
Definition isBlank (value : string) : bool :=
  negb (Js.truthy value) || String.eqb (Js.trim value) "".

(** The entries the listener warns about. *)
Definition warned (data : list (FieldKey * string)) : list (FieldKey * string) :=
  filter (fun e => isBlank (snd e)) data.

(** What a binding submits once it has been reset. *)
Definition blankOf (f : Field) : string :=
  match input f with
  | Some _ => ""
  | None =>
      match select f with
      | Some sel => match options sel with o :: _ => optValue o | [] => "" end
      | None => ""
      end
  end.

End Submission.

(** * Properties *)

Unset Implicit Arguments.

(** ** The lookup cache is a strict LRU store *)

Module CacheFacts.
Import Inv.
Import Cache.
Section WithValue.

Variable V : Type.

Lemma eqb_neq_sym (a b : string) : String.eqb a b = false -> String.eqb b a = false.
Proof. rewrite String.eqb_sym. auto. Qed.

Lemma removeKey_notin k r : ~ In k r -> removeKey k r = r.
Proof.
  induction r as [|x r IH]; simpl; intros H; [reflexivity|].
  destruct (String.eqb_spec x k) as [->|Hne]; simpl.
  - exfalso. apply H. now left.
  - f_equal. apply IH. intros Hin. apply H. now right.
Qed.

Lemma In_removeKey k x r : In x (removeKey k r) <-> In x r /\ x <> k.
Proof.
  unfold removeKey. rewrite filter_In, negb_true_iff.
  split; intros [H1 H2]; split; auto.
  - now apply String.eqb_neq.
  - now apply String.eqb_neq.
Qed.

Lemma NoDup_removeKey k r : NoDup r -> NoDup (removeKey k r).
Proof. apply NoDup_filter. Qed.

Lemma NoDup_touch k r : NoDup r -> NoDup (touch k r).
Proof.
  intros H. constructor.
  - rewrite In_removeKey. intros [_ Hk]. now apply Hk.
  - now apply NoDup_removeKey.
Qed.

Lemma keys_delete k (c : Cache.t V) : keys (delete k c) = removeKey k (keys c).
Proof.
  induction c as [|[k' v] c IH]; simpl; [reflexivity|].
  destruct (String.eqb k' k); simpl; now rewrite ?IH.
Qed.

Lemma has_In k (c : Cache.t V) : has k c = true <-> In k (keys c).
Proof.
  induction c as [|[k' v] c IH]; simpl.
  - split; [discriminate | tauto].
  - rewrite orb_true_iff, IH, String.eqb_eq. tauto.
Qed.

Lemma has_false_notin k (c : Cache.t V) : has k c = false -> ~ In k (keys c).
Proof. intros H Hin. apply has_In in Hin. congruence. Qed.

Lemma set_absent k v (c : Cache.t V) : ~ In k (keys c) -> set k v c = c ++ [(k, v)].
Proof.
  induction c as [|[k' v'] c IH]; simpl; intros H; [reflexivity|].
  destruct (String.eqb_spec k' k) as [->|Hne].
  - exfalso. apply H. now left.
  - f_equal. apply IH. intros Hin. apply H. now right.
Qed.

Lemma notin_keys_delete k (c : Cache.t V) : ~ In k (keys (delete k c)).
Proof. rewrite keys_delete, In_removeKey. tauto. Qed.

Lemma get_In k (c : Cache.t V) : In k (keys c) -> exists v, get k c = Some v.
Proof.
  induction c as [|[k' v'] c IH]; simpl; [tauto|].
  intros [->|Hin].
  - rewrite String.eqb_refl. eauto.
  - destruct (String.eqb k' k); eauto.
Qed.

Lemma get_notin k (c : Cache.t V) : ~ In k (keys c) -> get k c = None.
Proof.
  induction c as [|[k' v'] c IH]; simpl; [reflexivity|].
  intros H. destruct (String.eqb_spec k' k) as [->|Hne]; [tauto|].
  apply IH. tauto.
Qed.

Lemma get_app_last k v (c : Cache.t V) :
  ~ In k (keys c) -> get k (c ++ [(k, v)]) = Some v.
Proof.
  induction c as [|[k' v'] c IH]; simpl; intros H.
  - now rewrite String.eqb_refl.
  - destruct (String.eqb_spec k' k) as [->|Hne]; [tauto|]. apply IH. tauto.
Qed.

Lemma get_app_other k k' v (c : Cache.t V) :
  k' <> k -> get k (c ++ [(k', v)]) = get k c.
Proof.
  intros Hne. induction c as [|[k2 v2] c IH]; simpl.
  - apply String.eqb_neq in Hne. now rewrite Hne.
  - now rewrite IH.
Qed.

Lemma get_delete_other k k' (c : Cache.t V) :
  k' <> k -> get k (delete k' c) = get k c.
Proof.
  intros Hne. induction c as [|[k2 v2] c IH]; simpl; [reflexivity|].
  destruct (String.eqb_spec k2 k') as [->|H2]; simpl.
  - apply String.eqb_neq in Hne. now rewrite Hne.
  - now rewrite IH.
Qed.

(** What a hit does: the value comes back and the key moves to the
    most-recent end, nothing else changes place. *)
Lemma cacheGet_hit k (c : Cache.t V) :
  In k (keys c) ->
  exists v, get k c = Some v /\
            cacheGet k c = (Some v, delete k c ++ [(k, v)]).
Proof.
  intros Hin. destruct (get_In _ _ Hin) as [v Hv]. exists v. split; [exact Hv|].
  unfold cacheGet. apply has_In in Hin. rewrite Hin, Hv. simpl.
  now rewrite set_absent by apply notin_keys_delete.
Qed.

Lemma cacheGet_miss k (c : Cache.t V) :
  ~ In k (keys c) -> cacheGet k c = (None, c).
Proof.
  intros Hn. unfold cacheGet.
  destruct (has k c) eqn:Hh; [apply has_In in Hh; tauto | reflexivity].
Qed.

(** The entries before eviction: the key goes last. *)
Lemma cacheSetN_before N k v (c : Cache.t V) :
  cacheSetN N k v c =
  let c2 := delete k c ++ [(k, v)] in
  if (N <? List.length c2)%nat then
    match c2 with [] => c2 | (first, _) :: _ => delete first c2 end
  else c2.
Proof.
  unfold cacheSetN.
  assert (E : set k v (if has k c then delete k c else c) = delete k c ++ [(k, v)]).
  { destruct (has k c) eqn:Hh.
    - apply set_absent, notin_keys_delete.
    - apply has_false_notin in Hh.
      assert (D : delete k c = c).
      { clear -Hh. induction c as [|[k' v'] c IH]; simpl in *; [reflexivity|].
        destruct (String.eqb_spec k' k) as [->|Hne]; [tauto|]. simpl.
        f_equal. apply IH. tauto. }
      rewrite D. now apply set_absent. }
  rewrite E. reflexivity.
Qed.

(** *** The recency list and the first [N] of it *)

Lemma In_firstn (x : string) n r : In x (firstn n r) -> In x r.
Proof.
  intros H. rewrite <- (firstn_skipn n r). apply in_or_app. now left.
Qed.

Lemma In_firstn_S (x : string) n r : In x (firstn n r) -> In x (firstn (S n) r).
Proof.
  revert r. induction n as [|n IH]; intros r H; [destruct H|].
  destruct r as [|y r]; [destruct H|].
  cbn [firstn] in H. destruct H as [->|H]; [now left|].
  right. now apply IH.
Qed.

Lemma firstn_removeKey_notin k m r :
  ~ In k (firstn m r) -> NoDup r -> firstn m (removeKey k r) = firstn m r.
Proof.
  revert r. induction m as [|m IH]; intros r Hn Hd; [reflexivity|].
  destruct r as [|x r]; [reflexivity|]. simpl in *.
  destruct (String.eqb_spec x k) as [->|Hne]; [tauto|]. simpl.
  f_equal. apply IH; [tauto | now inversion Hd].
Qed.

Lemma firstn_removeKey_in k n r :
  In k (firstn (S n) r) -> NoDup r ->
  firstn n (removeKey k r) = removeKey k (firstn (S n) r).
Proof.
  revert n. induction r as [|x r IH]; intros n Hin Hd; [destruct Hin|].
  inversion Hd as [|? ? Hx Hd']; subst.
  cbn [firstn] in Hin |- *. simpl removeKey.
  destruct (String.eqb_spec x k) as [->|Hne]; simpl.
  - rewrite removeKey_notin by exact Hx.
    symmetry. apply removeKey_notin. intros H. apply Hx.
    eapply In_firstn. exact H.
  - destruct Hin as [->|Hin]; [tauto|].
    destruct n as [|n]; [destruct Hin|].
    cbn [firstn]. f_equal. now apply IH.
Qed.

Lemma removeKey_rev k r : removeKey k (rev r) = rev (removeKey k r).
Proof. apply filter_rev. Qed.

Lemma removeKey_app k r1 r2 : removeKey k (r1 ++ r2) = removeKey k r1 ++ removeKey k r2.
Proof. apply filter_app. Qed.

Lemma firstn_pred_removelast (n : nat) (r : list string) :
  n <= List.length r -> firstn (n - 1) r = removelast (firstn n r).
Proof.
  intros Hn. destruct n as [|n]; [reflexivity|].
  replace (S n - 1) with n by lia.
  symmetry. apply removelast_firstn. lia.
Qed.

Lemma lru_inv_NoDup_keys N c r : @lru_inv V N c r -> NoDup (keys c).
Proof.
  intros [Hd Hk]. rewrite Hk. apply NoDup_rev.
  rewrite <- (firstn_skipn N r) in Hd. now apply NoDup_app_remove_r in Hd.
Qed.

Lemma lru_inv_In N c r k : @lru_inv V N c r -> (In k (keys c) <-> In k (firstn N r)).
Proof. intros [_ Hk]. rewrite Hk. symmetry. apply in_rev. Qed.

Lemma lru_inv_hit N c r k v :
  @lru_inv V N c r -> In k (keys c) ->
  @lru_inv V N (delete k c ++ [(k, v)]) (touch k r).
Proof.
  intros Hinv Hin. pose proof Hinv as [Hd Hk].
  split; [now apply NoDup_touch|].
  apply (lru_inv_In N c r k Hinv) in Hin.
  unfold keys in *. rewrite map_app. fold (keys (delete k c)).
  rewrite keys_delete. unfold keys. rewrite Hk. simpl.
  destruct N as [|N]; [destruct Hin|].
  unfold touch. cbn [firstn]. rewrite firstn_removeKey_in by assumption.
  simpl. now rewrite removeKey_rev.
Qed.

Lemma delete_head_unique k v (c : Cache.t V) :
  ~ In k (keys c) -> delete k ((k, v) :: c) = c.
Proof.
  intros Hn. simpl. rewrite String.eqb_refl. simpl.
  induction c as [|[k' v'] c IH]; simpl in *; [reflexivity|].
  destruct (String.eqb_spec k' k) as [->|Hne]; [tauto|]. simpl.
  f_equal. apply IH. tauto.
Qed.

Lemma lru_inv_miss N c r k v :
  @lru_inv V N c r -> ~ In k (keys c) ->
  @lru_inv V N (cacheSetN N k v c) (touch k r).
Proof.
  intros Hinv Hn. pose proof Hinv as [Hd Hk].
  pose proof (lru_inv_NoDup_keys N c r Hinv) as Hdk.
  split; [now apply NoDup_touch|].
  assert (Hnf : ~ In k (firstn N r)) by (now rewrite <- (lru_inv_In N c r k Hinv)).
  assert (D : delete k c = c).
  { clear -Hn. induction c as [|[k' v'] c IH]; simpl in *; [reflexivity|].
    destruct (String.eqb_spec k' k) as [->|Hne]; [tauto|]. simpl.
    f_equal. apply IH. tauto. }
  rewrite cacheSetN_before, D. cbv zeta.
  assert (Hlen : List.length c = Nat.min N (List.length r)).
  { rewrite <- (length_map fst c). fold (keys c). rewrite Hk, length_rev.
    apply length_firstn. }
  rewrite length_app. simpl List.length.
  destruct (Nat.ltb_spec N (List.length c + 1)) as [Hfull|Hroom].
  - (* overflow: the oldest entry leaves *)
    assert (HN : N <= List.length r) by lia.
    destruct c as [|[k0 v0] c'].
    + simpl. rewrite String.eqb_refl. simpl.
      simpl in Hlen. assert (N = 0) by lia. subst N. reflexivity.
    + cbn [app]. rewrite delete_head_unique.
      * unfold keys in *. rewrite map_app. simpl map.
        unfold touch.
        destruct N as [|N]; [simpl in Hlen; lia|].
        cbn [firstn]. rewrite firstn_removeKey_notin.
        -- simpl. f_equal.
           replace N with (S N - 1) at 1 by lia.
           rewrite firstn_pred_removelast by exact HN.
           assert (E : firstn (S N) r = rev (map fst c') ++ [k0]).
           { apply (f_equal (@rev string)) in Hk.
             rewrite rev_involutive in Hk. rewrite <- Hk. reflexivity. }
           rewrite E, removelast_last. now rewrite rev_involutive.
        -- intros Hin. apply Hnf. now apply In_firstn_S.
        -- exact Hd.
      * unfold keys in *. rewrite map_app. simpl.
        inversion Hdk as [|? ? Hk0 _]; subst.
        intros Hin. apply in_app_or in Hin. destruct Hin as [Hin|[<-|[]]].
        -- now apply Hk0.
        -- apply Hn. now left.
  - (* room left: nothing leaves *)
    assert (Hr : List.length r < N) by lia.
    unfold keys in *. rewrite map_app. simpl map.
    rewrite firstn_all2 in Hk by lia.
    rewrite firstn_all2 in Hnf by lia.
    rewrite Hk. unfold touch. rewrite removeKey_notin by exact Hnf.
    rewrite firstn_all2 by (simpl; lia). reflexivity.
Qed.

Lemma lru_inv_put N c r k v :
  @lru_inv V N c r -> @lru_inv V N (cacheSetN N k v c) (touch k r).
Proof.
  intros Hinv. destruct (in_dec string_dec k (keys c)) as [Hin|Hn].
  - rewrite cacheSetN_before. cbv zeta.
    pose proof (@lru_inv_hit N c r k v Hinv Hin) as Hnew.
    assert (Hlen : List.length (delete k c ++ [(k, v)]) <= N).
    { destruct Hnew as [_ Hk']. rewrite <- (length_map fst). fold (keys (delete k c ++ [(k, v)])).
      rewrite Hk', length_rev, length_firstn. lia. }
    destruct (Nat.ltb_spec N (List.length (delete k c ++ [(k, v)]))); [lia|].
    exact Hnew.
  - now apply lru_inv_miss.
Qed.

Lemma lru_inv_runOp N op c r :
  @lru_inv V N c r ->
  @lru_inv V N (fst (runOp N op (c, r))) (snd (runOp N op (c, r))).
Proof.
  intros Hinv. destruct op as [k|k v]; simpl.
  - destruct (in_dec string_dec k (keys c)) as [Hin|Hn].
    + destruct (cacheGet_hit _ _ Hin) as [v [_ ->]]. simpl.
      now apply lru_inv_hit.
    + rewrite cacheGet_miss by exact Hn. exact Hinv.
  - now apply lru_inv_put.
Qed.

Lemma run_snoc N ops (op : Op V) :
  run N (ops ++ [op]) = runOp N op (run N ops).
Proof. unfold run. now rewrite fold_left_app. Qed.

Lemma lru_inv_run N (ops : list (Op V)) :
  @lru_inv V N (fst (run N ops)) (snd (run N ops)).
Proof.
  induction ops as [|op ops IH] using rev_ind.
  - split; [constructor | now destruct N].
  - rewrite run_snoc. destruct (run N ops) as [c r]. now apply lru_inv_runOp.
Qed.

(** *** Values: a retained key maps to the value last put under it *)

Lemma lastPut_snoc k ops (op : Op V) :
  lastPut k (ops ++ [op]) =
  match op with
  | OpPut k' v => if String.eqb k' k then Some v else lastPut k ops
  | OpGet _ => lastPut k ops
  end.
Proof.
  induction ops as [|o ops IH]; simpl.
  - destruct op as [k'|k' v]; [reflexivity|]. now destruct (String.eqb k' k).
  - rewrite IH. destruct op as [k'|k' v]; [reflexivity|].
    now destruct (String.eqb k' k).
Qed.

Lemma get_delete_same k (c : Cache.t V) : get k (delete k c) = None.
Proof. apply get_notin, notin_keys_delete. Qed.

Lemma get_delete_Some k x v (c : Cache.t V) :
  get k (delete x c) = Some v -> get k c = Some v.
Proof.
  destruct (string_dec x k) as [->|Hne].
  - now rewrite get_delete_same.
  - now rewrite get_delete_other.
Qed.

Lemma get_refreshed k k' v (c : Cache.t V) :
  get k' (delete k c ++ [(k, v)]) = if String.eqb k k' then Some v else get k' c.
Proof.
  destruct (String.eqb_spec k k') as [->|Hne].
  - apply get_app_last, notin_keys_delete.
  - rewrite get_app_other by exact Hne. now apply get_delete_other.
Qed.

Lemma get_cacheSetN_Some N k k' v v' (c : Cache.t V) :
  get k' (cacheSetN N k v c) = Some v' ->
  if String.eqb k k' then v' = v else get k' c = Some v'.
Proof.
  rewrite cacheSetN_before. cbv zeta. intros H.
  assert (H' : get k' (delete k c ++ [(k, v)]) = Some v').
  { destruct (N <? _)%nat; [|exact H].
    destruct (delete k c ++ [(k, v)]) as [|[first v0] rest] eqn:E; [exact H|].
    now apply get_delete_Some in H. }
  rewrite get_refreshed in H'.
  destruct (String.eqb k k'); congruence.
Qed.

Lemma values_inv_run N (ops : list (Op V)) : @values_inv V ops (fst (run N ops)).
Proof.
  induction ops as [|op ops IH] using rev_ind; [intros k v; discriminate|].
  rewrite run_snoc. destruct (run N ops) as [c r]. simpl in IH.
  intros k' v' Hg. rewrite lastPut_snoc.
  destruct op as [k|k v]; simpl in Hg.
  - destruct (in_dec string_dec k (keys c)) as [Hin|Hn].
    + destruct (cacheGet_hit _ _ Hin) as [v [Hv E]]. rewrite E in Hg. simpl in Hg.
      rewrite get_refreshed in Hg. apply IH.
      destruct (String.eqb_spec k k') as [->|Hne]; congruence.
    + rewrite cacheGet_miss in Hg by exact Hn. now apply IH.
  - apply get_cacheSetN_Some in Hg.
    destruct (String.eqb k k'); [congruence | now apply IH].
Qed.

(** C2. For every capacity [N] and every run of get and put operations
    from the empty cache that touches more than [N] distinct keys, the
    cache holds exactly the [N] most recently touched keys, oldest first
    (a get that hits and every put count as a touch, the capacity is
    never exceeded), and every key it holds maps to the value last put
    under it. *)
Theorem cache_retains_most_recent (N : nat) (ops : list (Op V)) :
  N < List.length (snd (run N ops)) ->
  keys (fst (run N ops)) = rev (firstn N (snd (run N ops))) /\
  List.length (fst (run N ops)) = N /\
  NoDup (keys (fst (run N ops))) /\
  (forall k, In k (keys (fst (run N ops))) ->
             get k (fst (run N ops)) = lastPut k ops /\
             fst (cacheGet k (fst (run N ops))) = lastPut k ops).
Proof.
  intros Hmore. pose proof (lru_inv_run N ops) as Hinv.
  pose proof (values_inv_run N ops) as Hval.
  destruct (run N ops) as [c r]. simpl in *.
  pose proof Hinv as [Hd Hk].
  split; [exact Hk|]. split; [|split].
  - rewrite <- (length_map fst c). fold (keys c).
    rewrite Hk, length_rev, length_firstn. lia.
  - exact (lru_inv_NoDup_keys N c r Hinv).
  - intros k Hin. destruct (cacheGet_hit _ _ Hin) as [v [Hv E]].
    rewrite E, Hv. simpl. split; symmetry; now apply Hval.
Qed.

End WithValue.

(** The run put a, put b, get a, put c at capacity 2 keeps a and c. *)
Lemma cache_retains_most_recent_witness :
  keys (fst (run 2 [OpPut "a" 1; OpPut "b" 2; OpGet "a"; OpPut "c" 3])) = ["a"; "c"].
Proof.
  destruct (@cache_retains_most_recent nat 2
              [OpPut "a" 1; OpPut "b" 2; OpGet "a"; OpPut "c" 3]) as [H _].
  - vm_compute. lia.
  - rewrite H. reflexivity.
Defined.

End CacheFacts.

(** ** JavaScript string functions against their meaning *)

Module JsFacts.
Import Inv.
Import Js Spec.

Lemma startsWith_spec (s t : string) :
  startsWith s t = true <-> exists post : string, s = (t ++ post)%string.
Proof.
  revert s. induction t as [|b t IH]; intros s; destruct s as [|a s]; simpl.
  - split; [intros _; now exists EmptyString | reflexivity].
  - split; [intros _; now exists (String a s) | reflexivity].
  - split; [discriminate | intros [post H]; discriminate].
  - rewrite andb_true_iff, IH, Ascii.eqb_eq. split.
    + intros [-> [post ->]]. now exists post.
    + intros [post H]. injection H as -> ->. split; [reflexivity | now exists post].
Qed.

Lemma includes_spec (s t : string) : includes s t = true <-> contains s t.
Proof.
  unfold contains. induction s as [|a s IH].
  - cbn [includes]. rewrite orb_false_r, startsWith_spec. split.
    + intros [post H]. now exists EmptyString, post.
    + intros [pre [post H]]. destruct pre; [now exists post | discriminate].
  - cbn [includes]. rewrite orb_true_iff, IH, startsWith_spec. split.
    + intros [[post H] | [pre [post H]]].
      * now exists EmptyString, post.
      * exists (String a pre), post. simpl. now rewrite H.
    + intros [pre [post H]]. destruct pre as [|c pre].
      * left. now exists post.
      * right. simpl in H. injection H as _ H. now exists pre, post.
Qed.

Lemma truthy_empty (s : string) : truthy s = false <-> s = EmptyString.
Proof. destruct s; simpl; split; congruence. Qed.

Lemma trimEnd_blank (s : string) : truthy (trimEnd s) = negb (whitespaceOnly s).
Proof.
  unfold whitespaceOnly. induction s as [|c s IH]; [reflexivity|].
  simpl. destruct (trimEnd s) as [|c' r'].
  - simpl in IH. apply (f_equal negb) in IH. rewrite negb_involutive in IH.
    simpl in IH. rewrite <- IH, andb_true_r. now destruct (isWhiteSpace c).
  - simpl in IH. apply (f_equal negb) in IH. rewrite negb_involutive in IH.
    simpl in IH. rewrite <- IH, andb_false_r. reflexivity.
Qed.

Lemma trimStart_blank (s : string) : whitespaceOnly (trimStart s) = whitespaceOnly s.
Proof.
  unfold whitespaceOnly. induction s as [|c s IH]; [reflexivity|].
  simpl. destruct (isWhiteSpace c) eqn:E; simpl; [exact IH | now rewrite E].
Qed.

(** [n.trim()] is falsy exactly for a name of white space only. *)
Lemma trim_truthy (s : string) : truthy (trim s) = negb (whitespaceOnly s).
Proof. unfold trim. now rewrite trimEnd_blank, trimStart_blank. Qed.

Lemma trimEnd_cons (c : ascii) (r : string) :
  trimEnd (String c r) =
  match trimEnd r with
  | EmptyString => if isWhiteSpace c then EmptyString else String c EmptyString
  | String c' r' => String c (String c' r')
  end.
Proof. reflexivity. Qed.

Lemma trimEnd_idem (s : string) : trimEnd (trimEnd s) = trimEnd s.
Proof.
  induction s as [|c s IH]; [reflexivity|].
  rewrite trimEnd_cons. destruct (trimEnd s) as [|c' r'] eqn:E.
  - destruct (isWhiteSpace c) eqn:W; [reflexivity|].
    rewrite trimEnd_cons. cbn [trimEnd]. now rewrite W.
  - rewrite trimEnd_cons, IH. reflexivity.
Qed.

Lemma trimStart_head (s : string) :
  match trimStart s with
  | EmptyString => True
  | String c _ => isWhiteSpace c = false
  end.
Proof.
  induction s as [|c s IH]; [exact I|].
  cbn [trimStart]. destruct (isWhiteSpace c) eqn:W; [exact IH | exact W].
Qed.

Lemma trimStart_trimEnd (s : string) :
  match s with
  | EmptyString => True
  | String c _ => isWhiteSpace c = false
  end ->
  trimStart (trimEnd s) = trimEnd s.
Proof.
  destruct s as [|c s]; [reflexivity|]. intros W.
  rewrite trimEnd_cons. destruct (trimEnd s) as [|c' r']; rewrite ?W; cbn [trimStart]; now rewrite W.
Qed.

(** Trimming a trimmed string changes nothing. *)
Lemma trim_idem (s : string) : trim (trim s) = trim s.
Proof.
  unfold trim. rewrite (trimStart_trimEnd (trimStart s) (trimStart_head s)).
  apply trimEnd_idem.
Qed.

Example trim_example : trim "  Gold  Tier " = "Gold  Tier".
Proof. reflexivity. Qed.

Example toLowerCase_example : toLowerCase "Gold Tier" = "gold tier".
Proof. reflexivity. Qed.

Example includes_example :
  includes "gold tier" "gold" = true /\ includes "gold" "gold tier" = false.
Proof. split; reflexivity. Qed.

End JsFacts.

(** ** The autocomplete adapter *)

Module AdapterFacts.
Import Inv.
Import Ftg Spec.

Lemma keepRecord_hasName (r : AirtableRecord) : keepRecord r = hasName r.
Proof.
  unfold keepRecord, hasName. destruct (attr r NAME_FIELD) as [n|b shown]; simpl.
  - rewrite JsFacts.trim_truthy. destruct n; reflexivity.
  - now rewrite andb_false_r.
Qed.

(** C9. For every query result, the adapter keeps, in the order of the
    source, exactly the records whose Official Establishment Name is a
    string that is not white space only (a missing name, a name that is
    not a string and a blank name are dropped), and each suggestion
    carries its record as data and that record's name as label and as
    value.  A result without a records member gives no suggestion. *)
Theorem adapter_keeps_named_records (data : QueryResult) :
  map item_data (searchAirtableForAutocomplete data) = filter hasName (recordsOf data) /\
  Forall (fun it => attr (item_data it) NAME_FIELD = JStr (item_label it) /\
                    item_value it = item_label it /\
                    whitespaceOnly (item_label it) = false)
         (searchAirtableForAutocomplete data).
Proof.
  unfold searchAirtableForAutocomplete, recordsOf.
  destruct (records data) as [rs|]; [|split; constructor].
  rewrite (filter_ext _ _ keepRecord_hasName).
  induction rs as [|r rs [IH1 IH2]]; [split; constructor|].
  simpl. destruct (hasName r) eqn:E; [|now split].
  simpl. split; [now rewrite IH1|].
  constructor; [|exact IH2].
  unfold hasName in E. unfold toItem. simpl.
  destruct (attr r NAME_FIELD) as [n|b shown]; [|discriminate].
  simpl. repeat split. now apply negb_true_iff.
Qed.

End AdapterFacts.

(** ** Bindings *)

Module FieldsFacts.
Import Inv.
Import Ftg.

Lemma FieldKey_beq_spec (a b : FieldKey) : reflect (a = b) (FieldKey_beq a b).
Proof. destruct a, b; simpl; constructor; congruence. Qed.

Lemma FieldKey_beq_refl (a : FieldKey) : FieldKey_beq a a = true.
Proof. now destruct a. Qed.

Lemma memKey_In (k : FieldKey) (l : list FieldKey) : memKey k l = true <-> In k l.
Proof.
  unfold memKey. rewrite existsb_exists. split.
  - intros [x [Hin Hx]]. destruct (FieldKey_beq_spec k x); [now subst | discriminate].
  - intros Hin. exists k. split; [exact Hin | apply FieldKey_beq_refl].
Qed.

Lemma getField_updField (k k' : FieldKey) (g : Field -> Field) (fs : Fields) :
  getField k (updField k' g fs) =
  if FieldKey_beq k k' then option_map g (getField k fs) else getField k fs.
Proof.
  induction fs as [|[k0 f0] fs IH]; simpl.
  - now destruct (FieldKey_beq k k').
  - destruct (FieldKey_beq_spec k0 k') as [->|Hne]; simpl.
    + destruct (FieldKey_beq_spec k' k) as [->|Hne'].
      * now rewrite FieldKey_beq_refl.
      * exact IH.
    + destruct (FieldKey_beq_spec k0 k) as [->|Hne'].
      * destruct (FieldKey_beq_spec k k'); [congruence | reflexivity].
      * exact IH.
Qed.

Lemma getField_updField_same (k : FieldKey) (g : Field -> Field) (fs : Fields) :
  getField k (updField k g fs) = option_map g (getField k fs).
Proof. now rewrite getField_updField, FieldKey_beq_refl. Qed.

Lemma getField_In (k : FieldKey) (f : Field) (fs : Fields) :
  getField k fs = Some f -> In (k, f) fs.
Proof.
  induction fs as [|[k0 f0] fs IH]; simpl; [discriminate|].
  destruct (FieldKey_beq_spec k0 k) as [->|Hne].
  - intros [= ->]. now left.
  - intros H. right. now apply IH.
Qed.

Lemma map_fst_updField (k : FieldKey) (g : Field -> Field) (fs : Fields) :
  map fst (updField k g fs) = map fst fs.
Proof.
  unfold updField. rewrite map_map. apply map_ext.
  intros [k0 f0]. simpl. now destruct (FieldKey_beq k0 k).
Qed.

Lemma setFields_same (s : State) : setFields (fields s) s = s.
Proof. now destruct s. Qed.

Lemma setFields_setFields (a b : Fields) (s : State) :
  setFields a (setFields b s) = setFields a s.
Proof. reflexivity. Qed.

Lemma fold_onField (g : Field -> Field) (names : list FieldKey) (s : State) :
  (forall f, g (g f) = g f) ->
  fold_left (fun s n => onField n g s) names s = setFields (onEach names g (fields s)) s.
Proof.
  intros Hidem. revert s. induction names as [|n names IH]; intros s; simpl.
  - unfold onEach. simpl. rewrite <- (setFields_same s) at 1. f_equal.
    rewrite <- (map_id (fields s)) at 1. apply map_ext. now intros [k f].
  - rewrite IH. unfold onField. cbn [fields setFields]. rewrite setFields_setFields.
    f_equal. unfold onEach, updField. rewrite map_map. apply map_ext.
    intros [k f]. unfold memKey. cbn [fst snd existsb].
    destruct (FieldKey_beq k n); cbn [fst snd orb]; [|reflexivity].
    destruct (existsb (FieldKey_beq k) names); now rewrite ?Hidem.
Qed.

Lemma In_onEach (names : list FieldKey) (g : Field -> Field) (fs : Fields) k f' :
  In (k, f') (onEach names g fs) ->
  exists f, In (k, f) fs /\ f' = if memKey k names then g f else f.
Proof.
  unfold onEach. rewrite in_map_iff. intros [[k0 f0] [E Hin]].
  cbn [fst snd] in E. injection E as -> <-. now exists f0.
Qed.

Lemma In_updField (k0 : FieldKey) (g : Field -> Field) (fs : Fields) k f' :
  In (k, f') (updField k0 g fs) ->
  exists f, In (k, f) fs /\ f' = if FieldKey_beq k k0 then g f else f.
Proof.
  unfold updField. rewrite in_map_iff. intros [[k1 f1] [E Hin]].
  cbn [fst snd] in E. destruct (FieldKey_beq k1 k0) eqn:Hk.
  - injection E as -> <-. exists f1. now rewrite Hk.
  - injection E as -> <-. exists f1. now rewrite Hk.
Qed.

Lemma allFields_updField (P : FieldKey -> Field -> Prop) k0 g fs :
  (forall k f, P k f -> P k (g f)) ->
  allFields P fs -> allFields P (updField k0 g fs).
Proof.
  intros Hg H k f' Hin. destruct (In_updField _ _ _ _ _ Hin) as [f [Hf ->]].
  destruct (FieldKey_beq k k0); auto.
Qed.

Lemma allFields_onEach (P : FieldKey -> Field -> Prop) names g fs :
  (forall k f, P k f -> P k (g f)) ->
  allFields P fs -> allFields P (onEach names g fs).
Proof.
  intros Hg H k f' Hin. destruct (In_onEach _ _ _ _ _ Hin) as [f [Hf ->]].
  destruct (memKey k names); auto.
Qed.

End FieldsFacts.

(** ** The option matcher *)

Module MatcherFacts.
Import Inv.
Import Ftg Spec FieldsFacts.

Lemma optionMatches_spec (target : string) (o : OptionEl) :
  optionMatches (Js.toLowerCase target) o = true <-> optionMatchesTarget target o.
Proof.
  unfold optionMatches, optionMatchesTarget, ciMatches.
  rewrite existsb_exists. split; intros [v [Hin Hv]]; exists v; (split; [exact Hin|]).
  - apply orb_true_iff in Hv. destruct Hv as [Hv|Hv].
    + left. now apply String.eqb_eq.
    + right. now apply JsFacts.includes_spec.
  - apply orb_true_iff. destruct Hv as [Hv|Hv].
    + left. now apply String.eqb_eq.
    + right. now apply JsFacts.includes_spec.
Qed.

Lemma findIndexFrom_Some (p : OptionEl -> bool) (l : list OptionEl) (i j : nat) :
  findIndexFrom p l i = Some j ->
  exists n o, j = i + n /\ nth_error l n = Some o /\ p o = true /\
              forall m o', m < n -> nth_error l m = Some o' -> p o' = false.
Proof.
  revert i. induction l as [|x l IH]; intros i; simpl; [discriminate|].
  destruct (p x) eqn:Px.
  - intros [= <-]. exists 0, x. repeat split; auto with arith. intros m o' Hm. lia.
  - intros H. destruct (IH _ H) as [n [o [-> [Hn [Ho Hfirst]]]]].
    exists (S n), o. repeat split; [lia | exact Hn | exact Ho |].
    intros [|m] o' Hm; simpl.
    + intros [= <-]. exact Px.
    + apply Hfirst. lia.
Qed.

Lemma findIndexFrom_None (p : OptionEl -> bool) (l : list OptionEl) (i : nat) :
  findIndexFrom p l i = None <-> forall o, In o l -> p o = false.
Proof.
  revert i. induction l as [|x l IH]; intros i; simpl.
  - split; [intros _ o [] | reflexivity].
  - destruct (p x) eqn:Px.
    + split; [discriminate|]. intros H. rewrite (H x) in Px by now left. discriminate.
    + rewrite IH. split.
      * intros H o [<-|Hin]; auto.
      * intros H o Hin. apply H. now right.
Qed.

Lemma selectedBy_spec (sel : SelectEl) (i : nat) (o : OptionEl) :
  nth_error (options sel) i = Some o ->
  (select2 sel = false -> selectedBy sel i = i) /\
  (select2 sel = true ->
   exists j o', selectedBy sel i = j /\ j <= i /\
                nth_error (options sel) j = Some o' /\ optValue o' = optValue o /\
                forall j' o'', j' < j -> nth_error (options sel) j' = Some o'' ->
                               optValue o'' <> optValue o).
Proof.
  intros Hn. unfold selectedBy. rewrite Hn. split; intros H2; rewrite H2; [reflexivity|].
  unfold findIndex.
  destruct (findIndexFrom (fun o0 => String.eqb (optValue o0) (optValue o)) (options sel) 0)
    as [j|] eqn:Hfind.
  - destruct (findIndexFrom_Some _ _ _ _ Hfind) as [n [o' [Hj [Hn' [Ho' Hfirst]]]]].
    simpl in Hj. subst j. exists n, o'. split; [reflexivity|].
    apply String.eqb_eq in Ho'. split; [|split; [exact Hn'|split; [exact Ho'|]]].
    + destruct (Nat.le_gt_cases n i) as [Hle|Hgt]; [exact Hle|].
      pose proof (Hfirst i o Hgt Hn) as Hf. rewrite String.eqb_refl in Hf. discriminate.
    + intros j' o'' Hlt Hn'' Heq. pose proof (Hfirst j' o'' Hlt Hn'') as Hf.
      apply String.eqb_neq in Hf. contradiction.
  - rewrite findIndexFrom_None in Hfind.
    pose proof (Hfind o (nth_error_In _ _ Hn)) as Hf.
    rewrite String.eqb_refl in Hf. discriminate.
Qed.

(** C3 (amended). For every bound select and every non-empty target
    string, setSelectValue returns, and it returns true exactly when some
    option's visible text, value or data-name attribute equals the target
    or contains it, case-insensitively.  The option then selected is the
    first such option in document order; on a select run by Select2 it
    is the first option that has the value of that first match, which is
    the first match itself unless an earlier option shares its value.
    (An empty target returns false before any option is looked at.) *)
Theorem setSelectValue_first_match
    (s : State) (k : FieldKey) (f : Field) (sel : SelectEl) (target : string) :
  getField k (fields s) = Some f ->
  select f = Some sel ->
  target <> EmptyString ->
  exists b s',
    setSelectValue k (JStr target) s = Val b s' /\
    (b = true <-> exists o, In o (options sel) /\ optionMatchesTarget target o) /\
    (b = true ->
     exists i o f' sel',
       nth_error (options sel) i = Some o /\
       optionMatchesTarget target o /\
       (forall j o', j < i -> nth_error (options sel) j = Some o' ->
                     ~ optionMatchesTarget target o') /\
       getField k (fields s') = Some f' /\
       select f' = Some sel' /\
       options sel' = options sel /\
       (select2 sel = false -> selectedIndex sel' = Some i) /\
       (select2 sel = true ->
        exists j o', selectedIndex sel' = Some j /\ j <= i /\
                     nth_error (options sel) j = Some o' /\ optValue o' = optValue o /\
                     forall j' o'', j' < j -> nth_error (options sel) j' = Some o'' ->
                                    optValue o'' <> optValue o)).
Proof.
  intros Hf Hsel Hne. unfold setSelectValue. rewrite Hf, Hsel.
  assert (Ht : jsTruthy (JStr target) = true) by (destruct target; [congruence | reflexivity]).
  rewrite Ht. cbn [negb].
  unfold findIndex.
  destruct (findIndexFrom (optionMatches (Js.toLowerCase target)) (options sel) 0)
    as [i|] eqn:Hfind.
  - destruct (findIndexFrom_Some _ _ _ _ Hfind) as [n [o [Hi [Hn [Ho Hfirst]]]]].
    simpl in Hi. subst i.
    destruct (selectedBy_spec sel n o Hn) as [Hplain Hs2].
    eexists true, _. split; [reflexivity|]. split.
    + split; [intros _ | reflexivity].
      exists o. split; [eapply nth_error_In; eauto | now apply optionMatches_spec].
    + intros _. exists n, o.
      eexists _, _. split; [exact Hn|]. split; [now apply optionMatches_spec|].
      split.
      * intros j o' Hj Hnth Hm. apply optionMatches_spec in Hm.
        rewrite (Hfirst j o' Hj Hnth) in Hm. discriminate.
      * unfold onField. cbn [fields setFields].
        rewrite getField_updField_same, Hf. cbn [option_map].
        split; [reflexivity|]. cbn [select withMismatch withSelect].
        split; [reflexivity|]. cbn [options selectedIndex]. split; [reflexivity|].
        split.
        -- intros H2. now rewrite (Hplain H2).
        -- intros H2. destruct (Hs2 H2) as [j [o' (Ej & Hle & Hnj & Hv & Hmin)]].
           exists j, o'. rewrite Ej. repeat split; assumption.
  - eexists false, _. split; [reflexivity|]. split.
    + split; [discriminate|]. intros [o [Hin Hm]].
      apply optionMatches_spec in Hm.
      rewrite findIndexFrom_None in Hfind. rewrite (Hfind o Hin) in Hm. discriminate.
    + discriminate.
Qed.

(** Target "gold" on the sample award-level select: the first option
    that matches is " Gold Tier ", at position 2, before "Gold". *)
Lemma setSelectValue_first_match_witness :
  exists s',
    setSelectValue awardLevel (JStr "gold") Sample.started = Val true s' /\
    option_map selectedIndex
      (match getField awardLevel (fields s') with
       | Some f' => select f'
       | None => None
       end) = Some (Some 2).
Proof.
  destruct (@setSelectValue_first_match Sample.started awardLevel
              (withLock PlainLock (Sample.selectField "Award Level" Sample.awardOptions))
              {| options := Sample.awardOptions; selectedIndex := Some 0; select2 := false |}
              "gold")
    as [b [s' [E _]]].
  - vm_compute. reflexivity.
  - reflexivity.
  - discriminate.
  - exists (stateOf (setSelectValue awardLevel (JStr "gold") Sample.started)).
    split; vm_compute; reflexivity.
Defined.

(** C3 as stated fails at the empty target: every option contains the
    empty string, yet setSelectValue returns false and selects nothing.
    It also fails on a select run by Select2 in which an earlier option
    shares the value of the first match: of "Silver" (value x), "Gold"
    (value x) and "Gold Tier" (value y), "gold" matches "Gold" first,
    and the option left selected is "Silver". *)
Lemma setSelectValue_empty_target_counterexample :
  (setSelectValue awardLevel (JStr "") Sample.started = Val false Sample.started /\
   (exists o, In o Sample.awardOptions /\ optionMatchesTarget "" o)) /\
  (findIndex (optionMatches (Js.toLowerCase "gold")) (options Resolver.tiers) = Some 1 /\
   exists s',
     setSelectValue awardLevel (JStr "gold") Resolver.tiersPage = Val true s' /\
     option_map selectedIndex
       (match getField awardLevel (fields s') with
        | Some f' => select f'
        | None => None
        end) = Some (Some 0)).
Proof.
  split; [split|split].
  - vm_compute. reflexivity.
  - exists (Sample.opt "Silver" "silver"). split; [simpl; tauto|].
    exists "Silver". split; [simpl; tauto|].
    right. exists EmptyString, "silver". reflexivity.
  - vm_compute. reflexivity.
  - exists (stateOf (setSelectValue awardLevel (JStr "gold") Resolver.tiersPage)).
    split; vm_compute; reflexivity.
Qed.

End MatcherFacts.

(** ** Modes *)

Module ModeFacts.
Import Inv.
Import Ftg Spec FieldsFacts.

Lemma preventEdit_idem (f : Field) : preventEdit (preventEdit f) = preventEdit f.
Proof.
  unfold preventEdit. destruct f as [l i [sel|] h lk m e n sp hp]; simpl.
  - destruct (select2 sel) eqn:E; simpl; now rewrite E.
  - destruct i; reflexivity.
Qed.

Lemma hideElements_char (names : list FieldKey) (s : State) :
  hideElements names s = setFields (onEach names (withHidden true) (fields s)) s.
Proof. apply fold_onField. reflexivity. Qed.

Lemma preventInteraction_char (names : list FieldKey) (s : State) :
  preventInteraction names s = setFields (onEach names preventEdit (fields s)) s.
Proof. apply fold_onField. exact preventEdit_idem. Qed.

Lemma setMode_char (mode : string) (s : State) :
  setMode mode s =
  setFields (map (fun e => (fst e, entered (configOf mode) (fst e) (snd e))) (fields s))
    (setCurrentMode mode s).
Proof.
  unfold setMode. rewrite hideElements_char, preventInteraction_char.
  cbn [fields setFields setCurrentMode]. rewrite setFields_setFields.
  f_equal. unfold onEach. rewrite map_map. apply map_ext. now intros [k f].
Qed.

Lemma entered_idem cfg k f : entered cfg k (entered cfg k f) = entered cfg k f.
Proof.
  unfold entered. destruct (memKey k (hide cfg)), (memKey k (prevent cfg));
    try reflexivity.
  - rewrite <- (preventEdit_idem (withHidden true f)) at 2.
    f_equal. unfold preventEdit. simpl.
    destruct (select f) as [sel|]; [now destruct (select2 sel)|now destruct (input f)].
  - apply preventEdit_idem.
Qed.

Lemma hidden_preventEdit f : hidden (preventEdit f) = hidden f.
Proof.
  unfold preventEdit. destruct (select f) as [sel|];
    [now destruct (select2 sel) | now destruct (input f)].
Qed.

Lemma hidden_entered cfg k f :
  hidden (entered cfg k f) = hidden f || memKey k (hide cfg).
Proof.
  unfold entered. destruct (memKey k (prevent cfg)); rewrite ?hidden_preventEdit;
    destruct (memKey k (hide cfg)); simpl; now rewrite ?orb_true_r, ?orb_false_r.
Qed.

Lemma lock_entered cfg k f :
  lock (entered cfg k f) = if memKey k (prevent cfg) then lock (preventEdit f) else lock f.
Proof.
  unfold entered. destruct (memKey k (prevent cfg)), (memKey k (hide cfg)); try reflexivity.
  unfold preventEdit. simpl.
  destruct (select f) as [sel|]; [now destruct (select2 sel)|now destruct (input f)].
Qed.

Lemma preventEdit_locks f : hasControl f -> isLocked (preventEdit f).
Proof.
  unfold hasControl, isLocked, preventEdit. intros H.
  destruct (select f) as [sel|]; [destruct (select2 sel); simpl; congruence|].
  destruct (input f); [simpl; congruence | tauto].
Qed.

Lemma preventEdit_keeps_lock f : isLocked f -> isLocked (preventEdit f).
Proof.
  unfold isLocked, preventEdit. intros H.
  destruct (select f) as [sel|]; [destruct (select2 sel); simpl; congruence|].
  destruct (input f); [simpl; congruence | exact H].
Qed.

(** C6 (amended). Entering a mode hides every bound field of the mode's
    hidden set and locks every bound field of its locked set that has a
    control, and does nothing else: a field outside the hidden set keeps
    the visibility it had and a field outside the locked set keeps the
    lock state it had, so a field hidden or locked by an earlier mode
    stays hidden or locked.  Entering the same mode twice is the same as
    entering it once. *)
Theorem setMode_hides_and_locks (mode : string) (s : State) :
  Forall2 (fun e e' =>
             fst e' = fst e /\
             hidden (snd e') = hidden (snd e) || memKey (fst e) (hide (configOf mode)) /\
             (memKey (fst e) (prevent (configOf mode)) = true ->
              hasControl (snd e) -> isLocked (snd e')) /\
             (memKey (fst e) (prevent (configOf mode)) = false ->
              lock (snd e') = lock (snd e)) /\
             (isLocked (snd e) -> isLocked (snd e')))
          (fields s) (fields (setMode mode s)) /\
  currentMode (setMode mode s) = mode /\
  setMode mode (setMode mode s) = setMode mode s.
Proof.
  rewrite !setMode_char. cbn [fields setFields currentMode setCurrentMode].
  split; [|split; [reflexivity|]].
  - induction (fields s) as [|[k f] fs IH]; simpl; constructor; [|exact IH].
    cbn [fst snd]. split; [reflexivity|]. split; [apply hidden_entered|].
    unfold isLocked. rewrite !lock_entered.
    destruct (memKey k (prevent (configOf mode))); repeat split; try discriminate; auto.
    + intros _ Hc. now apply preventEdit_locks.
    + apply preventEdit_keeps_lock.
  - unfold setFields, setCurrentMode. cbn. f_equal.
    rewrite map_map. apply map_ext. intros [k f]. cbn [fst snd].
    now rewrite entered_idem.
Qed.

(** On the sample page, started in code-lookup mode: entering
    name-lookup leaves the official name locked although that mode does
    not lock it, and coming back to code-lookup leaves the code field
    hidden although that mode hides nothing. *)
Lemma setMode_does_not_show_or_unlock_counterexample :
  let s1 := setMode NAME_LOOKUP Sample.started in
  let s2 := setMode CODE_LOOKUP s1 in
  memKey officialEstablishmentName (prevent (configOf NAME_LOOKUP)) = false /\
  option_map lock (getField officialEstablishmentName (fields s1)) = Some PlainLock /\
  memKey redemptionCode (hide (configOf CODE_LOOKUP)) = false /\
  option_map hidden (getField redemptionCode (fields s2)) = Some true.
Proof. vm_compute. repeat split. Qed.

End ModeFacts.

(** ** Resetting *)

Module ResetFacts.
Import Inv.
Import Ftg Spec FieldsFacts ModeFacts.

Lemma onlyFields_refl s : onlyFields s s.
Proof. exists (fields s). split; [symmetry; apply setFields_same | reflexivity]. Qed.

Lemma onlyFields_trans s1 s2 s3 : onlyFields s1 s2 -> onlyFields s2 s3 -> onlyFields s1 s3.
Proof.
  intros [fs [-> H1]] [fs' [-> H2]]. exists fs'. split; [reflexivity|].
  cbn [fields setFields] in H2. congruence.
Qed.

Lemma onlyFields_onField k g s : onlyFields s (onField k g s).
Proof. eexists. split; [reflexivity | apply map_fst_updField]. Qed.

Lemma onlyFields_writeInput k v s : onlyFields s (writeInput k v s).
Proof. apply onlyFields_onField. Qed.

Lemma map_fst_onEach names g fs : map fst (onEach names g fs) = map fst fs.
Proof. unfold onEach. rewrite map_map. now apply map_ext. Qed.

Lemma onlyFields_preventInteraction names s : onlyFields s (preventInteraction names s).
Proof.
  rewrite preventInteraction_char. eexists. split; [reflexivity | apply map_fst_onEach].
Qed.

Lemma onlyFields_hideElements names s : onlyFields s (hideElements names s).
Proof.
  rewrite hideElements_char. eexists. split; [reflexivity | apply map_fst_onEach].
Qed.

Lemma onlyFields_resetFields ex s : onlyFields s (resetFields ex s).
Proof.
  eexists. split; [reflexivity|]. rewrite map_map. apply map_ext.
  intros [k f]. cbn [fst snd]. now destruct (memKey k ex).
Qed.

Lemma onlyFields_clearAndResetForm s : onlyFields s (clearAndResetForm s).
Proof.
  unfold clearAndResetForm.
  set (s1 := resetFields [] s).
  set (s2 := setFields _ s1).
  assert (H1 : onlyFields s s1) by apply onlyFields_resetFields.
  assert (H2 : onlyFields s1 s2).
  { eexists. split; [reflexivity|]. rewrite map_map. now apply map_ext. }
  pose proof (onlyFields_trans _ _ _ H1 H2) as H12.
  match goal with |- context [preventInteraction ?l s2] =>
    pose proof (onlyFields_preventInteraction l s2) as H3;
    set (s3 := preventInteraction l s2) in * end.
  pose proof (onlyFields_trans _ _ _ H12 H3) as H123.
  destruct (negb _ && _); [|exact H123].
  eapply onlyFields_trans; [exact H123 | apply onlyFields_writeInput].
Qed.

(** What [onlyFields] leaves alone. *)
Lemma onlyFields_frame s s' :
  onlyFields s s' ->
  currentMode s' = currentMode s /\
  autocompleteInstance s' = autocompleteInstance s /\
  lastSelectedEstablishment s' = lastSelectedEstablishment s /\
  nameSearchController s' = nameSearchController s /\
  codeLookupController s' = codeLookupController s /\
  mismatchAlertDispatched s' = mismatchAlertDispatched s /\
  formEl s' = formEl s /\
  airtableCache s' = airtableCache s /\
  form s' = form s /\
  aborted s' = aborted s /\
  nextController s' = nextController s /\
  pending s' = pending s /\
  online s' = online s /\
  log s' = log s.
Proof. intros [fs [-> _]]. repeat split. Qed.

(** *** The state of the bound fields after a reset *)

Lemma resetField_isReset f : isReset (resetField f).
Proof.
  unfold isReset, resetField.
  destruct f as [l [i|] [sel|] h lk m e n sp hp]; simpl; split;
    intros x; try discriminate; intros [= <-]; reflexivity.
Qed.

Lemma isReset_same_controls f f' :
  input f' = input f -> select f' = select f -> isReset f -> isReset f'.
Proof. unfold isReset. intros -> ->. auto. Qed.

Lemma preventEdit_controls f :
  input (preventEdit f) = input f /\ select (preventEdit f) = select f.
Proof.
  unfold preventEdit. destruct (select f) as [sel|] eqn:Es.
  - destruct (select2 sel); simpl; now rewrite Es.
  - destruct (input f) eqn:Ei; simpl; now rewrite ?Es, ?Ei.
Qed.

Lemma preventEdit_messages f : noMessages f -> noMessages (preventEdit f).
Proof.
  unfold noMessages, preventEdit.
  destruct (select f) as [sel|]; [now destruct (select2 sel)|now destruct (input f)].
Qed.

Lemma prevent_configOf_preventListOf mode k :
  memKey k (prevent (configOf mode)) = true -> memKey k (preventListOf mode) = true.
Proof.
  unfold configOf, MODES, preventListOf.
  destruct (String.eqb mode CODE_LOOKUP); [auto|].
  destruct (String.eqb mode NAME_LOOKUP); [auto | discriminate].
Qed.

Lemma clearAndResetForm_cleared s :
  allFields (cleared (currentMode s)) (fields (clearAndResetForm s)).
Proof.
  unfold clearAndResetForm.
  set (s1 := resetFields [] s).
  set (s2 := setFields _ s1).
  assert (Hm : currentMode s2 = currentMode s) by reflexivity.
  rewrite Hm. fold (preventListOf (currentMode s)).
  assert (A2 : allFields (fun _ f => isReset f /\ noMessages f) (fields s2)).
  { intros k f Hin. subst s2 s1. cbn [fields setFields resetFields] in Hin.
    rewrite map_map in Hin. apply in_map_iff in Hin.
    destruct Hin as [[k0 f0] [E _]]. cbn [fst snd memKey existsb] in E.
    injection E as _ <-. split.
    - eapply isReset_same_controls; [| |apply (resetField_isReset f0)]; reflexivity.
    - repeat split. }
  set (s3 := preventInteraction _ s2).
  assert (A3 : allFields (cleared (currentMode s)) (fields s3)).
  { subst s3. rewrite preventInteraction_char. cbn [fields setFields].
    intros k f' Hin. destruct (In_onEach _ _ _ _ _ Hin) as [f [Hf ->]].
    destruct (A2 k f Hf) as [Hr Hn]. unfold cleared.
    destruct (memKey k (preventListOf (currentMode s))) eqn:Hk.
    - destruct (preventEdit_controls f) as [Ei Es]. split; [|split].
      + now apply (isReset_same_controls f (preventEdit f) Ei Es).
      + now apply preventEdit_messages.
      + intros _ Hc. apply preventEdit_locks. unfold hasControl in *. congruence.
    - split; [exact Hr|]. split; [exact Hn|]. intros Hp.
      apply prevent_configOf_preventListOf in Hp. congruence. }
  assert (A4 : allFields (cleared (currentMode s))
                 (fields (writeInput officialEstablishmentName "" s3))).
  { unfold writeInput, onField. cbn [fields setFields].
    apply allFields_updField; [|exact A3].
    intros k f [Hr [Hn Hl]]. destruct (input f) eqn:Ei; [|exact (conj Hr (conj Hn Hl))].
    split; [|split].
    - destruct Hr as [_ Hs]. split; [intros v [= <-]; reflexivity | exact Hs].
    - exact Hn.
    - intros Hp _. apply Hl; [exact Hp|]. left. congruence. }
  destruct (negb _ && _); assumption.
Qed.

(** C10. The public reset (FTGForm.reset, that is clearAndResetForm)
    leaves lastSelectedEstablishment as it was, identity and name, and
    leaves the submit buttons as they were; it empties every bound
    control, removes the inline error, no-results, spinner and mismatch
    messages and locks the fields the current mode locks. *)
Theorem reset_keeps_last_selection (s : State) :
  step EvReset s = clearAndResetForm s /\
  lastSelectedEstablishment (step EvReset s) = lastSelectedEstablishment s /\
  form (step EvReset s) = form s /\
  formEl (step EvReset s) = formEl s /\
  currentMode (step EvReset s) = currentMode s /\
  map fst (fields (step EvReset s)) = map fst (fields s) /\
  allFields (cleared (currentMode s)) (fields (step EvReset s)).
Proof.
  cbn [step]. split; [reflexivity|].
  pose proof (onlyFields_clearAndResetForm s) as H.
  destruct (onlyFields_frame _ _ H) as (Hm & _ & Hl & _ & _ & _ & Hfe & _ & Hf & _).
  repeat (split; [assumption|]).
  split; [|apply clearAndResetForm_cleared].
  destruct H as [fs [-> Hk]]. exact Hk.
Qed.

End ResetFacts.

(** ** The controls stay *)

Module ControlsFacts.
Import Inv.
Import Ftg Spec Structure FieldsFacts.














End ControlsFacts.

(** ** Invalidation of the last selection *)

Module InvalidationFacts.
Import Inv.
Import Ftg Spec Structure FieldsFacts ModeFacts ResetFacts ControlsFacts.

Lemma getField_resetFields k ex s :
  getField k (fields (resetFields ex s)) =
  if memKey k ex then getField k (fields s)
  else option_map resetField (getField k (fields s)).
Proof.
  cbn [fields setFields resetFields].
  induction (fields s) as [|[k0 f0] fs IH]; cbn [map getField fst snd].
  - now destruct (memKey k ex).
  - destruct (FieldKey_beq_spec k0 k) as [->|Hne].
    + destruct (memKey k ex); cbn [getField fst snd]; now rewrite FieldKey_beq_refl.
    + destruct (memKey k0 ex); cbn [getField fst snd];
        (destruct (FieldKey_beq_spec k0 k); [congruence | exact IH]).
Qed.

Lemma In_resetFields k f' ex s :
  In (k, f') (fields (resetFields ex s)) ->
  exists f, In (k, f) (fields s) /\ f' = if memKey k ex then f else resetField f.
Proof.
  cbn [fields setFields resetFields]. rewrite in_map_iff.
  intros [[k0 f0] [E Hin]]. cbn [fst snd] in E.
  destruct (memKey k0 ex) eqn:Hk; injection E as -> <-; exists f0; now rewrite Hk.
Qed.

Lemma submitDisabledAll_update s :
  ls_id (lastSelectedEstablishment s) = None ->
  formEl s = true -> submitDisabledAll (updateFormSubmitState s).
Proof.
  intros Hid Hfe f. unfold updateFormSubmitState. rewrite Hfe, Hid.
  cbn [form setForm idTruthy]. destruct (form s) as [f0|]; [|discriminate].
  cbn [option_map]. intros [= <-]. cbn [submitDisabled].
  apply Forall_forall. intros d Hd. apply in_map_iff in Hd. now destruct Hd as [_ [<- _]].
Qed.

Lemma updateFormSubmitState_fields s :
  fields (updateFormSubmitState s) = fields s /\
  lastSelectedEstablishment (updateFormSubmitState s) = lastSelectedEstablishment s /\
  formEl (updateFormSubmitState s) = formEl s.
Proof.
  unfold updateFormSubmitState. destruct (formEl s) eqn:E; repeat split; exact E.
Qed.

(** What resetDependentFields does, whatever the state. *)
Lemma resetDependentFields_invalidates ex s :
  invalidated ex s (resetDependentFields ex s).
Proof.
  unfold invalidated, resetDependentFields.
  set (s1 := resetFields ex s).
  set (s2 := if negb _ then _ else s1).
  destruct (updateFormSubmitState_fields
              (setLastSelected {| ls_id := None; ls_name := None |} s2)) as (Hf & Hl & He).
  rewrite Hf, Hl. cbn [fields lastSelectedEstablishment setLastSelected].
  split; [reflexivity|].
  assert (R1 : forall k f, In (k, f) (fields s1) -> ~ In k ex -> isReset f).
  { intros k f Hin Hk. destruct (In_resetFields _ _ _ _ Hin) as [f0 [_ ->]].
    destruct (memKey k ex) eqn:E; [apply memKey_In in E; tauto|].
    apply resetField_isReset. }
  split; [|split].
  - subst s2. destruct (negb (memKey customEstablishmentName ex)); [|exact R1].
    intros k f' Hin Hk. unfold writeInput, onField in Hin. cbn [fields setFields] in Hin.
    destruct (In_updField _ _ _ _ _ Hin) as [f [Hf0 ->]].
    pose proof (R1 k f Hf0 Hk) as Hr.
    destruct (FieldKey_beq k customEstablishmentName); [|exact Hr].
    destruct (input f) eqn:Ei; [|exact Hr].
    destruct Hr as [_ Hs]. split; [intros v [= <-]; reflexivity | exact Hs].
  - intros k Hk. apply memKey_In in Hk.
    assert (E1 : getField k (fields s1) = getField k (fields s)).
    { subst s1. now rewrite getField_resetFields, Hk. }
    subst s2. destruct (negb (memKey customEstablishmentName ex)) eqn:Hc; [|exact E1].
    unfold writeInput, onField. cbn [fields setFields]. rewrite getField_updField.
    destruct (FieldKey_beq_spec k customEstablishmentName) as [->|_]; [|exact E1].
    rewrite Hk in Hc. discriminate.
  - intros Hfe. apply submitDisabledAll_update; [reflexivity|].
    cbn [formEl setLastSelected]. subst s2.
    destruct (negb _); [|exact Hfe].
    now destruct (onlyFields_frame _ _ (onlyFields_writeInput customEstablishmentName "" s1))
      as (_ & _ & _ & _ & _ & _ & -> & _).
Qed.





End InvalidationFacts.

(** ** What the continuations leave alone *)

Module FrameFacts.
Import Inv.
Import Ftg Spec FieldsFacts ModeFacts ResetFacts InvalidationFacts.

Lemma local_refl s : local s s.
Proof. repeat split. Qed.

Lemma local_trans s1 s2 s3 : local s1 s2 -> local s2 s3 -> local s1 s3.
Proof.
  unfold local. intros H1 H2.
  decompose [and] H1. decompose [and] H2. repeat split; congruence.
Qed.

Lemma onlyFields_local s s' : onlyFields s s' -> local s s'.
Proof. intros [fs [-> Hk]]. unfold local. repeat split. exact Hk. Qed.

Lemma local_onField k g s : local s (onField k g s).
Proof. apply onlyFields_local, onlyFields_onField. Qed.

Lemma fetches_app l1 l2 : fetches (l1 ++ l2) = fetches l1 ++ fetches l2.
Proof. apply filter_app. Qed.

Lemma alerts_app l1 l2 : alerts (l1 ++ l2) = alerts l1 ++ alerts l2.
Proof. apply filter_app. Qed.

Lemma local_emit e s : isFetch e = false -> local s (emit e s).
Proof.
  intros He. unfold local, emit. cbn. rewrite fetches_app. simpl. rewrite He.
  rewrite app_nil_r. repeat split.
Qed.

Lemma local_setLastSelected v s : local s (setLastSelected v s).
Proof. repeat split. Qed.

Lemma local_setFlag v s : local s (setMismatchAlertDispatched v s).
Proof. repeat split. Qed.

Lemma local_updateFormSubmitState s : local s (updateFormSubmitState s).
Proof. unfold updateFormSubmitState. destruct (formEl s); repeat split. Qed.

Lemma local_resetDependentFields ex s : local s (resetDependentFields ex s).
Proof.
  unfold resetDependentFields.
  eapply local_trans; [|apply local_updateFormSubmitState].
  eapply local_trans; [|apply local_setLastSelected].
  destruct (negb _).
  - eapply local_trans; [apply onlyFields_local, onlyFields_resetFields|].
    apply local_onField.
  - apply onlyFields_local, onlyFields_resetFields.
Qed.

Lemma local_clearAndResetForm s : local s (clearAndResetForm s).
Proof. apply onlyFields_local, onlyFields_clearAndResetForm. Qed.

(** *** The selection and the submit buttons *)

Lemma neutral_refl s : neutral s s.
Proof. repeat split. Qed.

Lemma neutral_trans s1 s2 s3 : neutral s1 s2 -> neutral s2 s3 -> neutral s1 s3.
Proof. unfold neutral. intros (A & B & C) (D & E & F). repeat split; congruence. Qed.

Lemma onlyFields_neutral s s' : onlyFields s s' -> neutral s s'.
Proof. intros [fs [-> _]]. repeat split. Qed.

Lemma neutral_emit e s : neutral s (emit e s).
Proof. repeat split. Qed.

(** *** The notice and its cooldown flag *)

Lemma noticeStep_refl s : noticeStep s s.
Proof. left. auto. Qed.

Lemma noticeStep_trans s1 s2 s3 : noticeStep s1 s2 -> noticeStep s2 s3 -> noticeStep s1 s3.
Proof.
  intros [[A1 F1]|(F1 & G1 & A1)] [[A2 F2]|(F2 & G2 & A2)].
  - left. split; [congruence | auto].
  - right. repeat split; [|exact G2|congruence].
    destruct (mismatchAlertDispatched s1); [rewrite F1 in F2; congruence | reflexivity].
  - right. repeat split; [exact F1 | auto | congruence].
  - congruence.
Qed.

Lemma onlyFields_noticeStep s s' : onlyFields s s' -> noticeStep s s'.
Proof. intros [fs [-> _]]. left. auto. Qed.

Lemma resolves_refl s : resolves s s.
Proof. split; [apply local_refl | split; [apply neutral_refl | apply noticeStep_refl]]. Qed.

Lemma resolves_trans s1 s2 s3 : resolves s1 s2 -> resolves s2 s3 -> resolves s1 s3.
Proof.
  intros (A & B & C) (D & E & F).
  split; [eapply local_trans; eauto|].
  split; [eapply neutral_trans; eauto | eapply noticeStep_trans; eauto].
Qed.

Lemma onlyFields_resolves s s' : onlyFields s s' -> resolves s s'.
Proof.
  intros H. split; [now apply onlyFields_local|].
  split; [now apply onlyFields_neutral | now apply onlyFields_noticeStep].
Qed.

Lemma resolves_setSelectValue k v s : resolves s (stateOf (setSelectValue k v s)).
Proof.
  unfold setSelectValue, showMismatch.
  destruct (getField k (fields s)) as [f|]; [|apply resolves_refl].
  destruct (select f) as [sel|]; [|apply resolves_refl].
  destruct (negb (jsTruthy v)); [apply resolves_refl|].
  destruct v as [target|b shown]; [|apply resolves_refl].
  destruct (findIndex _ _) as [i|]; cbn [stateOf].
  - apply onlyFields_resolves, onlyFields_onField.
  - eapply resolves_trans; [|apply onlyFields_resolves, onlyFields_clearAndResetForm].
    set (s1 := emit _ (onField k _ s)).
    assert (H1 : resolves s s1).
    { subst s1. eapply resolves_trans; [apply onlyFields_resolves, onlyFields_onField|].
      split; [now apply local_emit|]. split; [apply neutral_emit|].
      left. unfold emit. cbn. rewrite alerts_app. simpl. rewrite app_nil_r. auto. }
    destruct (mismatchAlertDispatched s1) eqn:Hflag; [exact H1|].
    eapply resolves_trans; [exact H1|].
    split; [|split].
    + eapply local_trans; [apply local_setFlag | now apply local_emit].
    + repeat split.
    + right. split; [exact Hflag|]. split; [reflexivity|].
      unfold emit. cbn [log setLog setMismatchAlertDispatched].
      rewrite alerts_app, length_app. cbn. lia.
Qed.

Lemma resolves_bind {A B : Type} (r : Result A) (k : A -> State -> Result B) s :
  resolves s (stateOf r) ->
  (forall a s1, resolves s1 (stateOf (k a s1))) ->
  resolves s (stateOf (bind r k)).
Proof.
  intros H Hk. destruct r as [a s1|s1]; cbn [bind stateOf] in *; [|exact H].
  eapply resolves_trans; [exact H | apply Hk].
Qed.

Lemma resolves_guarded (b : bool) k v s :
  resolves s (stateOf (if b then setSelectValue k v s else Val false s)).
Proof. destruct b; [apply resolves_setSelectValue | apply resolves_refl]. Qed.

Lemma resolves_updateSelectElements n p a d s :
  resolves s (stateOf (updateSelectElements n p a d s)).
Proof.
  unfold updateSelectElements.
  eapply resolves_trans; [apply onlyFields_resolves, onlyFields_writeInput|].
  apply resolves_bind; [apply resolves_guarded|]. intros _ s2.
  apply resolves_bind; [apply resolves_guarded|]. intros _ s3.
  apply resolves_bind; [apply resolves_guarded|]. intros _ s4.
  apply resolves_refl.
Qed.

Lemma resolves_forEachDropdown l record s :
  resolves s (stateOf (forEachDropdown l record s)).
Proof.
  revert s. induction l as [|[fieldName configName] l IH]; intros s; cbn [forEachDropdown].
  - apply resolves_refl.
  - destruct (jsTruthy _ && hasSelect _ _); [|apply IH].
    apply resolves_bind; [apply resolves_setSelectValue|]. intros _ s1. apply IH.
Qed.

Lemma resolves_handleRedemptionCodeSelection record s :
  resolves s (stateOf (handleRedemptionCodeSelection record s)).
Proof.
  unfold handleRedemptionCodeSelection.
  set (s1 := if jsTruthy _ then _ else s).
  assert (H1 : resolves s s1).
  { subst s1. destruct (jsTruthy _); [|apply resolves_refl].
    eapply resolves_trans; apply onlyFields_resolves, onlyFields_writeInput. }
  eapply resolves_trans; [exact H1|].
  apply resolves_bind; [apply resolves_forEachDropdown|].
  intros _ s2. apply resolves_updateSelectElements.
Qed.

End FrameFacts.

(** ** Option mismatch: inline message, one notice, form reset *)

Module MismatchFacts.
Import Inv.
Import Ftg Spec Structure FieldsFacts ModeFacts ResetFacts ControlsFacts FrameFacts MatcherFacts.





End MismatchFacts.

(** ** The query gateway and the code lookup *)

Module GatewayFacts.
Import Inv.
Import Ftg Spec FieldsFacts ModeFacts ResetFacts InvalidationFacts FrameFacts.

Lemma local_markSelection r s : local s (markSelection r s).
Proof. apply local_setLastSelected. Qed.

Lemma local_codeCatch s : local s (codeCatch s).
Proof.
  unfold codeCatch.
  eapply local_trans; [apply local_onField|].
  eapply local_trans; [apply local_onField | apply local_resetDependentFields].
Qed.

Lemma local_codeFinally s : local s (codeFinally s).
Proof. apply local_onField. Qed.

Lemma local_codeThen code data s : local s (codeThen code data s).
Proof.
  unfold codeThen. eapply local_trans; [|apply local_codeFinally].
  destruct (records data) as [[|r rs]|].
  - eapply local_trans; [apply local_onField | apply local_resetDependentFields].
  - eapply local_trans; [apply local_onField|].
    pose proof (resolves_handleRedemptionCodeSelection r
                  (onField redemptionCode
                     (fun f => withError None (withNoResults None f)) s)) as (H & _).
    destruct (handleRedemptionCodeSelection r _) as [[] s2|s2]; cbn [stateOf] in H.
    + eapply local_trans; [exact H|].
      eapply local_trans; [apply local_markSelection | apply local_updateFormSubmitState].
    + eapply local_trans; [exact H | apply local_codeCatch].
  - apply local_codeCatch.
Qed.

Lemma local_nameThen query results s : local s (nameThen query results s).
Proof.
  unfold nameThen.
  eapply local_trans; [apply local_onField|].
  eapply local_trans; [apply local_onField | now apply local_emit].
Qed.

Lemma local_nameCatch s : local s (nameCatch s).
Proof.
  unfold nameCatch.
  eapply local_trans; [apply local_onField|].
  eapply local_trans; [apply local_onField | now apply local_emit].
Qed.

Lemma local_nameAborted s : local s (nameAborted s).
Proof. apply local_onField. Qed.

Lemma length8_truthy (code : string) : String.length code = 8 -> Js.truthy code = true.
Proof. destruct code; [discriminate | reflexivity]. Qed.

Lemma has_get (V : Type) k (c : Cache.t V) :
  Cache.has k c = false -> Cache.cacheGet k c = (None, c).
Proof. intros H. unfold Cache.cacheGet. now rewrite H. Qed.

Lemma has_hit (V : Type) k (c : Cache.t V) :
  Cache.has k c = true -> exists v c', Cache.cacheGet k c = (Some v, c').
Proof.
  intros H. apply CacheFacts.has_In in H.
  destruct (CacheFacts.cacheGet_hit V k c H) as [v [_ E]]. eauto.
Qed.

Lemma afterAbort_frame s :
  log (afterAbort s) = log s /\ pending (afterAbort s) = pending s /\
  nextController (afterAbort s) = nextController s /\
  airtableCache (afterAbort s) = airtableCache s /\
  lastSelectedEstablishment (afterAbort s) = lastSelectedEstablishment s /\
  fields (afterAbort s) =
    updField redemptionCode
      (fun f => withHelp None (withError None (withNoResults None f)))
      (fields (resetFields [redemptionCode] s)).
Proof.
  unfold afterAbort, abortController.
  destruct (codeLookupController _); repeat split.
Qed.

(** C8 (amended). For every debounced input event on the code field:
    when the trimmed code is not exactly 8 characters long no network
    call is issued, the inline length message is shown under the code
    field, the selection is forgotten and every bound field but the code
    field is reset; when it is exactly 8 characters long, one network
    call for that code is issued if the cache has no entry for the
    lower-cased code, and none is issued if it has one. *)
Theorem code_input_network_calls (s : State) (value : string) :
  inputValue redemptionCode s = Some value ->
  let code := Js.trim value in
  let s' := step EvCodeInput s in
  (String.length code <> 8 ->
     log s' = log s /\ pending s' = pending s /\
     (exists f, getField redemptionCode (fields s') = Some f /\
                helpText f = Some lengthHelpText /\ input f = Some value) /\
     lastSelectedEstablishment s' = {| ls_id := None; ls_name := None |} /\
     (forall k f, In (k, f) (fields s') -> ~ In k [redemptionCode; officialEstablishmentName] ->
                  isReset f) /\
     (forall f, getField officialEstablishmentName (fields s') = Some f -> isReset f)) /\
  (String.length code = 8 ->
     (Cache.has (cacheKey "Redemption Code" code) (airtableCache s) = false ->
        log s' = log s ++ [Fetch (nextController s) "Redemption Code" code] /\
        pending s' = pending s ++
                     [{| rq_ctrl := nextController s; rq_channel := codeLookup;
                         rq_field := "Redemption Code"; rq_query := code;
                         rq_typed := code |}]) /\
     (Cache.has (cacheKey "Redemption Code" code) (airtableCache s) = true ->
        fetches (log s') = fetches (log s) /\ pending s' = pending s)).
Proof.
  intros Hval code s'. subst s'. cbn [step]. unfold handleInput. rewrite Hval.
  fold code. fold (afterAbort s).
  destruct (afterAbort_frame s) as (Hlog & Hpend & Hnext & Hcache & Hls & Hfields).
  assert (Hcode0 : exists f0, getField redemptionCode (fields s) = Some f0 /\ input f0 = Some value).
  { unfold inputValue in Hval. destruct (getField redemptionCode (fields s)) as [f0|]; [eauto|discriminate]. }
  destruct Hcode0 as [f0 [Hf0 Hin0]].
  split.
  - intros Hlen. apply Nat.eqb_neq in Hlen. rewrite Hlen. cbn [negb].
    set (pre := onField redemptionCode (withHelp (Some lengthHelpText)) (afterAbort s)).
    pose proof (resetDependentFields_invalidates DEPENDENT_OF_CODE pre) as (L & R & K & _).
    assert (Hpre : log pre = log s /\ pending pre = pending s) by (now subst pre).
    assert (Hq : log (resetDependentFields DEPENDENT_OF_CODE pre) = log pre /\
                 pending (resetDependentFields DEPENDENT_OF_CODE pre) = pending pre).
    { unfold resetDependentFields, updateFormSubmitState. cbn [memKey existsb DEPENDENT_OF_CODE FieldKey_beq orb negb].
      destruct (formEl _); split; reflexivity. }
    destruct Hpre as [-> ->] in Hq. destruct Hq as [Hq1 Hq2].
    split; [exact Hq1|]. split; [exact Hq2|]. split; [|split; [exact L|split]].
    + rewrite (K redemptionCode) by (simpl; tauto).
      subst pre. unfold onField. cbn [fields setFields].
      rewrite getField_updField_same, Hfields, getField_updField_same.
      rewrite getField_resetFields. cbn [memKey existsb FieldKey_beq orb].
      rewrite Hf0. cbn [option_map]. eexists. split; [reflexivity|]. split; [reflexivity|].
      exact Hin0.
    + intros k f Hin Hk. apply (R k f Hin). unfold DEPENDENT_OF_CODE. exact Hk.
    + rewrite (K officialEstablishmentName) by (simpl; tauto).
      subst pre. unfold onField. cbn [fields setFields].
      rewrite getField_updField, Hfields, getField_updField.
      cbn [FieldKey_beq]. rewrite getField_resetFields. cbn [memKey existsb FieldKey_beq orb].
      destruct (getField officialEstablishmentName (fields s)) as [g|]; [|discriminate].
      cbn [option_map]. intros f [= <-]. apply resetField_isReset.
  - intros Hlen. pose proof Hlen as Hlenb. apply Nat.eqb_eq in Hlenb. rewrite Hlenb. cbn [negb].
    set (s4 := onField redemptionCode (withSpinner true) (afterAbort s)).
    set (s5 := setCodeLookupController _ _).
    assert (H5 : log s5 = log s /\ pending s5 = pending s /\
                 airtableCache s5 = airtableCache s /\
                 nextController s4 = nextController s).
    { subst s5 s4. cbn. now rewrite Hlog, Hpend, Hcache, Hnext. }
    destruct H5 as (Hlog5 & Hpend5 & Hcache5 & Hnext4).
    unfold queryAirtableContains.
    assert (Htrim : Js.trim code = code) by apply JsFacts.trim_idem.
    rewrite Htrim, (length8_truthy code Hlen). cbn [negb]. rewrite Hcache5, Hnext4.
    split; intros Hhas.
    + rewrite (has_get _ _ _ Hhas). cbn [log pending setPending emit setLog].
      now rewrite Hlog5, Hpend5.
    + destruct (has_hit _ _ _ Hhas) as [v [c' ->]].
      destruct (local_codeThen code v (setAirtableCache c' s5))
        as (_ & _ & _ & _ & _ & _ & _ & _ & _ & Hp & _ & Hf).
      rewrite Hf, Hp. cbn [log pending setAirtableCache]. now rewrite Hlog5, Hpend5.
Qed.

(** " ABCD1234 " typed on the freshly started page: one call, for the
    trimmed code. *)
Lemma code_input_network_calls_witness :
  let s := step (EvUserEdit redemptionCode " ABCD1234 ") Sample.started in
  log (step EvCodeInput s) = [Fetch 0 "Redemption Code" "ABCD1234"].
Proof.
  intros s.
  pose proof (code_input_network_calls s " ABCD1234 " eq_refl) as H.
  cbv zeta in H. destruct H as [_ H]. destruct (H eq_refl) as [Hmiss _].
  destruct (Hmiss eq_refl) as [Hl _]. rewrite Hl. reflexivity.
Defined.

(** C8 as stated fails on a cache hit: once "ABCD1234" has been looked
    up, the 8-character code "abcd1234" issues no network call; the
    cache key is the lower-cased code. *)
Lemma code_input_cache_hit_counterexample :
  let s1 := run [EvUserEdit redemptionCode "ABCD1234"; EvCodeInput;
                 EvSettle 0 (FetchOk {| records := Some [Sample.amanTokyo] |});
                 EvUserEdit redemptionCode "abcd1234"] Sample.started in
  inputValue redemptionCode s1 = Some "abcd1234" /\
  String.length (Js.trim "abcd1234") = 8 /\
  fetches (log s1) = [Fetch 0 "Redemption Code" "ABCD1234"] /\
  fetches (log (step EvCodeInput s1)) = fetches (log s1).
Proof. vm_compute. repeat split. Qed.

End GatewayFacts.

(** ** Submit gating follows the selection *)

Module SubmitFacts.
Import Inv.
Import Ftg Spec FieldsFacts ModeFacts ResetFacts InvalidationFacts FrameFacts GatewayFacts.

Lemma gated_neutral s s' : neutral s s' -> gated s -> gated s'.
Proof. unfold neutral, gated. intros (-> & -> & ->). auto. Qed.

Lemma gated_update s :
  (form s <> None -> formEl s = true) ->
  (forall i, ls_id (lastSelectedEstablishment s) = Some i -> Js.truthy i = true) ->
  (forall v, ls_name (lastSelectedEstablishment s) = Some v -> jsTruthy v = true) ->
  gated (updateFormSubmitState s).
Proof.
  intros Hlink Hid Hname. unfold gated, updateFormSubmitState.
  destruct (formEl s) eqn:Hfe; cbn [form formEl lastSelectedEstablishment setForm].
  - split; [now rewrite Hfe|]. split; [exact Hid|]. split; [exact Hname|].
    intros f d Hf Hd. destruct (form s) as [f0|]; [|discriminate].
    cbn [option_map] in Hf. injection Hf as <-. cbn [submitDisabled] in Hd.
    apply in_map_iff in Hd. now destruct Hd as [_ [<- _]].
  - split; [now rewrite Hfe|]. split; [exact Hid|]. split; [exact Hname|].
    intros f d Hf. assert (form s <> None) by congruence.
    apply Hlink in H. congruence.
Qed.

Lemma gated_resetDependentFields ex s : gated s -> gated (resetDependentFields ex s).
Proof.
  intros (Hlink & _). unfold resetDependentFields. apply gated_update.
  - cbn [form formEl setLastSelected].
    destruct (negb _); [|exact Hlink].
    now destruct (onlyFields_frame _ _
                    (onlyFields_writeInput customEstablishmentName "" (resetFields ex s)))
      as (_ & _ & _ & _ & _ & _ & -> & _ & -> & _).
  - cbn. discriminate.
  - cbn. discriminate.
Qed.

Lemma gated_markSelection r s :
  (form s <> None -> formEl s = true) ->
  gated (updateFormSubmitState (markSelection r s)).
Proof.
  intros Hlink. apply gated_update; cbn [markSelection form formEl lastSelectedEstablishment
                                          setLastSelected ls_id ls_name].
  - exact Hlink.
  - unfold idOrNull. intros i. destruct (rec_id r) as [j|]; [|discriminate].
    destruct (Js.truthy j) eqn:E; [|discriminate]. now intros [= <-].
  - unfold nameOrNull. intros v. destruct (jsTruthy (attr r NAME_FIELD)) eqn:E.
    + now intros [= <-].
    + destruct (inputValue officialEstablishmentName s) as [x|]; [|discriminate].
      destruct (Js.truthy x) eqn:Ex; [|discriminate]. now intros [= <-].
Qed.

Lemma neutral_link s s' :
  neutral s s' -> (form s <> None -> formEl s = true) -> (form s' <> None -> formEl s' = true).
Proof. intros (_ & -> & ->). auto. Qed.

Lemma neutral_onField k g s : neutral s (onField k g s).
Proof. apply onlyFields_neutral, onlyFields_onField. Qed.

Lemma gated_codeCatch s : gated s -> gated (codeCatch s).
Proof.
  intros H. unfold codeCatch. apply gated_resetDependentFields.
  eapply gated_neutral; [|exact H].
  eapply neutral_trans; apply neutral_onField.
Qed.

Lemma gated_codeThen code data s : gated s -> gated (codeThen code data s).
Proof.
  intros H. unfold codeThen, codeFinally.
  eapply gated_neutral; [apply neutral_onField|].
  destruct (records data) as [[|r rs]|].
  - apply gated_resetDependentFields. eapply gated_neutral; [apply neutral_onField | exact H].
  - set (s1 := onField redemptionCode _ s).
    assert (H1 : gated s1) by (eapply gated_neutral; [apply neutral_onField | exact H]).
    pose proof (resolves_handleRedemptionCodeSelection r s1) as (_ & Hn & _).
    destruct (handleRedemptionCodeSelection r s1) as [[] s2|s2]; cbn [stateOf] in Hn.
    + apply gated_markSelection. eapply neutral_link; [exact Hn | apply H1].
    + apply gated_codeCatch. eapply gated_neutral; [exact Hn | exact H1].
  - now apply gated_codeCatch.
Qed.

Lemma neutral_nameThen query results s : neutral s (nameThen query results s).
Proof.
  unfold nameThen.
  eapply neutral_trans; [apply neutral_onField|].
  eapply neutral_trans; [apply neutral_onField | apply neutral_emit].
Qed.

Lemma neutral_nameCatch s : neutral s (nameCatch s).
Proof.
  unfold nameCatch.
  eapply neutral_trans; [apply neutral_onField|].
  eapply neutral_trans; [apply neutral_onField | apply neutral_emit].
Qed.

Lemma neutral_abortController c s : neutral s (abortController c s).
Proof. destruct c; repeat split. Qed.

Lemma gated_nameSource query s : gated s -> gated (nameSource query s).
Proof.
  intros H. unfold nameSource.
  set (s1 := onField officialEstablishmentName _ s).
  assert (H1 : gated s1) by (eapply gated_neutral; [apply neutral_onField | exact H]).
  destruct (String.length query <? 2)%nat.
  - eapply gated_neutral; [|exact H1].
    eapply neutral_trans; [apply neutral_onField | apply neutral_emit].
  - set (s3 := setNameSearchController _ _).
    assert (H3 : gated s3).
    { eapply gated_neutral; [|exact H1]. subst s3.
      eapply neutral_trans; [apply (neutral_abortController (nameSearchController s1)) |].
      repeat split. }
    unfold queryAirtableContains.
    destruct (negb (Js.truthy (Js.trim query))).
    + eapply gated_neutral; [apply neutral_nameThen | exact H3].
    + destruct (Cache.cacheGet _ _) as [[cached|] c'].
      * eapply gated_neutral; [|exact H3].
        eapply neutral_trans; [|apply neutral_nameThen]. repeat split.
      * eapply gated_neutral; [|exact H3]. repeat split.
Qed.

Lemma gated_onSelectItem item s : gated s -> gated (onSelectItem item s).
Proof.
  intros H. unfold onSelectItem.
  set (s1 := onField officialEstablishmentName _ s).
  assert (H1 : gated s1) by (eapply gated_neutral; [apply neutral_onField | exact H]).
  pose proof (resolves_handleRedemptionCodeSelection (item_data item) s1) as (_ & Hn & _).
  destruct (handleRedemptionCodeSelection (item_data item) s1) as [[] s2|s2];
    cbn [stateOf] in Hn.
  - apply gated_markSelection. eapply neutral_link; [exact Hn | apply H1].
  - eapply gated_neutral; [exact Hn | exact H1].
Qed.

Lemma gated_nameInputListener s : gated s -> gated (nameInputListener s).
Proof.
  intros H. unfold nameInputListener.
  destruct (nameDiverged _ s), (negb _); auto using gated_resetDependentFields.
Qed.

Lemma gated_nameBlurListener s : gated s -> gated (nameBlurListener s).
Proof.
  intros H. unfold nameBlurListener.
  destruct (_ || _); auto using gated_resetDependentFields.
Qed.

Lemma gated_handleInput s : gated s -> gated (handleInput s).
Proof.
  intros H. unfold handleInput.
  destruct (inputValue redemptionCode s) as [value|]; [|exact H].
  fold (afterAbort s).
  assert (H3 : gated (afterAbort s)).
  { eapply gated_neutral; [|exact H]. unfold afterAbort.
    eapply neutral_trans; [|apply neutral_abortController].
    eapply neutral_trans; [apply onlyFields_neutral, onlyFields_resetFields|].
    apply neutral_onField. }
  destruct (negb (String.length (Js.trim value) =? 8)%nat).
  - apply gated_resetDependentFields.
    eapply gated_neutral; [apply neutral_onField | exact H3].
  - set (s5 := setCodeLookupController _ _).
    assert (H5 : gated s5).
    { eapply gated_neutral; [|exact H3]. subst s5. repeat split. }
    unfold queryAirtableContains.
    destruct (negb (Js.truthy (Js.trim (Js.trim value)))).
    + now apply gated_codeThen.
    + destruct (Cache.cacheGet _ _) as [[cached|] c'].
      * apply gated_codeThen. eapply gated_neutral; [|exact H5]. repeat split.
      * eapply gated_neutral; [|exact H5]. repeat split.
Qed.

Lemma gated_settle ctrl o s : gated s -> gated (settle ctrl o s).
Proof.
  intros H. unfold settle.
  destruct (takeRequest ctrl (pending s)) as [[rq rest]|]; [|exact H].
  assert (H1 : gated (setPending rest s)) by (eapply gated_neutral; [|exact H]; repeat split).
  destruct o as [data| |].
  - set (s2 := setAirtableCache _ _).
    assert (H2 : gated s2) by (eapply gated_neutral; [|exact H1]; repeat split).
    destruct (rq_channel rq).
    + eapply gated_neutral; [apply neutral_nameThen | exact H2].
    + now apply gated_codeThen.
  - destruct (rq_channel rq).
    + eapply gated_neutral; [apply neutral_nameCatch | exact H1].
    + eapply gated_neutral; [apply neutral_onField | now apply gated_codeCatch].
  - destruct (rq_channel rq);
      (eapply gated_neutral; [apply neutral_onField | exact H1]).
Qed.

Lemma neutral_setMode mode s : neutral s (setMode mode s).
Proof. rewrite setMode_char. repeat split. Qed.

Lemma gated_step e s : gated s -> gated (step e s).
Proof.
  intros H. destruct e; cbn [step].
  - eapply gated_neutral; [apply onlyFields_neutral, onlyFields_writeInput | exact H].
  - eapply gated_neutral; [|exact H]. repeat split.
  - destruct (autocompleteInstance s); [now apply gated_nameSource | exact H].
  - destruct (autocompleteInstance s); [now apply gated_onSelectItem | exact H].
  - destruct (autocompleteInstance s); [now apply gated_nameInputListener | exact H].
  - destruct (autocompleteInstance s); [now apply gated_nameBlurListener | exact H].
  - now apply gated_handleInput.
  - now apply gated_settle.
  - eapply gated_neutral; [|exact H]. repeat split.
  - eapply gated_neutral; [apply onlyFields_neutral, onlyFields_clearAndResetForm | exact H].
  - eapply gated_neutral; [apply neutral_setMode | exact H].
  - eapply gated_neutral; [apply neutral_setMode | exact H].
Qed.

Lemma neutral_addEstablishmentNameListener widget s :
  neutral s (addEstablishmentNameListener widget s).
Proof.
  unfold addEstablishmentNameListener.
  destruct (autocompleteInstance s); [apply neutral_refl|].
  destruct (inputValue _ s); [|apply neutral_refl].
  destruct widget; repeat split.
Qed.

Lemma gated_initializeSystem widget s :
  (forall i, ls_id (lastSelectedEstablishment s) = Some i -> Js.truthy i = true) ->
  (forall v, ls_name (lastSelectedEstablishment s) = Some v -> jsTruthy v = true) ->
  gated (initializeSystem widget s).
Proof.
  intros Hid Hname. unfold initializeSystem, initializeFields.
  set (s1 := addEstablishmentNameListener widget _).
  assert (Hn : neutral s s1).
  { subst s1. eapply neutral_trans;
      [apply neutral_setMode | apply neutral_addEstablishmentNameListener]. }
  destruct Hn as (Hl & Hf & He).
  destruct (form s1) as [f|] eqn:Ef.
  - apply gated_update; cbn [form formEl lastSelectedEstablishment setFormEl];
      rewrite ?Hl; auto.
  - unfold gated. rewrite Ef, Hl. split; [congruence|].
    split; [exact Hid|]. split; [exact Hname|]. discriminate.
Qed.

Lemma gated_reachable s : reachable s -> gated s.
Proof.
  induction 1 as [page f mode widget | e s _ IH | widget s _ IH].
  - apply gated_initializeSystem; cbn; discriminate.
  - now apply gated_step.
  - destruct IH as (_ & Hid & Hname & _). now apply gated_initializeSystem.
Qed.

(** C5. In every state the controller reaches between two events
    (start-up, a confirmed selection, an invalidation, a reset, a mode
    switch, a lookup settling, in any order), each submit button of the
    form is enabled if and only if LastSelection.identity is non-null. *)
Theorem submit_enabled_iff_identity (s : State) :
  reachable s -> submitFollowsIdentity s.
Proof.
  intros Hr. destruct (gated_reachable s Hr) as (_ & Hid & _ & Hsub).
  intros f d Hf Hd. rewrite (Hsub f d Hf Hd).
  destruct (ls_id (lastSelectedEstablishment s)) as [i|] eqn:E; cbn [idTruthy].
  - rewrite (Hid i eq_refl). cbn. split; [discriminate | reflexivity].
  - cbn. split; [discriminate | congruence].
Qed.

(** After Aman Tokyo has been picked on the sample page the submit
    button is enabled and the identity is the record's. *)
Lemma submit_enabled_iff_identity_witness :
  let s := step (EvSelectItem (toItem Sample.amanTokyo)) Sample.started in
  form s = Some {| submitDisabled := [false] |} /\
  ls_id (lastSelectedEstablishment s) <> None.
Proof.
  intros s. split; [reflexivity|].
  assert (Hr : reachable s).
  { apply reach_step. exact (reach_init Sample.page (Some Sample.theForm) CODE_LOOKUP true). }
  apply (submit_enabled_iff_identity s Hr {| submitDisabled := [false] |} false);
    [reflexivity | now left | reflexivity].
Defined.

End SubmitFacts.

(** ** One live request per channel *)

Module TrafficFacts.
Import Inv.
Import Ftg Spec FieldsFacts ModeFacts ResetFacts InvalidationFacts FrameFacts GatewayFacts.

Lemma sameTraffic_trans s1 s2 s3 : sameTraffic s1 s2 -> sameTraffic s2 s3 -> sameTraffic s1 s3.
Proof.
  unfold sameTraffic. intros (A & B & C & D & E) (A' & B' & C' & D' & E').
  repeat split; congruence.
Qed.

Lemma local_sameTraffic s s' : local s s' -> sameTraffic s s'.
Proof. unfold local, sameTraffic. intros H. decompose [and] H. auto. Qed.

Lemma controllerOf_same s s' ch :
  nameSearchController s' = nameSearchController s ->
  codeLookupController s' = codeLookupController s ->
  controllerOf ch s' = controllerOf ch s.
Proof. intros A B. destruct ch; assumption. Qed.

Lemma ordered_sameTraffic s s' : sameTraffic s s' -> ordered s -> ordered s'.
Proof.
  intros (Hp & Ha & Hn & Hc & Hx) [H1 H2]. split.
  - intros rq Hin. rewrite Hp in Hin. destruct (H1 rq Hin) as [c (E & L & A)].
    exists c. rewrite (controllerOf_same s s' _ Hn Hc), Ha. auto.
  - intros ch c. rewrite (controllerOf_same s s' _ Hn Hc), Hx. apply H2.
Qed.

Lemma ordered_local s s' : local s s' -> ordered s -> ordered s'.
Proof. intros H. apply ordered_sameTraffic. now apply local_sameTraffic. Qed.

(** Aborting more controllers keeps the order. *)
Lemma ordered_abort c s : ordered s -> ordered (abortController c s).
Proof.
  intros [H1 H2]. destruct c as [id|]; [|now split]. split.
  - intros rq Hin. destruct (H1 rq Hin) as [c (E & L & A)].
    exists c. repeat split; [now destruct (rq_channel rq) | exact L|].
    intros Hne. right. now apply A.
  - intros ch c Hc. apply (H2 ch c). now destruct ch.
Qed.

Lemma Channel_eq_dec (a b : Channel) : {a = b} + {a <> b}.
Proof. decide equality. Qed.

Lemma ordered_renewed ch s s' : renewed ch s s' -> ordered s -> ordered s'.
Proof.
  intros (Hp & Hx & Hnew & Hother & Hab & Hold) [H1 H2]. split.
  - intros rq Hin. rewrite Hp in Hin. destruct (H1 rq Hin) as [c (E & L & A)].
    destruct (Channel_eq_dec (rq_channel rq) ch) as [Hch|Hch].
    + rewrite Hch in *. exists (nextController s).
      pose proof (H2 ch c E) as Hlt.
      split; [exact Hnew|]. split; [lia|]. intros _.
      destruct (Nat.eq_dec (rq_ctrl rq) c) as [->|Hne]; [now apply Hold|].
      apply Hab. now apply A.
    + exists c. rewrite (Hother _ Hch). repeat split; [exact E | exact L|].
      intros Hne. apply Hab. now apply A.
  - intros ch' c Hc. rewrite Hx.
    destruct (Channel_eq_dec ch' ch) as [->|Hch].
    + rewrite Hnew in Hc. injection Hc as <-. lia.
    + rewrite (Hother _ Hch) in Hc. apply H2 in Hc. lia.
Qed.

(** A request leaves under the controller its channel holds. *)
Lemma ordered_issue rq e s :
  controllerOf (rq_channel rq) s = Some (rq_ctrl rq) ->
  ordered s -> ordered (setPending (pending s ++ [rq]) (emit e s)).
Proof.
  intros Hc [H1 H2]. split.
  - intros x Hin. cbn [pending setPending] in Hin. apply in_app_or in Hin.
    destruct Hin as [Hin|[<-|[]]].
    + destruct (H1 x Hin) as [c (E & L & A)]. exists c.
      repeat split; [now destruct (rq_channel x) | exact L | exact A].
    + exists (rq_ctrl rq). repeat split; [now destruct (rq_channel rq) | lia | congruence].
  - intros ch c Hc0. apply (H2 ch c). now destruct ch.
Qed.

Lemma takeRequest_In ctrl l rq rest :
  takeRequest ctrl l = Some (rq, rest) -> forall x, In x rest -> In x l.
Proof.
  revert rq rest. induction l as [|y l IH]; intros rq rest; cbn [takeRequest]; [discriminate|].
  destruct (rq_ctrl y =? ctrl)%nat.
  - intros [= <- <-] x Hin. now right.
  - destruct (takeRequest ctrl l) as [[x0 r0]|]; [|discriminate].
    intros [= <- <-] x [<-|Hin]; [now left | right; eapply IH; eauto].
Qed.

Lemma ordered_taken rest s :
  (forall x, In x rest -> In x (pending s)) -> ordered s -> ordered (setPending rest s).
Proof.
  intros Hsub [H1 H2]. split.
  - intros rq Hin. apply Hsub in Hin. destruct (H1 rq Hin) as [c (E & L & A)].
    exists c. repeat split; [now destruct (rq_channel rq) | exact L | exact A].
  - intros ch c Hc. apply (H2 ch c). now destruct ch.
Qed.

Lemma ordered_queried ch field query s :
  controllerOf ch s = Some (nextController s - 1) ->
  ordered s ->
  match queryAirtableContains ch field query (nextController s - 1) s with
  | Resolved _ s' => ordered s'
  | Issued s' => ordered s'
  end.
Proof.
  intros Hc H. unfold queryAirtableContains.
  destruct (negb _); [exact H|].
  destruct (Cache.cacheGet _ _) as [[cached|] c'].
  - eapply ordered_sameTraffic; [|exact H]. repeat split.
  - now apply ordered_issue.
Qed.

Lemma renewed_after_abort ch s s' :
  pending s' = pending s ->
  nextController s' = S (nextController s) ->
  controllerOf ch s' = Some (nextController s) ->
  (forall ch', ch' <> ch -> controllerOf ch' s' = controllerOf ch' s) ->
  aborted s' = aborted (abortController (controllerOf ch s) s) ->
  renewed ch s s'.
Proof.
  intros Hp Hx Hc Ho Ha. unfold renewed. rewrite Ha.
  repeat split; auto; unfold abortController.
  - intros x Hin. destruct (controllerOf ch s); [now right | exact Hin].
  - intros c ->. now left.
Qed.

Lemma ordered_nameSource query s : ordered s -> ordered (nameSource query s).
Proof.
  intros H. unfold nameSource.
  set (s1 := onField officialEstablishmentName _ s).
  assert (H1 : ordered s1) by (eapply ordered_local; [apply local_onField | exact H]).
  destruct (String.length query <? 2)%nat.
  - eapply ordered_local; [|exact H1].
    eapply local_trans; [apply local_onField | now apply local_emit].
  - set (s3 := setNameSearchController _ _).
    assert (H3 : ordered s3).
    { apply (ordered_renewed nameSearch s1 s3); [|exact H1].
      apply renewed_after_abort; subst s3; unfold abortController;
        cbn [controllerOf]; destruct (nameSearchController s1); try reflexivity;
        intros [] Hne; try congruence; reflexivity. }
    assert (Hn : nextController s1 = nextController s3 - 1).
    { subst s3. unfold abortController.
      destruct (nameSearchController s1); cbn; lia. }
    replace (nextController (abortController (nameSearchController s1) s1))
      with (nextController s3 - 1)
      by (rewrite <- Hn; unfold abortController; now destruct (nameSearchController s1)).
    assert (Hc : controllerOf nameSearch s3 = Some (nextController s3 - 1)).
    { rewrite <- Hn. subst s3. unfold abortController.
      now destruct (nameSearchController s1). }
    pose proof (ordered_queried nameSearch NAME_FIELD query s3 Hc H3) as Hq.
    destruct (queryAirtableContains _ _ _ _ s3) as [data s4|s4]; [|exact Hq].
    eapply ordered_local; [apply local_nameThen | exact Hq].
Qed.

Lemma ordered_handleInput s : ordered s -> ordered (handleInput s).
Proof.
  intros H. unfold handleInput.
  destruct (inputValue redemptionCode s) as [value|]; [|exact H].
  set (s2 := onField redemptionCode _ (resetFields [redemptionCode] s)).
  assert (H2 : ordered s2).
  { eapply ordered_local; [|exact H].
    eapply local_trans; [apply onlyFields_local, onlyFields_resetFields | apply local_onField]. }
  destruct (negb (String.length (Js.trim value) =? 8)%nat).
  - eapply ordered_local;
      [eapply local_trans; [apply local_onField | apply local_resetDependentFields]|].
    now apply ordered_abort.
  - set (s4 := onField redemptionCode (withSpinner true) _).
    set (s5 := setCodeLookupController _ _).
    assert (H5 : ordered s5).
    { apply (ordered_renewed codeLookup s2 s5); [|exact H2].
      apply renewed_after_abort; subst s5 s4; unfold abortController;
        cbn [controllerOf]; destruct (codeLookupController s2); try reflexivity;
        intros [] Hne; try congruence; reflexivity. }
    assert (Hn : nextController s4 = nextController s5 - 1) by (subst s5; cbn; lia).
    rewrite Hn.
    assert (Hc : controllerOf codeLookup s5 = Some (nextController s5 - 1)).
    { rewrite <- Hn. reflexivity. }
    pose proof (ordered_queried codeLookup "Redemption Code" (Js.trim value) s5 Hc H5) as Hq.
    destruct (queryAirtableContains _ _ _ _ s5) as [data s6|s6]; [|exact Hq].
    eapply ordered_local; [apply local_codeThen | exact Hq].
Qed.

Lemma ordered_settle ctrl o s : ordered s -> ordered (settle ctrl o s).
Proof.
  intros H. unfold settle.
  destruct (takeRequest ctrl (pending s)) as [[rq rest]|] eqn:Et; [|exact H].
  assert (H1 : ordered (setPending rest s)).
  { apply ordered_taken; [|exact H]. exact (takeRequest_In _ _ _ _ Et). }
  destruct o as [data| |].
  - set (s2 := setAirtableCache _ _).
    assert (H2 : ordered s2) by (eapply ordered_sameTraffic; [|exact H1]; repeat split).
    destruct (rq_channel rq).
    + eapply ordered_local; [apply local_nameThen | exact H2].
    + eapply ordered_local; [apply local_codeThen | exact H2].
  - destruct (rq_channel rq).
    + eapply ordered_local; [apply local_nameCatch | exact H1].
    + eapply ordered_local; [|exact H1].
      eapply local_trans; [apply local_codeCatch | apply local_codeFinally].
  - destruct (rq_channel rq).
    + eapply ordered_local; [apply local_nameAborted | exact H1].
    + eapply ordered_local; [apply local_codeFinally | exact H1].
Qed.

Lemma local_onSelectItem item s : local s (onSelectItem item s).
Proof.
  unfold onSelectItem.
  set (s1 := onField officialEstablishmentName _ s).
  pose proof (resolves_handleRedemptionCodeSelection (item_data item) s1) as (H & _).
  destruct (handleRedemptionCodeSelection (item_data item) s1) as [[] s2|s2];
    cbn [stateOf] in H.
  - eapply local_trans; [apply local_onField|].
    eapply local_trans; [exact H|].
    eapply local_trans; [apply local_markSelection | apply local_updateFormSubmitState].
  - eapply local_trans; [apply local_onField | exact H].
Qed.

Lemma local_nameInputListener s : local s (nameInputListener s).
Proof.
  unfold nameInputListener.
  destruct (nameDiverged _ s), (negb _);
    try apply local_refl; try apply local_resetDependentFields.
  eapply local_trans; apply local_resetDependentFields.
Qed.

Lemma local_nameBlurListener s : local s (nameBlurListener s).
Proof.
  unfold nameBlurListener.
  destruct (_ || _); [apply local_resetDependentFields | apply local_refl].
Qed.

Lemma sameTraffic_setMode mode s : sameTraffic s (setMode mode s).
Proof. rewrite setMode_char. repeat split. Qed.

Lemma ordered_step e s : ordered s -> ordered (step e s).
Proof.
  intros H. destruct e; cbn [step].
  - eapply ordered_local; [apply onlyFields_local, onlyFields_writeInput | exact H].
  - eapply ordered_sameTraffic; [|exact H]. repeat split.
  - destruct (autocompleteInstance s); [now apply ordered_nameSource | exact H].
  - destruct (autocompleteInstance s); [|exact H].
    eapply ordered_local; [apply local_onSelectItem | exact H].
  - destruct (autocompleteInstance s); [|exact H].
    eapply ordered_local; [apply local_nameInputListener | exact H].
  - destruct (autocompleteInstance s); [|exact H].
    eapply ordered_local; [apply local_nameBlurListener | exact H].
  - now apply ordered_handleInput.
  - now apply ordered_settle.
  - eapply ordered_sameTraffic; [|exact H]. repeat split.
  - eapply ordered_local; [apply local_clearAndResetForm | exact H].
  - eapply ordered_sameTraffic; [apply sameTraffic_setMode | exact H].
  - eapply ordered_sameTraffic; [apply sameTraffic_setMode | exact H].
Qed.

Lemma sameTraffic_initializeSystem widget s : sameTraffic s (initializeSystem widget s).
Proof.
  unfold initializeSystem, initializeFields.
  set (s1 := addEstablishmentNameListener widget _).
  assert (H1 : sameTraffic s s1).
  { eapply sameTraffic_trans; [apply sameTraffic_setMode|]. subst s1.
    unfold addEstablishmentNameListener.
    destruct (autocompleteInstance _); [repeat split|].
    destruct (inputValue _ _); [|repeat split].
    destruct widget; repeat split. }
  destruct (form s1); [|exact H1].
  eapply sameTraffic_trans; [exact H1|].
  unfold updateFormSubmitState. cbn [formEl setFormEl]. repeat split.
Qed.

Lemma ordered_reachable s : reachable s -> ordered s.
Proof.
  induction 1 as [page f mode widget | e s _ IH | widget s _ IH].
  - eapply ordered_sameTraffic; [apply sameTraffic_initializeSystem|].
    split; [intros rq [] | intros [] c; discriminate].
  - now apply ordered_step.
  - eapply ordered_sameTraffic; [apply sameTraffic_initializeSystem | exact IH].
Qed.

Lemma ordered_superseded s : ordered s -> superseded s.
Proof.
  intros [H1 _] rq1 rq2 Hin1 Hin2 Hch Hlt.
  destruct (H1 rq1 Hin1) as [c (E1 & L1 & A1)].
  destruct (H1 rq2 Hin2) as [c' (E2 & L2 & _)].
  rewrite Hch in E1. rewrite E1 in E2. injection E2 as <-.
  apply A1. lia.
Qed.

(** *** A request that settles with an abort error *)

Lemma controls_updField k g fs :
  (forall f, input (g f) = input f /\ select (g f) = select f) ->
  map (fun e => (fst e, input (snd e), select (snd e))) (updField k g fs) =
  map (fun e => (fst e, input (snd e), select (snd e))) fs.
Proof.
  intros Hg. unfold updField. rewrite map_map. apply map_ext. intros [k0 f0].
  cbn [fst snd]. destruct (FieldKey_beq k0 k); [|reflexivity].
  cbn [fst snd]. destruct (Hg f0) as [-> ->]. reflexivity.
Qed.

Lemma settle_abort_ignored ctrl s :
  controls (settle ctrl FetchAbort s) = controls s /\
  lastSelectedEstablishment (settle ctrl FetchAbort s) = lastSelectedEstablishment s /\
  form (settle ctrl FetchAbort s) = form s /\
  airtableCache (settle ctrl FetchAbort s) = airtableCache s /\
  log (settle ctrl FetchAbort s) = log s.
Proof.
  unfold settle. destruct (takeRequest ctrl (pending s)) as [[rq rest]|]; [|repeat split].
  unfold nameAborted, codeFinally, controls, onField.
  destruct (rq_channel rq); cbn [fields setFields setPending lastSelectedEstablishment
                                   form airtableCache log];
    (split; [apply controls_updField; intros f; split; reflexivity | repeat split]).
Qed.

Lemma reachable_run evs s : reachable s -> reachable (run evs s).
Proof.
  revert s. induction evs as [|e evs IH]; intros s H; [exact H|].
  cbn [run fold_left]. apply IH. now apply reach_step.
Qed.

(** C1 (amended). In every reachable state, of two requests in flight on
    one channel the one issued first has been aborted (a handler aborts
    the channel's controller before it makes the new one and issues the
    new request); a request that settles with an abort error writes no
    control, no selection, no submit button, no cache entry and calls
    nothing back; hence, when the transport answers an aborted request
    with an abort error, the request issued first changes nothing when
    it settles.  Nothing in main.js compares a settled request with the
    channel's current controller: the guarantee is the abort error. *)
Theorem superseded_request_is_aborted_and_ignored (s : State) :
  reachable s ->
  superseded s /\
  (forall ctrl,
     controls (step (EvSettle ctrl FetchAbort) s) = controls s /\
     lastSelectedEstablishment (step (EvSettle ctrl FetchAbort) s)
       = lastSelectedEstablishment s /\
     form (step (EvSettle ctrl FetchAbort) s) = form s /\
     airtableCache (step (EvSettle ctrl FetchAbort) s) = airtableCache s /\
     log (step (EvSettle ctrl FetchAbort) s) = log s) /\
  (forall rq1 rq2 o,
     In rq1 (pending s) -> In rq2 (pending s) ->
     rq_channel rq1 = rq_channel rq2 ->
     rq_ctrl rq1 < rq_ctrl rq2 ->
     (In (rq_ctrl rq1) (aborted s) -> o = FetchAbort) ->
     controls (step (EvSettle (rq_ctrl rq1) o) s) = controls s /\
     lastSelectedEstablishment (step (EvSettle (rq_ctrl rq1) o) s)
       = lastSelectedEstablishment s /\
     form (step (EvSettle (rq_ctrl rq1) o) s) = form s /\
     log (step (EvSettle (rq_ctrl rq1) o) s) = log s).
Proof.
  intros Hr.
  assert (Hs : superseded s) by now apply ordered_superseded, ordered_reachable.
  split; [exact Hs|]. split.
  - intros ctrl. cbn [step]. apply settle_abort_ignored.
  - intros rq1 rq2 o Hin1 Hin2 Hch Hlt Ho.
    rewrite (Ho (Hs rq1 rq2 Hin1 Hin2 Hch Hlt)). cbn [step].
    destruct (settle_abort_ignored (rq_ctrl rq1) s) as (A & B & C & _ & D).
    auto.
Qed.

(** The second code typed while the lookup of the first is in flight:
    the first controller has been aborted, and its abort error leaves
    the controls as they are. *)
Lemma superseded_request_is_aborted_and_ignored_witness :
  In 0 (aborted twoCodes) /\
  controls (step (EvSettle 0 FetchAbort) twoCodes) = controls twoCodes.
Proof.
  assert (Hr : reachable twoCodes).
  { apply reachable_run.
    exact (reach_init Sample.page (Some Sample.theForm) CODE_LOOKUP true). }
  destruct (superseded_request_is_aborted_and_ignored twoCodes Hr) as [Hs [Hq _]].
  split.
  - apply (Hs {| rq_ctrl := 0; rq_channel := codeLookup; rq_field := "Redemption Code";
                 rq_query := "ABCD1234"; rq_typed := "ABCD1234" |}
              {| rq_ctrl := 1; rq_channel := codeLookup; rq_field := "Redemption Code";
                 rq_query := "WXYZ5678"; rq_typed := "WXYZ5678" |}).
    + vm_compute. now left.
    + vm_compute. right. now left.
    + reflexivity.
    + cbn. lia.
  - exact (proj1 (Hq 0)).
Defined.

(** C1 as stated fails for a response that arrives despite the abort:
    the first lookup has been aborted and superseded, its response is
    delivered all the same, and it fills the form and records the
    selection. *)
Lemma stale_response_applied_counterexample :
  let late := step (EvSettle 0 (FetchOk {| records := Some [Sample.amanTokyo] |})) twoCodes in
  In 0 (aborted twoCodes) /\
  (exists rq, In rq (pending twoCodes) /\ rq_ctrl rq = 0 /\ rq_typed rq = "ABCD1234") /\
  inputValue redemptionCode twoCodes = Some "WXYZ5678" /\
  inputValue officialEstablishmentName twoCodes = Some "" /\
  inputValue officialEstablishmentName late = Some "Aman Tokyo" /\
  ls_id (lastSelectedEstablishment late) = Some "recAman".
Proof.
  cbv zeta. split; [vm_compute; now left|]. split.
  - eexists. split; [vm_compute; left; reflexivity|]. split; reflexivity.
  - vm_compute. repeat split.
Qed.

End TrafficFacts.

(** * Further properties

    Properties of main.js beyond those its specification states: edge
    and failure paths, invariants of the event loop, idempotence, and
    the parts of the file the specification is silent about (the field
    registry, debounce, the start-up wiring, the submit listener). *)

(** ** More on the lookup cache *)

Module CacheMore.
Import Inv.
Import Cache CacheFacts.
Section WithValue.

Variable V : Type.

Lemma cacheGet_result k (c : Cache.t V) : fst (cacheGet k c) = get k c.
Proof.
  unfold cacheGet. destruct (has k c) eqn:Hh; simpl.
  - now destruct (get k c).
  - symmetry. apply get_notin. now apply has_false_notin.
Qed.

(** X1. Between two events the cache never holds more than its capacity and
    never holds a key twice, whatever was looked up or stored before. *)
Theorem cache_within_capacity (N : nat) (ops : list (Op V)) :
  List.length (fst (run N ops)) <= N /\ NoDup (keys (fst (run N ops))).
Proof.
  pose proof (lru_inv_run V N ops) as Hinv.
  split; [|exact (lru_inv_NoDup_keys V N _ _ Hinv)].
  destruct Hinv as [_ Hk]. rewrite <- (length_map fst). fold (keys (fst (run N ops))).
  rewrite Hk, length_rev, length_firstn. lia.
Qed.

Lemma get_after_cacheSetN (N : nat) (k : string) (v : V) (c : Cache.t V) :
  1 <= N -> get k (cacheSetN N k v c) = Some v.
Proof.
  intros HN. rewrite cacheSetN_before. cbv zeta.
  pose proof (get_refreshed V k k v c) as Hg. rewrite String.eqb_refl in Hg.
  destruct (N <? _)%nat eqn:Hover; [|exact Hg].
  destruct (delete k c ++ [(k, v)]) as [|[first v0] rest] eqn:E; [exact Hg|].
  destruct (string_dec first k) as [->|Hne].
  - exfalso. destruct (delete k c) as [|[k1 v1] d] eqn:Ed.
    + simpl in E. injection E as _ <-. apply Nat.ltb_lt in Hover. simpl in Hover. lia.
    + simpl in E. injection E as -> _ _.
      apply (notin_keys_delete V k c). rewrite Ed. now left.
  - now rewrite get_delete_other.
Qed.

(** X2. A value stored under a key is what the next lookup of that key
    returns, on any cache, when the capacity is at least one. *)
Theorem cacheSet_then_cacheGet (N : nat) (k : string) (v : V) (c : Cache.t V) :
  1 <= N -> fst (cacheGet k (cacheSetN N k v c)) = Some v.
Proof. intros HN. rewrite cacheGet_result. now apply get_after_cacheSetN. Qed.

End WithValue.

Lemma cacheSet_then_cacheGet_witness :
  fst (cacheGet "k" (cacheSet "k" 7 [("a", 1); ("k", 2)])) = Some 7.
Proof. apply (cacheSet_then_cacheGet nat MAX_CACHE "k" 7). unfold MAX_CACHE. lia. Defined.

Section Contents.

Variable V : Type.

(** X3. A lookup moves the entry it finds and changes nothing else: every
    key maps to what it mapped to before, and a miss leaves the cache as
    it is. *)
Theorem cacheGet_keeps_contents (k : string) (c : Cache.t V) :
  fst (cacheGet k c) = get k c /\
  (forall k', get k' (snd (cacheGet k c)) = get k' c) /\
  (get k c = None -> snd (cacheGet k c) = c).
Proof.
  split; [apply cacheGet_result|]. split.
  - intros k'. destruct (in_dec string_dec k (keys c)) as [Hin|Hn].
    + destruct (cacheGet_hit V k c Hin) as [v [Hv ->]]. simpl.
      rewrite get_refreshed. destruct (String.eqb_spec k k') as [<-|_]; congruence.
    + now rewrite cacheGet_miss.
  - intros Hnone. destruct (in_dec string_dec k (keys c)) as [Hin|Hn].
    + destruct (get_In V k c Hin) as [v Hv]. congruence.
    + now rewrite cacheGet_miss.
Qed.

End Contents.
End CacheMore.

(** ** The field registry *)

Module RegistryFacts.
Import Inv.
Import Ftg Registry FieldsFacts.

Lemma toLowerCase_app (a b : string) :
  Js.toLowerCase (a ++ b) = (Js.toLowerCase a ++ Js.toLowerCase b)%string.
Proof. induction a as [|c a IH]; simpl; [reflexivity | now rewrite IH]. Qed.

Lemma startsWith_app (a b : string) : Js.startsWith (a ++ b) a = true.
Proof. apply JsFacts.startsWith_spec. now exists b. Qed.

Lemma startsWith_comparable (x a b : string) :
  Js.startsWith x a = true -> Js.startsWith x b = true ->
  Js.startsWith a b = true \/ Js.startsWith b a = true.
Proof.
  revert x b. induction a as [|c a IH]; intros x b Ha Hb.
  - right. now destruct b.
  - destruct b as [|d b]; [left; reflexivity|].
    destruct x as [|e x]; [discriminate|].
    simpl in Ha, Hb. apply andb_true_iff in Ha, Hb.
    destruct Ha as [Ec Ha], Hb as [Ed Hb].
    apply Ascii.eqb_eq in Ec, Ed. subst c d.
    simpl. rewrite Ascii.eqb_refl. simpl. eapply IH; eauto.
Qed.

Lemma ownEntry_In name t k : ownEntry name t = Some k -> In (name, k) t.
Proof.
  induction t as [|[l k0] t IH]; simpl; [discriminate|].
  destruct (String.eqb_spec l name) as [->|_].
  - intros [= ->]. now left.
  - intros H. right. now apply IH.
Qed.

Lemma findEntry_Some p t k :
  findEntry p t = Some k -> exists l, In (l, k) t /\ p l = true.
Proof.
  induction t as [|[l k0] t IH]; simpl; [discriminate|].
  destruct (p l) eqn:E.
  - intros [= ->]. exists l. split; [now left | exact E].
  - intros H. destruct (IH H) as [l' [Hin Hp]]. exists l'. split; [now right | exact Hp].
Qed.

Lemma findEntry_None p t :
  findEntry p t = None -> forall l k, In (l, k) t -> p l = false.
Proof.
  induction t as [|[l0 k0] t IH]; simpl; [intros _ l k []|].
  destruct (p l0) eqn:E; [discriminate|].
  intros H l k [[= <- <-]|Hin]; [exact E | eauto].
Qed.

Lemma table_checked : tableChecked = true.
Proof. vm_compute. reflexivity. Qed.

Lemma table_entry L K :
  In (L, K) FIELD_LABEL_TO_KEY ->
  (forall L' K', In (L', K') FIELD_LABEL_TO_KEY ->
     Js.startsWith (Js.toLowerCase L) (Js.toLowerCase L') = true -> L = L' /\ K = K') /\
  (forall n, In n inheritedNames ->
     Js.startsWith (Js.toLowerCase n) (Js.toLowerCase L) = false) /\
  plainLabel L = true.
Proof.
  intros Hin. pose proof table_checked as H. unfold tableChecked in H.
  rewrite forallb_forall in H. specialize (H (L, K) Hin). cbn [fst snd] in H.
  apply andb_true_iff in H. destruct H as [H Hplain].
  apply andb_true_iff in H. destruct H as [H1 H2].
  rewrite forallb_forall in H1, H2. split; [|split; [|exact Hplain]].
  - intros L' K' Hin' Hs. specialize (H1 (L', K') Hin'). cbn [fst snd] in H1.
    rewrite Hs in H1. cbn [negb orb] in H1. apply andb_true_iff in H1.
    destruct H1 as [E1 E2]. apply String.eqb_eq in E1.
    destruct (FieldKey_beq_spec K K'); [now split | discriminate].
  - intros n Hn. specialize (H2 n Hn). now apply negb_true_iff in H2.
Qed.

Lemma resolveKey_prefix (rawText L : string) (K : FieldKey) (dataName : option string) :
  In (L, K) FIELD_LABEL_TO_KEY ->
  Js.startsWith (Js.toLowerCase rawText) (Js.toLowerCase L) = true ->
  resolveKey rawText dataName = Key K.
Proof.
  intros Hin Hs.
  destruct (table_entry L K Hin) as (Huniq & Hinh & _).
  unfold resolveKey, lookup.
  destruct (ownEntry rawText FIELD_LABEL_TO_KEY) as [k|] eqn:Eown.
  + apply ownEntry_In in Eown.
    destruct (table_entry rawText k Eown) as (Huniq' & _).
    destruct (Huniq' L K Hin Hs) as [_ ->]. reflexivity.
  + destruct (existsb (String.eqb rawText) inheritedNames) eqn:Einh.
    * apply existsb_exists in Einh. destruct Einh as [n [Hn En]].
      apply String.eqb_eq in En. subst n. rewrite (Hinh rawText Hn) in Hs. discriminate.
    * destruct (findEntry _ FIELD_LABEL_TO_KEY) as [k|] eqn:Ef.
      -- apply findEntry_Some in Ef. destruct Ef as [L' [Hin' Hs']].
         destruct (startsWith_comparable _ _ _ Hs Hs') as [H|H].
         ++ destruct (Huniq L' k Hin' H) as [_ ->]. reflexivity.
         ++ destruct (table_entry L' k Hin') as (Huniq' & _).
            destruct (Huniq' L K Hin H) as [_ ->]. reflexivity.
      -- rewrite (findEntry_None _ _ Ef L K Hin) in Hs. discriminate.
Qed.

(** X4. A form item is bound by its label exactly through case-insensitive
    prefix matching: when the cleaned label text begins, case apart,
    with a known label, the item gets that label's key whatever its
    select says (no second label could claim it); when it begins with
    none and the item has no select name to fall back on, the item is
    not bound to any key. *)
Theorem resolveKey_is_prefix_match (rawText : string) :
  (forall L K dataName,
     In (L, K) FIELD_LABEL_TO_KEY ->
     Js.startsWith (Js.toLowerCase rawText) (Js.toLowerCase L) = true ->
     resolveKey rawText dataName = Key K) /\
  ((forall L K, In (L, K) FIELD_LABEL_TO_KEY ->
      Js.startsWith (Js.toLowerCase rawText) (Js.toLowerCase L) = false) ->
   forall k, resolveKey rawText None <> Key k).
Proof.
  split.
  - intros L K dataName. apply resolveKey_prefix.
  - intros Hnone k. unfold resolveKey, lookup.
    destruct (ownEntry rawText FIELD_LABEL_TO_KEY) as [k0|] eqn:Eown.
    + apply ownEntry_In in Eown. specialize (Hnone rawText k0 Eown).
      assert (Js.startsWith (Js.toLowerCase rawText) (Js.toLowerCase rawText) = true).
      { apply JsFacts.startsWith_spec. exists EmptyString.
        clear. induction (Js.toLowerCase rawText); simpl; congruence. }
      congruence.
    + destruct (existsb _ inheritedNames); [discriminate|].
      destruct (findEntry _ FIELD_LABEL_TO_KEY) as [k0|] eqn:Ef; [|discriminate].
      apply findEntry_Some in Ef. destruct Ef as [L' [Hin' Hs']].
      rewrite (Hnone L' k0 Hin') in Hs'. discriminate.
Qed.

Lemma resolveKey_is_prefix_match_witness :
  resolveKey "award level (stars)" None = Key awardLevel.
Proof.
  apply (proj1 (resolveKey_is_prefix_match "award level (stars)") "Award Level");
    [simpl; tauto | reflexivity].
Defined.

(** *** Labels with adornments *)

Lemma trimStart_blank_app (ws x : string) :
  Spec.whitespaceOnly ws = true -> Js.trimStart (ws ++ x) = Js.trimStart x.
Proof.
  unfold Spec.whitespaceOnly. induction ws as [|c ws IH]; simpl; [reflexivity|].
  intros H. apply andb_true_iff in H. destruct H as [Hc Hws]. rewrite Hc. auto.
Qed.

Lemma app_not_empty (a : string) c b : (a ++ String c b)%string <> EmptyString.
Proof. destruct a; discriminate. Qed.

Lemma trimEnd_app (a b : string) :
  Js.trimEnd (a ++ b) =
  match Js.trimEnd b with
  | EmptyString => Js.trimEnd a
  | String c r => (a ++ String c r)%string
  end.
Proof.
  induction a as [|x a IH]; [simpl; now destruct (Js.trimEnd b)|].
  cbn [append]. rewrite JsFacts.trimEnd_cons, IH.
  destruct (Js.trimEnd b) as [|c r].
  - now rewrite <- JsFacts.trimEnd_cons.
  - destruct (a ++ String c r)%string eqn:E; [now apply app_not_empty in E | reflexivity].
Qed.

Lemma collapse_app (b : bool) (a e : string) :
  collapse b (a ++ e) = (collapse b a ++ collapse (endsInSpace b a) e)%string.
Proof.
  revert b. induction a as [|c a IH]; intros b; [reflexivity|].
  cbn [append collapse endsInSpace]. destruct (Js.isWhiteSpace c).
  - destruct b; cbn [append]; now rewrite IH.
  - cbn [append]. now rewrite IH.
Qed.

Lemma removeRequired_app (a e : string) :
  forallb (fun c => negb (Ascii.eqb (Js.lowerChar c) "("%char)) (list_ascii_of_string a) = true ->
  removeRequired (a ++ e) = (a ++ removeRequired e)%string.
Proof.
  induction a as [|c a IH]; [reflexivity|].
  cbn [list_ascii_of_string forallb]. intros H. apply andb_true_iff in H.
  destruct H as [Hc Ha]. apply negb_true_iff in Hc.
  cbn [append]. cbn [removeRequired Js.toLowerCase Js.startsWith].
  rewrite Hc. cbn [andb]. now rewrite (IH Ha).
Qed.

Lemma dropTrailingColon_cons (x y : ascii) (r : string) :
  dropTrailingColon (String x (String y r)) = String x (dropTrailingColon (String y r)).
Proof. reflexivity. Qed.

Lemma dropTrailingColon_app (a : string) c e :
  dropTrailingColon (a ++ String c e) = (a ++ dropTrailingColon (String c e))%string.
Proof.
  induction a as [|x a IH]; [reflexivity|].
  cbn [append]. rewrite <- IH.
  destruct (a ++ String c e)%string eqn:E; [now apply app_not_empty in E|].
  apply dropTrailingColon_cons.
Qed.

(** Each cleaning step leaves a plain label at the head of the text. *)
Lemma rawTextOf_keeps_label (L ws extra : string) :
  plainLabel L = true ->
  Spec.whitespaceOnly ws = true ->
  exists rest, rawTextOf (ws ++ L ++ extra) = (L ++ rest)%string.
Proof.
  unfold plainLabel. intros Hp Hws.
  repeat (apply andb_true_iff in Hp; let H := fresh "P" in destruct Hp as [Hp H]).
  apply String.eqb_eq in P3, P, P2. apply negb_true_iff in P1.
  assert (Htrim : forall e, exists e', Js.trimEnd (L ++ e) = (L ++ e')%string).
  { intros e. rewrite trimEnd_app. destruct (Js.trimEnd e) as [|c r].
    - exists EmptyString. rewrite P3. clear. induction L; simpl; congruence.
    - now exists (String c r). }
  assert (Hstart : forall e, Js.trimStart (L ++ e) = (L ++ e)%string).
  { intros e. destruct L as [|c L']; [discriminate|]. cbn [append Js.trimStart].
    apply negb_true_iff in Hp. now rewrite Hp. }
  unfold rawTextOf, Js.trim, collapseSpaces.
  rewrite (trimStart_blank_app ws _ Hws), Hstart.
  destruct (Htrim extra) as [e1 ->].
  rewrite collapse_app, P2, P1.
  rewrite (removeRequired_app L _ P0).
  set (e3 := removeRequired (collapse false e1)).
  assert (Hd : exists e4, dropTrailingColon (L ++ e3) = (L ++ e4)%string).
  { destruct e3 as [|c e3].
    - exists EmptyString. replace (L ++ "")%string with L
        by (clear; induction L; simpl; congruence). exact P.
    - rewrite dropTrailingColon_app. eauto. }
  destruct Hd as [e4 ->]. rewrite Hstart. apply Htrim.
Qed.

(** X5. A form item whose label is a known label, with any white space
    before it and anything after it (a required marker, a colon, an
    asterisk, further words), is bound under that label's key. *)
Theorem adorned_label_resolves (L : string) (K : FieldKey) (ws extra : string)
    (dataName : option string) :
  In (L, K) FIELD_LABEL_TO_KEY ->
  Spec.whitespaceOnly ws = true ->
  resolveKey (rawTextOf (ws ++ L ++ extra)) dataName = Key K.
Proof.
  intros Hin Hws. destruct (table_entry L K Hin) as (_ & _ & Hp).
  destruct (rawTextOf_keeps_label L ws extra Hp Hws) as [rest ->].
  apply (resolveKey_prefix (L ++ rest) L K dataName Hin).
  rewrite toLowerCase_app. apply startsWith_app.
Qed.

Lemma adorned_label_resolves_witness :
  resolveKey (rawTextOf "  Duties & Taxes (Required):  ") None = Key dutiesAndTaxes.
Proof.
  apply (adorned_label_resolves "Duties & Taxes" dutiesAndTaxes "  " " (Required):  " None);
    [simpl; tauto | reflexivity].
Defined.

(** *** The scan *)

Lemma getField_assign k k' b fs :
  getField k (assign k' b fs) = if FieldKey_beq k' k then Some b else getField k fs.
Proof.
  induction fs as [|[k0 b0] fs IH]; simpl.
  - reflexivity.
  - destruct (FieldKey_beq_spec k0 k') as [->|Hne]; simpl.
    + now destruct (FieldKey_beq k' k).
    + destruct (FieldKey_beq_spec k0 k) as [->|Hne'].
      * destruct (FieldKey_beq_spec k' k); [congruence | reflexivity].
      * exact IH.
Qed.

Lemma In_fst_assign k k' b fs :
  In k (map fst (assign k' b fs)) -> k = k' \/ In k (map fst fs).
Proof.
  induction fs as [|[k0 b0] fs IH]; simpl.
  - intros [<-|[]]. now left.
  - destruct (FieldKey_beq_spec k0 k') as [->|Hne]; simpl; [tauto|].
    intros [<-|H]; [tauto|]. apply IH in H. tauto.
Qed.

Lemma NoDup_assign k b fs : NoDup (map fst fs) -> NoDup (map fst (assign k b fs)).
Proof.
  induction fs as [|[k0 b0] fs IH]; simpl; intros Hd.
  - constructor; [intros [] | constructor].
  - inversion Hd as [|? ? Hn Hd']; subst.
    destruct (FieldKey_beq_spec k0 k) as [->|Hne]; simpl.
    + now constructor.
    + constructor; [|now apply IH].
      intros Hin. apply In_fst_assign in Hin. destruct Hin as [->|Hin]; tauto.
Qed.

Lemma scanInto_spec items fs0 fs :
  scanInto items fs0 = Some fs ->
  NoDup (map fst fs0) ->
  NoDup (map fst fs) /\
  forall k, getField k fs = match lastBound k items with
                            | Some b => Some b
                            | None => getField k fs0
                            end.
Proof.
  revert fs0. induction items as [|item items IH]; intros fs0 Hs Hd.
  - simpl in Hs. injection Hs as <-. now split.
  - cbn [scanInto] in Hs. cbn [lastBound].
    destruct (fi_hasLabel item).
    + destruct (resolveItem item) as [k0| |]; [|discriminate|].
      * destruct (IH _ Hs (NoDup_assign k0 _ _ Hd)) as [Hn Hg]. split; [exact Hn|].
        intros k. rewrite Hg. destruct (lastBound k items); [reflexivity|].
        rewrite getField_assign. now destruct (FieldKey_beq k0 k).
      * destruct (IH _ Hs Hd) as [Hn Hg]. split; [exact Hn|].
        intros k. rewrite Hg. now destruct (lastBound k items).
    + destruct (IH _ Hs Hd) as [Hn Hg]. split; [exact Hn|].
      intros k. rewrite Hg. now destruct (lastBound k items).
Qed.

(** X6. A scan of the page binds each key at most once; a key is bound to
    the last labelled form item that resolves to it (a later item
    replaces an earlier one), and items without a label or without a
    key are left out. *)
Theorem scan_binds_last_item (items : list FormItem) (fs : Fields) :
  scan items = Some fs ->
  NoDup (map fst fs) /\ forall k, getField k fs = lastBound k items.
Proof.
  intros Hs. destruct (scanInto_spec items [] fs Hs) as [Hn Hg]; [constructor|].
  split; [exact Hn|]. intros k. rewrite Hg. now destruct (lastBound k items).
Qed.

(** Two items labelled "Award Level": the second one is the binding. *)
Lemma scan_binds_last_item_witness :
  scan twoAwardItems = Some [(awardLevel, Sample.selectField "Award Level:" Sample.awardOptions)] /\
  getField awardLevel [(awardLevel, Sample.selectField "Award Level:" Sample.awardOptions)]
  = lastBound awardLevel twoAwardItems.
Proof.
  assert (H : scan twoAwardItems
              = Some [(awardLevel, Sample.selectField "Award Level:" Sample.awardOptions)])
    by (vm_compute; reflexivity).
  split; [exact H|]. exact (proj2 (scan_binds_last_item _ _ H) awardLevel).
Defined.

End RegistryFacts.

(** ** Debounce *)

Module DebounceFacts.
Import Debounce.
Section WithArgs.

Variable A : Type.

Lemma calls_app (t : Timer A) (a b : list (Ev A)) :
  calls t (a ++ b) = calls t a ++ calls (timerAfter t a) b.
Proof.
  revert t. induction a as [|e a IH]; intros t; [reflexivity|].
  cbn [app calls timerAfter fold_left].
  destruct (stepTimer t e) as [t' [x|]] eqn:E; cbn [fst];
    fold (timerAfter t' a); rewrite IH; reflexivity.
Qed.

Lemma timerAfter_app (t : Timer A) (a b : list (Ev A)) :
  timerAfter t (a ++ b) = timerAfter (timerAfter t a) b.
Proof. apply fold_left_app. Qed.

Lemma calls_of_calls (t : Timer A) (xs : list A) : calls t (map (@Call A) xs) = [].
Proof. revert t. induction xs as [|x xs IH]; intros t; simpl; auto. Qed.

Lemma timerAfter_burst (t : Timer A) (xs : list A) (x : A) :
  timerAfter t (map (@Call A) (xs ++ [x])) = Some x.
Proof.
  rewrite map_app, timerAfter_app. reflexivity.
Qed.

(** X7. Of a burst of calls only the last one reaches [fn], once, when the
    delay has passed; [fn] is never called with arguments nobody passed;
    and a timer that has fired does not fire again. *)
Theorem debounce_runs_last_call (t : Timer A) (pre : list (Ev A)) (xs : list A) (x : A) :
  calls t (pre ++ map (@Call A) (xs ++ [x]) ++ [@Expire A]) = calls t pre ++ [x] /\
  calls t (pre ++ map (@Call A) (xs ++ [x]) ++ [@Expire A; @Expire A]) = calls t pre ++ [x] /\
  (forall (evs : list (Ev A)) (a : A), In a (calls None evs) -> In (Call a) evs).
Proof.
  split; [|split].
  - rewrite calls_app, calls_app, calls_of_calls, timerAfter_burst. reflexivity.
  - rewrite calls_app, calls_app, calls_of_calls, timerAfter_burst. reflexivity.
  - intros evs a. assert (G : forall t0 : Timer A,
        In a (calls t0 evs) -> t0 = Some a \/ In (Call a) evs).
    { induction evs as [|e evs IH]; intros t0; [intros []|].
      destruct e as [args|]; cbn [calls stepTimer].
      - intros H. apply IH in H. destruct H as [[= ->]|H]; right; [now left | now right].
      - destruct t0 as [y|].
        + intros [->|H]; [now left|]. apply IH in H. destruct H as [H|H]; [discriminate|].
          right. now right.
        + intros H. apply IH in H. destruct H as [H|H]; [discriminate|]. right. now right. }
    intros H. apply G in H. destruct H as [H|H]; [discriminate | exact H].
Qed.

End WithArgs.
End DebounceFacts.


(** ** The markup is never changed *)

Module StructureFacts.
Import Inv.
Import Ftg Structure FieldsFacts.

Lemma keysOf_shape s : map fst (shape s) = keysOf s.
Proof. unfold shape, keysOf. rewrite map_map. reflexivity. Qed.

Lemma kept_refl s : kept s s.
Proof. intros _. reflexivity. Qed.

Lemma kept_trans s1 s2 s3 : kept s1 s2 -> kept s2 s3 -> kept s1 s3.
Proof.
  intros H1 H2 Hn. rewrite H2, H1; auto.
  rewrite <- keysOf_shape, (H1 Hn), keysOf_shape. exact Hn.
Qed.

Lemma kept_same s s' : fields s' = fields s -> kept s s'.
Proof. intros H _. unfold shape. now rewrite H. Qed.

Lemma kept_emit e s : kept s (emit e s).
Proof. apply kept_same. reflexivity. Qed.

Lemma kept_setLastSelected v s : kept s (setLastSelected v s).
Proof. apply kept_same. reflexivity. Qed.

Lemma kept_NoDup s s' : kept s s' -> NoDup (keysOf s) -> NoDup (keysOf s').
Proof. intros H Hn. rewrite <- keysOf_shape, (H Hn), keysOf_shape. exact Hn. Qed.

Lemma kept_map (g : FieldKey -> Field -> Field) s :
  (forall k f, fieldShape (g k f) = fieldShape f) ->
  kept s (setFields (map (fun e => (fst e, g (fst e) (snd e))) (fields s)) s).
Proof.
  intros Hg _. unfold shape. cbn [fields setFields]. rewrite map_map.
  apply map_ext. intros [k f]. cbn [fst snd]. now rewrite Hg.
Qed.

Lemma kept_onField k g s :
  (forall f, fieldShape (g f) = fieldShape f) -> kept s (onField k g s).
Proof.
  intros Hg _. unfold shape, onField, updField. cbn [fields setFields]. rewrite map_map.
  apply map_ext. intros [k0 f]. cbn [fst snd].
  destruct (FieldKey_beq k0 k); cbn [fst snd]; [now rewrite Hg | reflexivity].
Qed.

Lemma shape_preventEdit f : fieldShape (preventEdit f) = fieldShape f.
Proof.
  unfold preventEdit. destruct (select f) as [sel|] eqn:Es.
  - destruct (select2 sel); unfold fieldShape; cbn; now rewrite Es.
  - destruct (input f) eqn:Ei; [|reflexivity]. unfold fieldShape; cbn. now rewrite Es, Ei.
Qed.

Lemma shape_resetField f : fieldShape (resetField f) = fieldShape f.
Proof.
  unfold resetField.
  destruct (input f) eqn:Ei, (select f) eqn:Es; unfold fieldShape; cbn;
    rewrite ?Ei, ?Es; reflexivity.
Qed.

Lemma kept_writeInput k v s : kept s (writeInput k v s).
Proof.
  apply kept_onField. intros f. destruct (input f) eqn:Ei; [|reflexivity].
  unfold fieldShape; cbn. now rewrite Ei.
Qed.

Lemma kept_each (g : Field -> Field) names s :
  (forall f, fieldShape (g f) = fieldShape f) ->
  kept s (fold_left (fun s n => onField n g s) names s).
Proof.
  intros Hg. revert s. induction names as [|n names IH]; intros s; cbn [fold_left].
  - apply kept_refl.
  - eapply kept_trans; [apply kept_onField, Hg | apply IH].
Qed.

Lemma kept_resetFields ex s : kept s (resetFields ex s).
Proof.
  intros _. unfold shape, resetFields. cbn [fields setFields]. rewrite map_map.
  apply map_ext. intros [k f]. cbn [fst snd].
  destruct (memKey k ex); cbn [fst snd]; [reflexivity | now rewrite shape_resetField].
Qed.

Lemma kept_updateFormSubmitState s : kept s (updateFormSubmitState s).
Proof. apply kept_same. unfold updateFormSubmitState. now destruct (formEl s). Qed.

Lemma kept_resetDependentFields ex s : kept s (resetDependentFields ex s).
Proof.
  unfold resetDependentFields.
  eapply kept_trans; [|apply kept_updateFormSubmitState].
  eapply kept_trans; [|apply kept_setLastSelected].
  destruct (negb (memKey customEstablishmentName ex)).
  - eapply kept_trans; [apply kept_resetFields | apply kept_writeInput].
  - apply kept_resetFields.
Qed.

Lemma kept_clearAndResetForm s : kept s (clearAndResetForm s).
Proof.
  unfold clearAndResetForm.
  set (s1 := resetFields [] s).
  set (s2 := setFields _ s1).
  assert (H2 : kept s s2).
  { eapply kept_trans; [apply kept_resetFields|]. subst s2.
    apply (kept_map (fun _ f => clearMessages f)). reflexivity. }
  set (s3 := preventInteraction _ s2).
  assert (H3 : kept s s3).
  { eapply kept_trans; [exact H2|]. apply kept_each, shape_preventEdit. }
  destruct (negb _ && _); [|exact H3].
  eapply kept_trans; [exact H3 | apply kept_writeInput].
Qed.

Lemma getField_unique k f fs :
  NoDup (map fst fs) -> In (k, f) fs -> getField k fs = Some f.
Proof.
  induction fs as [|[k0 f0] fs IH]; cbn [map fst getField In]; [intros _ []|].
  intros Hn [E|Hin].
  - injection E as -> ->. now rewrite FieldKey_beq_refl.
  - inversion Hn as [|? ? Hnot Hn']; subst.
    destruct (FieldKey_beq_spec k0 k) as [->|Hne]; [|now apply IH].
    exfalso. apply Hnot. apply (in_map fst) in Hin. exact Hin.
Qed.

Lemma kept_setSelectValue k v s : kept s (stateOf (setSelectValue k v s)).
Proof.
  unfold setSelectValue, showMismatch.
  destruct (getField k (fields s)) as [f|] eqn:Hg; [|apply kept_refl].
  destruct (select f) as [sel|] eqn:Hs; [|apply kept_refl].
  destruct (negb (jsTruthy v)); [apply kept_refl|].
  destruct v as [target|b shown]; [|apply kept_refl].
  destruct (findIndex _ _) as [i|]; cbn [stateOf].
  - intros Hn. unfold shape, onField, updField. cbn [fields setFields]. rewrite map_map.
    apply map_ext_in. intros [k0 f0] Hin. cbn [fst snd].
    destruct (FieldKey_beq_spec k0 k) as [->|Hne]; cbn [fst snd]; [|reflexivity].
    pose proof (getField_unique k f0 (fields s) Hn Hin) as Hu.
    rewrite Hg in Hu. injection Hu as <-.
    unfold fieldShape. cbn. now rewrite Hs.
  - eapply kept_trans; [|apply kept_clearAndResetForm].
    set (s1 := emit _ (onField k _ s)).
    assert (H1 : kept s s1).
    { subst s1. eapply kept_trans; [|apply kept_emit]. apply kept_onField; reflexivity. }
    destruct (mismatchAlertDispatched s1); [exact H1|].
    eapply kept_trans; [exact H1 | apply kept_same; reflexivity].
Qed.

Lemma kept_bind {A B : Type} (r : Result A) (k : A -> State -> Result B) s :
  kept s (stateOf r) ->
  (forall a s1, kept s1 (stateOf (k a s1))) ->
  kept s (stateOf (bind r k)).
Proof.
  intros H Hk. destruct r as [a s1|s1]; cbn [bind stateOf] in *; [|exact H].
  eapply kept_trans; [exact H | apply Hk].
Qed.

Lemma kept_guarded (b : bool) k v s :
  kept s (stateOf (if b then setSelectValue k v s else Val false s)).
Proof. destruct b; [apply kept_setSelectValue | apply kept_refl]. Qed.

Lemma kept_updateSelectElements n p a d s :
  kept s (stateOf (updateSelectElements n p a d s)).
Proof.
  unfold updateSelectElements.
  eapply kept_trans; [apply kept_writeInput|].
  apply kept_bind; [apply kept_guarded|]. intros _ s2.
  apply kept_bind; [apply kept_guarded|]. intros _ s3.
  apply kept_bind; [apply kept_guarded|]. intros _ s4.
  apply kept_refl.
Qed.

Lemma kept_forEachDropdown l record s :
  kept s (stateOf (forEachDropdown l record s)).
Proof.
  revert s. induction l as [|[fieldName configName] l IH]; intros s; cbn [forEachDropdown].
  - apply kept_refl.
  - destruct (jsTruthy _ && hasSelect _ _); [|apply IH].
    apply kept_bind; [apply kept_setSelectValue|]. intros _ s1. apply IH.
Qed.

Lemma kept_named record s :
  kept s (if jsTruthy (attr record NAME_FIELD)
          then writeInput customEstablishmentName (toStr (attr record NAME_FIELD))
                 (writeInput officialEstablishmentName (toStr (attr record NAME_FIELD)) s)
          else s).
Proof.
  destruct (jsTruthy _); [|apply kept_refl].
  eapply kept_trans; apply kept_writeInput.
Qed.

Lemma kept_handleRedemptionCodeSelection record s :
  kept s (stateOf (handleRedemptionCodeSelection record s)).
Proof.
  unfold handleRedemptionCodeSelection.
  eapply kept_trans; [apply kept_named|].
  apply kept_bind; [apply kept_forEachDropdown|].
  intros _ s2. apply kept_updateSelectElements.
Qed.

Lemma kept_codeCatch s : kept s (codeCatch s).
Proof.
  unfold codeCatch.
  eapply kept_trans; [|apply kept_resetDependentFields].
  eapply kept_trans; [|apply kept_onField; reflexivity]. apply kept_onField; reflexivity.
Qed.

Lemma kept_codeFinally s : kept s (codeFinally s).
Proof. apply kept_onField. reflexivity. Qed.

Lemma kept_codeThen code data s : kept s (codeThen code data s).
Proof.
  unfold codeThen.
  eapply kept_trans; [|apply kept_codeFinally].
  destruct (records data) as [[|r rest]|].
  - eapply kept_trans; [|apply kept_resetDependentFields]. apply kept_onField; reflexivity.
  - set (s1 := onField redemptionCode _ s).
    assert (H1 : kept s s1) by (apply kept_onField; reflexivity).
    pose proof (kept_handleRedemptionCodeSelection r s1) as H2.
    destruct (handleRedemptionCodeSelection r s1) as [u s2|s2]; cbn [stateOf] in H2.
    + eapply kept_trans; [exact H1|]. eapply kept_trans; [exact H2|].
      eapply kept_trans; [|apply kept_updateFormSubmitState]. apply kept_same. reflexivity.
    + eapply kept_trans; [exact H1|]. eapply kept_trans; [exact H2 | apply kept_codeCatch].
  - apply kept_codeCatch.
Qed.

Lemma kept_nameThen query results s : kept s (nameThen query results s).
Proof.
  unfold nameThen.
  eapply kept_trans; [|apply kept_emit].
  eapply kept_trans; [|apply kept_onField; reflexivity]. apply kept_onField; reflexivity.
Qed.

Lemma kept_nameCatch s : kept s (nameCatch s).
Proof.
  unfold nameCatch.
  eapply kept_trans; [|apply kept_emit].
  eapply kept_trans; [|apply kept_onField; reflexivity]. apply kept_onField; reflexivity.
Qed.

Lemma kept_abortController c s : kept s (abortController c s).
Proof. apply kept_same. now destruct c. Qed.

Lemma kept_queried ch field query ctrl s :
  kept s (match queryAirtableContains ch field query ctrl s with
          | Resolved _ s' => s'
          | Issued s' => s'
          end).
Proof.
  apply kept_same. unfold queryAirtableContains.
  destruct (negb _); [reflexivity|].
  destruct (Cache.cacheGet _ _) as [[cached|] c']; reflexivity.
Qed.

Lemma kept_nameSource query s : kept s (nameSource query s).
Proof.
  unfold nameSource.
  set (s1 := onField officialEstablishmentName _ s).
  assert (H1 : kept s s1) by (apply kept_onField; reflexivity).
  destruct (String.length query <? 2)%nat.
  - eapply kept_trans; [exact H1|].
    eapply kept_trans; [|apply kept_emit]. apply kept_onField; reflexivity.
  - set (s2 := abortController (nameSearchController s1) s1).
    set (s3 := setNameSearchController _ _).
    assert (H3 : kept s s3).
    { eapply kept_trans; [exact H1|].
      apply (kept_trans s1 s2); [apply kept_abortController | apply kept_same; reflexivity]. }
    pose proof (kept_queried nameSearch NAME_FIELD query (nextController s2) s3) as H4.
    destruct (queryAirtableContains _ _ _ _ s3) as [data s4|s4].
    + eapply kept_trans; [exact H3|]. eapply kept_trans; [exact H4 | apply kept_nameThen].
    + eapply kept_trans; [exact H3 | exact H4].
Qed.

Lemma kept_onSelectItem item s : kept s (onSelectItem item s).
Proof.
  unfold onSelectItem.
  set (s1 := onField officialEstablishmentName _ s).
  assert (H1 : kept s s1) by (apply kept_onField; reflexivity).
  pose proof (kept_handleRedemptionCodeSelection (item_data item) s1) as H2.
  destruct (handleRedemptionCodeSelection _ s1) as [u s2|s2]; cbn [stateOf] in H2.
  - eapply kept_trans; [exact H1|]. eapply kept_trans; [exact H2|].
    eapply kept_trans; [|apply kept_updateFormSubmitState]. apply kept_same. reflexivity.
  - eapply kept_trans; [exact H1 | exact H2].
Qed.

Lemma kept_nameInputListener s : kept s (nameInputListener s).
Proof.
  unfold nameInputListener.
  set (s1 := if nameDiverged _ s then _ else s).
  assert (H1 : kept s s1).
  { subst s1. destruct (nameDiverged _ s); [apply kept_resetDependentFields | apply kept_refl]. }
  destruct (negb _); [|exact H1].
  eapply kept_trans; [exact H1 | apply kept_resetDependentFields].
Qed.

Lemma kept_nameBlurListener s : kept s (nameBlurListener s).
Proof.
  unfold nameBlurListener.
  destruct (_ || _); [apply kept_resetDependentFields | apply kept_refl].
Qed.

Lemma kept_handleInput s : kept s (handleInput s).
Proof.
  unfold handleInput.
  destruct (inputValue redemptionCode s) as [value|]; [|apply kept_refl].
  set (s2 := onField redemptionCode _ (resetFields [redemptionCode] s)).
  assert (H2 : kept s s2).
  { eapply kept_trans; [apply kept_resetFields | apply kept_onField; reflexivity]. }
  set (s3 := abortController (codeLookupController s2) s2).
  assert (H3 : kept s s3).
  { eapply kept_trans; [exact H2 | apply kept_abortController]. }
  destruct (negb (String.length (Js.trim value) =? 8)%nat).
  - eapply kept_trans; [exact H3|].
    eapply kept_trans; [|apply kept_resetDependentFields]. apply kept_onField; reflexivity.
  - set (s4 := onField redemptionCode (withSpinner true) s3).
    set (s5 := setCodeLookupController _ _).
    assert (H5 : kept s s5).
    { eapply kept_trans; [exact H3|].
      apply (kept_trans s3 s4); [apply kept_onField; reflexivity | apply kept_same; reflexivity]. }
    pose proof (kept_queried codeLookup "Redemption Code" (Js.trim value)
                  (nextController s4) s5) as H6.
    destruct (queryAirtableContains _ _ _ _ s5) as [data s6|s6].
    + eapply kept_trans; [exact H5|]. eapply kept_trans; [exact H6 | apply kept_codeThen].
    + eapply kept_trans; [exact H5 | exact H6].
Qed.

Lemma kept_settle ctrl o s : kept s (settle ctrl o s).
Proof.
  unfold settle.
  destruct (takeRequest ctrl (pending s)) as [[rq rest]|]; [|apply kept_refl].
  set (s1 := setPending rest s).
  assert (H1 : kept s s1) by (apply kept_same; reflexivity).
  eapply kept_trans; [exact H1|].
  destruct o as [data| |].
  - set (s2 := setAirtableCache _ s1).
    assert (H2 : kept s1 s2) by (apply kept_same; reflexivity).
    eapply kept_trans; [exact H2|].
    destruct (rq_channel rq); [apply kept_nameThen | apply kept_codeThen].
  - destruct (rq_channel rq); [apply kept_nameCatch|].
    eapply kept_trans; [apply kept_codeCatch | apply kept_codeFinally].
  - destruct (rq_channel rq); [apply kept_onField; reflexivity | apply kept_codeFinally].
Qed.

Lemma kept_setMode mode s : kept s (setMode mode s).
Proof.
  unfold setMode. cbv zeta.
  apply (kept_trans s (setCurrentMode mode s)); [apply kept_same; reflexivity|].
  apply (kept_trans _ (hideElements (hide (configOf mode)) (setCurrentMode mode s))).
  - apply kept_each. reflexivity.
  - apply kept_each, shape_preventEdit.
Qed.

Lemma kept_step e s : e <> EvReinitialize -> kept s (step e s).
Proof.
  intros He.
  destruct e; cbn [step]; try destruct (autocompleteInstance s); try apply kept_refl.
  all: try (exfalso; apply He; reflexivity).
  all: first [ apply kept_writeInput | apply kept_nameSource | apply kept_onSelectItem
             | apply kept_nameInputListener | apply kept_nameBlurListener
             | apply kept_handleInput | apply kept_settle | apply kept_clearAndResetForm
             | apply kept_setMode | apply kept_same; reflexivity ].
Qed.

Lemma kept_run evs s :
  Forall (fun e => e <> EvReinitialize) evs -> kept s (run evs s).
Proof.
  intros Hevs. revert s.
  induction Hevs as [|e evs He _ IH]; intros s; cbn [run fold_left].
  - apply kept_refl.
  - eapply kept_trans; [apply kept_step, He | apply IH].
Qed.

(** X8. No event other than a re-initialisation (which builds the
    bindings anew from the page) adds, removes or reorders a binding,
    changes a label, gives or takes a control, or touches the options of
    a select: typing, the widget's searches and selections, the settling
    of requests, the cooldown, a reset and a change of mode change
    values, selections, visibility, locks and messages only. *)
Theorem events_keep_the_markup (s : State) (evs : list Event) :
  NoDup (keysOf s) ->
  Forall (fun e => e <> EvReinitialize) evs ->
  shape (run evs s) = shape s.
Proof.
  intros Hn Hevs. now apply kept_run.
Qed.

Lemma events_keep_the_markup_witness :
  shape (run [EvUserEdit redemptionCode "ABCD1234"; EvCodeInput;
              EvSettle 0 (FetchOk {| records := Some [Sample.villa] |}); EvReset;
              EvSetMode "NAME_LOOKUP"]
           Sample.started) = shape Sample.started.
Proof.
  apply (events_keep_the_markup Sample.started).
  - vm_compute. repeat (constructor; [cbn; intuition discriminate|]). constructor.
  - repeat (constructor; [discriminate|]). constructor.
Defined.

End StructureFacts.

(** ** When the selection resolver fails *)

Module ResolverFacts.
Import Inv.
Import Ftg Structure Resolver FieldsFacts StructureFacts.

Lemma getField_shape (fs fs' : Fields) k :
  map (fun e => (fst e, fieldShape (snd e))) fs' =
  map (fun e => (fst e, fieldShape (snd e))) fs ->
  option_map fieldShape (getField k fs') = option_map fieldShape (getField k fs).
Proof.
  revert fs'. induction fs as [|[k0 f0] fs IH]; intros [|[k1 f1] fs']; cbn [map fst snd getField];
    try discriminate; [reflexivity|].
  intros E.
  assert (Hk : k1 = k0) by congruence.
  assert (Hf : fieldShape f1 = fieldShape f0) by congruence.
  assert (Ht : map (fun e => (fst e, fieldShape (snd e))) fs' =
               map (fun e => (fst e, fieldShape (snd e))) fs) by congruence.
  subst k1. destruct (FieldKey_beq k0 k); cbn [option_map]; [now rewrite Hf|].
  now apply IH.
Qed.

Lemma hasSelect_fieldShape k s :
  hasSelect k s = match option_map fieldShape (getField k (fields s)) with
                  | Some (_, _, Some _) => true
                  | _ => false
                  end.
Proof.
  unfold hasSelect. destruct (getField k (fields s)) as [f|]; [|reflexivity].
  cbn [option_map]. unfold fieldShape. now destruct (select f).
Qed.

Lemma hasSelect_shape k s s' : shape s' = shape s -> hasSelect k s' = hasSelect k s.
Proof.
  intros H. rewrite !hasSelect_fieldShape. now rewrite (getField_shape _ _ k H).
Qed.

Lemma unusable_shape record s s' m :
  shape s' = shape s -> unusable record s' m = unusable record s m.
Proof. intros H. unfold unusable. now rewrite (hasSelect_shape _ _ _ H). Qed.

Lemma existsb_same {A : Type} (f g : A -> bool) (l : list A) :
  (forall x, f x = g x) -> existsb f l = existsb g l.
Proof. intros H. induction l as [|x l IH]; cbn [existsb]; [reflexivity | now rewrite H, IH]. Qed.

Lemma threw_setSelectValue k v s :
  threw (setSelectValue k v s) = jsTruthy v && negb (isString v) && hasSelect k s.
Proof.
  unfold setSelectValue, hasSelect.
  destruct (getField k (fields s)) as [f|]; [|now rewrite andb_false_r].
  destruct (select f) as [sel|]; [|now rewrite andb_false_r].
  destruct v as [target|b shown]; cbn [jsTruthy isString negb].
  - rewrite andb_false_r. destruct (negb (Js.truthy target)); [reflexivity|].
    now destruct (findIndex _ _).
  - now destruct b.
Qed.

Lemma threw_guarded k v s :
  threw (if hasSelect k s then setSelectValue k (orEmpty v) s else Val false s) =
  jsTruthy v && negb (isString v) && hasSelect k s.
Proof.
  destruct (hasSelect k s) eqn:Hh; [|now rewrite andb_false_r].
  rewrite threw_setSelectValue, Hh. unfold orEmpty.
  destruct (jsTruthy v) eqn:Hv; [now rewrite Hv | reflexivity].
Qed.

Lemma threw_forEachDropdown l record s :
  NoDup (keysOf s) ->
  threw (forEachDropdown l record s) = existsb (unusable record s) l.
Proof.
  revert s. induction l as [|[n k] l IH]; intros s Hn; cbn [forEachDropdown existsb];
    [reflexivity|].
  unfold unusable at 1. cbn [fst snd].
  destruct (jsTruthy (attr record n)) eqn:Hv; cbn [andb]; [|now apply IH].
  destruct (hasSelect k s) eqn:Hh; cbn [andb]; [|rewrite andb_false_r; now apply IH].
  pose proof (threw_setSelectValue k (attr record n) s) as Ht.
  pose proof (kept_setSelectValue k (attr record n) s) as Hk.
  rewrite Hv, Hh, andb_true_r in Ht. cbn [andb] in Ht.
  destruct (setSelectValue k (attr record n) s) as [b s1|s1]; cbn [threw bind stateOf] in *.
  - rewrite <- Ht. cbn [orb]. rewrite (IH s1 (kept_NoDup _ _ Hk Hn)).
    apply existsb_same. intros m. apply unusable_shape. now apply Hk.
  - now rewrite <- Ht.
Qed.

Lemma existsb_ext_shape record s s' l :
  shape s' = shape s -> existsb (unusable record s') l = existsb (unusable record s) l.
Proof. intros H. apply existsb_same. intros m. now apply unusable_shape. Qed.

Lemma threw_updateSelectElements record name s :
  NoDup (keysOf s) ->
  existsb (unusable record s) dropdownMappings = false ->
  threw (updateSelectElements name
           (orEmpty (attr record "Partner Status"))
           (orEmpty (attr record "Award Level"))
           (orEmpty (attr record "Duties & Taxes")) s) = false.
Proof.
  intros Hn Hu. unfold dropdownMappings in Hu. cbn [existsb] in Hu.
  apply orb_false_elim in Hu. destruct Hu as [Ua Hu].
  apply orb_false_elim in Hu. destruct Hu as [_ Hu].
  apply orb_false_elim in Hu. destruct Hu as [Up Hu].
  apply orb_false_elim in Hu. destruct Hu as [Ud _].
  unfold updateSelectElements.
  set (s1 := writeInput customEstablishmentName (toStr name) s).
  assert (K1 : kept s s1) by apply kept_writeInput.
  pose proof (threw_guarded partnerStatus (attr record "Partner Status") s1) as T1.
  pose proof (kept_guarded (hasSelect partnerStatus s1) partnerStatus
                (orEmpty (attr record "Partner Status")) s1) as G1.
  rewrite (hasSelect_shape partnerStatus s s1 (K1 Hn)) in T1 at 2.
  unfold unusable in Up. cbn [fst snd] in Up. rewrite Up in T1.
  destruct (if hasSelect partnerStatus s1 then _ else _) as [b1 s2|s2];
    cbn [threw bind stateOf] in *; [|discriminate].
  assert (K2 : kept s s2) by (eapply kept_trans; eauto).
  pose proof (threw_guarded awardLevel (attr record "Award Level") s2) as T2.
  pose proof (kept_guarded (hasSelect awardLevel s2) awardLevel
                (orEmpty (attr record "Award Level")) s2) as G2.
  rewrite (hasSelect_shape awardLevel s s2 (K2 Hn)) in T2 at 2.
  unfold unusable in Ua. cbn [fst snd] in Ua. rewrite Ua in T2.
  destruct (if hasSelect awardLevel s2 then _ else _) as [b2 s3|s3];
    cbn [threw bind stateOf] in *; [|discriminate].
  assert (K3 : kept s s3) by (eapply kept_trans; eauto).
  pose proof (threw_guarded dutiesAndTaxes (attr record "Duties & Taxes") s3) as T3.
  rewrite (hasSelect_shape dutiesAndTaxes s s3 (K3 Hn)) in T3 at 2.
  unfold unusable in Ud. cbn [fst snd] in Ud. rewrite Ud in T3.
  destruct (if hasSelect dutiesAndTaxes s3 then _ else _) as [b3 s4|s4];
    cbn [threw bind stateOf] in *; [reflexivity | discriminate].
Qed.

Lemma threw_handleRedemptionCodeSelection record s :
  NoDup (keysOf s) ->
  threw (handleRedemptionCodeSelection record s) =
  existsb (unusable record s) dropdownMappings.
Proof.
  intros Hn. unfold handleRedemptionCodeSelection.
  set (s1 := if jsTruthy _ then _ else s).
  assert (K1 : kept s s1) by apply kept_named.
  rewrite <- (existsb_ext_shape record s s1 _ (K1 Hn)).
  pose proof (threw_forEachDropdown dropdownMappings record s1 (kept_NoDup _ _ K1 Hn)) as T.
  pose proof (kept_forEachDropdown dropdownMappings record s1) as K2.
  destruct (forEachDropdown dropdownMappings record s1) as [u s2|s2];
    cbn [threw bind stateOf] in *; [|exact T].
  rewrite <- T. apply threw_updateSelectElements.
  - exact (kept_NoDup _ _ K2 (kept_NoDup _ _ K1 Hn)).
  - rewrite (existsb_ext_shape record s1 s2 _ (K2 (kept_NoDup _ _ K1 Hn))). now rewrite <- T.
Qed.

(** X9. Resolving a record ends in an exception exactly when the record has,
    for one of the four dropdowns whose select the page has, an
    attribute that is truthy and not a string (a number, an array); a
    name of any type, a missing select or a value without a matching
    option never does. *)
Theorem resolver_fails_on_non_text_attribute (record : AirtableRecord) (s : State) :
  NoDup (keysOf s) ->
  threw (handleRedemptionCodeSelection record s) =
  existsb (unusable record s) dropdownMappings.
Proof. exact (threw_handleRedemptionCodeSelection record s). Qed.

Lemma resolver_fails_on_non_text_attribute_witness :
  threw (handleRedemptionCodeSelection numbered Sample.started) =
  existsb (unusable numbered Sample.started) dropdownMappings.
Proof.
  apply (resolver_fails_on_non_text_attribute numbered Sample.started).
  vm_compute. repeat (constructor; [cbn; intuition discriminate|]). constructor.
Defined.

End ResolverFacts.

(** ** What a resolved record leaves behind *)

Module SelectionFacts.
Import Inv.
Import Ftg Spec Structure Resolver.
Import FieldsFacts ResetFacts InvalidationFacts FrameFacts GatewayFacts SubmitFacts.
Import StructureFacts ResolverFacts.

Lemma idTruthy_idOrNull r : idTruthy (idOrNull r) = idTruthy (rec_id r).
Proof.
  unfold idOrNull. destruct (rec_id r) as [i|]; [|reflexivity].
  cbn [idTruthy]. destruct (Js.truthy i) eqn:E; cbn [idTruthy]; congruence.
Qed.

Lemma buttons_follow s f d :
  formEl s = true -> form (updateFormSubmitState s) = Some f -> In d (submitDisabled f) ->
  d = negb (idTruthy (ls_id (lastSelectedEstablishment s))).
Proof.
  intros Hfe. unfold updateFormSubmitState. rewrite Hfe. cbn [form setForm].
  destruct (form s) as [f0|]; [|discriminate]. cbn [option_map]. intros [= <-].
  cbn [submitDisabled]. intros Hin. apply in_map_iff in Hin. now destruct Hin as [_ [<- _]].
Qed.

Lemma recorded r s :
  ls_id (lastSelectedEstablishment (updateFormSubmitState (markSelection r s))) = idOrNull r /\
  (jsTruthy (attr r NAME_FIELD) = true ->
   ls_name (lastSelectedEstablishment (updateFormSubmitState (markSelection r s)))
   = Some (attr r NAME_FIELD)) /\
  (formEl s = true ->
   forall f d, form (updateFormSubmitState (markSelection r s)) = Some f ->
               In d (submitDisabled f) -> d = negb (idTruthy (rec_id r))).
Proof.
  destruct (updateFormSubmitState_fields (markSelection r s)) as (_ & Hl & _).
  rewrite Hl. cbn [markSelection lastSelectedEstablishment setLastSelected ls_id ls_name].
  split; [reflexivity|]. split.
  - intros Hn. unfold nameOrNull. now rewrite Hn.
  - intros Hfe f d Hf Hin. rewrite <- idTruthy_idOrNull.
    exact (buttons_follow (markSelection r s) f d Hfe Hf Hin).
Qed.

Lemma threw_after_onField r k g s :
  (forall f, fieldShape (g f) = fieldShape f) ->
  NoDup (keysOf s) ->
  threw (handleRedemptionCodeSelection r (onField k g s)) =
  existsb (unusable r s) dropdownMappings.
Proof.
  intros Hg Hn. pose proof (kept_onField k g s Hg) as K.
  rewrite (threw_handleRedemptionCodeSelection r _ (kept_NoDup _ _ K Hn)).
  apply existsb_ext_shape. now apply K.
Qed.

(** X10. A record that resolves without an exception becomes the selection,
    from the widget as from a code lookup: the identity is the record's
    id (null when it has none), the name is the record's name, and the
    submit buttons are enabled exactly when the id is truthy.  An option
    mismatch on the way, which resets the form, changes none of this. *)
Theorem resolved_record_becomes_selection (r : AirtableRecord) (s s' : State) :
  NoDup (keysOf s) ->
  existsb (unusable r s) dropdownMappings = false ->
  (exists item, item_data item = r /\ s' = onSelectItem item s) \/
  (exists code rest, s' = codeThen code {| records := Some (r :: rest) |} s) ->
  ls_id (lastSelectedEstablishment s') = idOrNull r /\
  (jsTruthy (attr r NAME_FIELD) = true ->
   ls_name (lastSelectedEstablishment s') = Some (attr r NAME_FIELD)) /\
  (formEl s = true ->
   forall f d, form s' = Some f -> In d (submitDisabled f) -> d = negb (idTruthy (rec_id r))).
Proof.
  intros Hn Hu [[item [<- ->]]|[code [rest ->]]].
  - unfold onSelectItem.
    set (s1 := onField officialEstablishmentName _ s).
    pose proof (threw_after_onField (item_data item) officialEstablishmentName
                  (fun f => withError None (withNoResults None f)) s
                  (fun f => eq_refl) Hn) as T.
    fold s1 in T. rewrite Hu in T.
    pose proof (resolves_handleRedemptionCodeSelection (item_data item) s1) as (_ & (_ & _ & Hfe) & _).
    destruct (handleRedemptionCodeSelection (item_data item) s1) as [u s2|s2];
      cbn [threw stateOf] in *; [|discriminate].
    destruct (recorded (item_data item) s2) as (A & B & C).
    split; [exact A|]. split; [exact B|]. intros E. apply C. now rewrite Hfe.
  - unfold codeThen. cbn [records].
    set (s1 := onField redemptionCode _ s).
    pose proof (threw_after_onField r redemptionCode
                  (fun f => withError None (withNoResults None f)) s
                  (fun f => eq_refl) Hn) as T.
    fold s1 in T. rewrite Hu in T.
    pose proof (resolves_handleRedemptionCodeSelection r s1) as (_ & (_ & _ & Hfe) & _).
    destruct (handleRedemptionCodeSelection r s1) as [u s2|s2];
      cbn [threw stateOf] in *; [|discriminate].
    destruct (recorded r s2) as (A & B & C).
    split; [exact A|]. split; [exact B|]. intros E. apply C. now rewrite Hfe.
Qed.

(** "Villa Rosa" picked from the suggestions on the sample page: its
    establishment type has no option, the form is reset, and the record
    is the selection all the same. *)
Lemma resolved_record_becomes_selection_witness :
  ls_id (lastSelectedEstablishment
           (onSelectItem (toItem Sample.villa) Sample.started)) = Some "recVilla".
Proof.
  refine (proj1 (resolved_record_becomes_selection Sample.villa Sample.started _ _ _ _)).
  - vm_compute. repeat (constructor; [cbn; intuition discriminate|]). constructor.
  - reflexivity.
  - left. exists (toItem Sample.villa). split; reflexivity.
Defined.

End SelectionFacts.

(** ** How a lookup ends *)

Module LookupFacts.
Import Inv.
Import Ftg Spec Structure Resolver.
Import FieldsFacts ResetFacts InvalidationFacts FrameFacts GatewayFacts SubmitFacts.
Import StructureFacts ResolverFacts SelectionFacts.

Lemma getField_onField k k' g s :
  getField k (fields (onField k' g s)) =
  if FieldKey_beq k k' then option_map g (getField k (fields s)) else getField k (fields s).
Proof. unfold onField. cbn [fields setFields]. apply getField_updField. Qed.

Lemma isReset_onField_elsewhere k0 g (names : list FieldKey) s :
  (forall f, input (g f) = input f /\ select (g f) = select f) ->
  (forall k f, In (k, f) (fields s) -> ~ In k names -> isReset f) ->
  forall k f, In (k, f) (fields (onField k0 g s)) -> ~ In k names -> isReset f.
Proof.
  intros Hg H k f' Hin Hk. unfold onField in Hin. cbn [fields setFields] in Hin.
  destruct (In_updField _ _ _ _ _ Hin) as [f [Hf ->]].
  pose proof (H k f Hf Hk) as Hr.
  destruct (FieldKey_beq k k0); [|exact Hr].
  destruct (Hg f) as [Ei Es]. exact (isReset_same_controls f (g f) Ei Es Hr).
Qed.

(** What the failure branch of a code lookup leaves. *)
Lemma codeCatch_outcome s :
  lastSelectedEstablishment (codeFinally (codeCatch s)) = noSelection /\
  (formEl s = true -> submitDisabledAll (codeFinally (codeCatch s))) /\
  getField redemptionCode (fields (codeFinally (codeCatch s))) =
    option_map (fun f => withSpinner false
                           (withError (Some (errorText s)) (withNoResults None f)))
               (getField redemptionCode (fields s)) /\
  (forall k f, In (k, f) (fields (codeFinally (codeCatch s))) ->
               ~ In k DEPENDENT_OF_CODE -> isReset f) /\
  log (codeFinally (codeCatch s)) = log s.
Proof.
  unfold codeCatch.
  set (s1 := onField redemptionCode (withNoResults None) s).
  set (pre := onField redemptionCode (withError (Some (errorText s1))) s1).
  pose proof (resetDependentFields_invalidates DEPENDENT_OF_CODE pre) as (L & R & K & S).
  split; [exact L|]. split; [|split; [|split]].
  - intros Hfe. exact (S Hfe).
  - unfold codeFinally. rewrite getField_onField. cbn [FieldKey_beq].
    rewrite (K redemptionCode) by (simpl; tauto).
    subst pre s1. rewrite !getField_onField. cbn [FieldKey_beq].
    destruct (getField redemptionCode (fields s)); reflexivity.
  - unfold codeFinally. apply isReset_onField_elsewhere; [now intros f | exact R].
  - unfold codeFinally, resetDependentFields, updateFormSubmitState.
    cbn [memKey existsb DEPENDENT_OF_CODE FieldKey_beq orb negb].
    destruct (formEl _); reflexivity.
Qed.

(** X11. When resolving the record ends in an exception, the widget's
    selection handler leaves the selection and the submit buttons it
    found (the rest of the handler does not run), and the code lookup
    treats it as a failed request: the selection is forgotten, the
    submit buttons are disabled and the connectivity message is shown
    under the code field. *)
Theorem failed_resolution_is_reported_as_failed_request
    (r : AirtableRecord) (s : State) :
  NoDup (keysOf s) ->
  existsb (unusable r s) dropdownMappings = true ->
  (forall item, item_data item = r ->
     lastSelectedEstablishment (onSelectItem item s) = lastSelectedEstablishment s /\
     form (onSelectItem item s) = form s) /\
  (forall code rest,
     lastSelectedEstablishment (codeThen code {| records := Some (r :: rest) |} s)
       = noSelection /\
     (formEl s = true ->
      submitDisabledAll (codeThen code {| records := Some (r :: rest) |} s)) /\
     (forall f, getField redemptionCode
                  (fields (codeThen code {| records := Some (r :: rest) |} s)) = Some f ->
                errorMsg f = Some (errorText s) /\ noResultsMsg f = None /\ spinner f = false)).
Proof.
  intros Hn Hu. split.
  - intros item <-. unfold onSelectItem.
    set (s1 := onField officialEstablishmentName _ s).
    pose proof (threw_after_onField (item_data item) officialEstablishmentName
                  (fun f => withError None (withNoResults None f)) s
                  (fun f => eq_refl) Hn) as T.
    fold s1 in T. rewrite Hu in T.
    pose proof (resolves_handleRedemptionCodeSelection (item_data item) s1)
      as (_ & (Hl & Hf & _) & _).
    destruct (handleRedemptionCodeSelection (item_data item) s1) as [u s2|s2];
      cbn [threw stateOf] in *; [discriminate|].
    split; [exact Hl | exact Hf].
  - intros code rest. unfold codeThen. cbn [records].
    set (s1 := onField redemptionCode _ s).
    pose proof (threw_after_onField r redemptionCode
                  (fun f => withError None (withNoResults None f)) s
                  (fun f => eq_refl) Hn) as T.
    fold s1 in T. rewrite Hu in T.
    pose proof (resolves_handleRedemptionCodeSelection r s1)
      as ((_ & _ & _ & _ & _ & _ & _ & _ & _ & _ & Ho & _) & (_ & _ & Hfe) & _).
    destruct (handleRedemptionCodeSelection r s1) as [u s2|s2];
      cbn [threw stateOf] in *; [discriminate|].
    destruct (codeCatch_outcome s2) as (A & B & C & _).
    split; [exact A|]. split; [intros E; apply B; now rewrite Hfe|].
    intros f Hf. rewrite C in Hf.
    destruct (getField redemptionCode (fields s2)) as [f2|]; [|discriminate].
    injection Hf as <-. cbn. unfold errorText. rewrite Ho. repeat split.
Qed.

Lemma failed_resolution_is_reported_as_failed_request_witness :
  lastSelectedEstablishment
    (codeThen "ABCD1234" {| records := Some [numbered] |} Sample.started) = noSelection.
Proof.
  refine (proj1 (proj2 (failed_resolution_is_reported_as_failed_request
                          numbered Sample.started _ _) "ABCD1234" [])).
  - vm_compute. repeat (constructor; [cbn; intuition discriminate|]). constructor.
  - reflexivity.
Defined.

Lemma settle_taken ctrl o s rq rest :
  takeRequest ctrl (pending s) = Some (rq, rest) ->
  settle ctrl o s =
  match o with
  | FetchOk data =>
      let s2 := setAirtableCache
                  (Cache.cacheSet (cacheKey (rq_field rq) (rq_query rq)) data
                     (airtableCache s)) (setPending rest s) in
      match rq_channel rq with
      | nameSearch => nameThen (rq_typed rq) (searchAirtableForAutocomplete data) s2
      | codeLookup => codeThen (rq_typed rq) data s2
      end
  | FetchError =>
      match rq_channel rq with
      | nameSearch => nameCatch (setPending rest s)
      | codeLookup => codeFinally (codeCatch (setPending rest s))
      end
  | FetchAbort =>
      match rq_channel rq with
      | nameSearch => nameAborted (setPending rest s)
      | codeLookup => codeFinally (setPending rest s)
      end
  end.
Proof. intros H. unfold settle. now rewrite H. Qed.

(** X12. A code lookup answered with no record: the request leaves the
    queue, "No Partner Early-Access Code matches" with the code as it
    was sent appears under the code field in place of the spinner, the
    typed code stays, the selection is forgotten, the submit buttons are
    disabled, every field but the code and the official name is reset,
    and the path sends no request, raises no notice, calls no widget
    callback and writes no mismatch message (what it prints on the
    console is not part of the model). *)
Theorem code_lookup_without_match (ctrl : nat) (s : State) (rq : Request)
    (rest : list Request) :
  takeRequest ctrl (pending s) = Some (rq, rest) ->
  rq_channel rq = codeLookup ->
  pending (settle ctrl (FetchOk {| records := Some [] |}) s) = rest /\
  log (settle ctrl (FetchOk {| records := Some [] |}) s) = log s /\
  lastSelectedEstablishment (settle ctrl (FetchOk {| records := Some [] |}) s)
    = noSelection /\
  (formEl s = true ->
   submitDisabledAll (settle ctrl (FetchOk {| records := Some [] |}) s)) /\
  getField redemptionCode (fields (settle ctrl (FetchOk {| records := Some [] |}) s)) =
    option_map (fun f => withSpinner false
                           (withNoResults (Some (noResultsText codeLookup (rq_typed rq))) f))
               (getField redemptionCode (fields s)) /\
  (forall k f, In (k, f) (fields (settle ctrl (FetchOk {| records := Some [] |}) s)) ->
               ~ In k [redemptionCode; officialEstablishmentName] -> isReset f).
Proof.
  intros Ht Hc. rewrite (settle_taken ctrl _ s rq rest Ht). cbv zeta. rewrite Hc.
  set (s2 := setAirtableCache _ (setPending rest s)).
  unfold codeThen. cbn [records].
  set (pre := onField redemptionCode _ s2).
  pose proof (resetDependentFields_invalidates DEPENDENT_OF_CODE pre) as (L & R & K & S).
  assert (Hq : log (resetDependentFields DEPENDENT_OF_CODE pre) = log pre /\
               pending (resetDependentFields DEPENDENT_OF_CODE pre) = pending pre).
  { unfold resetDependentFields, updateFormSubmitState.
    cbn [memKey existsb DEPENDENT_OF_CODE FieldKey_beq orb negb].
    destruct (formEl _); split; reflexivity. }
  destruct Hq as [Hq1 Hq2].
  split; [exact Hq2|]. split; [exact Hq1|]. split; [exact L|].
  split; [intros Hfe; exact (S Hfe)|]. split.
  - unfold codeFinally. rewrite getField_onField. cbn [FieldKey_beq].
    rewrite (K redemptionCode) by (simpl; tauto).
    subst pre. rewrite getField_onField. cbn [FieldKey_beq].
    subst s2. cbn [fields setAirtableCache setPending].
    destruct (getField redemptionCode (fields s)); reflexivity.
  - unfold codeFinally. apply isReset_onField_elsewhere; [now intros f | exact R].
Qed.

Lemma code_lookup_without_match_witness :
  lastSelectedEstablishment
    (settle 1 (FetchOk {| records := Some [] |}) twoCodes) = noSelection.
Proof.
  refine (proj1 (proj2 (proj2 (code_lookup_without_match 1 twoCodes _ _ _ _)))).
  - vm_compute. reflexivity.
  - reflexivity.
Defined.

(** X13. A request that fails (a status that is not a success, a network
    failure) stores nothing in the cache and raises no notice.  Under
    the field that asked, the message is the offline one when
    navigator.onLine is false and the generic one otherwise.  A failed
    name search hands the widget an empty list and keeps the selection;
    a failed code lookup forgets the selection, disables the submit
    buttons and resets every field but the code and the official name. *)
Theorem failed_request_reports_connectivity (ctrl : nat) (s : State) (rq : Request)
    (rest : list Request) :
  takeRequest ctrl (pending s) = Some (rq, rest) ->
  airtableCache (settle ctrl FetchError s) = airtableCache s /\
  pending (settle ctrl FetchError s) = rest /\
  alerts (log (settle ctrl FetchError s)) = alerts (log s) /\
  errorText s = (if online s
                 then "Something went wrong fetching results. Please try again."
                 else "You appear to be offline. Check your connection and try again.") /\
  match rq_channel rq with
  | nameSearch =>
      log (settle ctrl FetchError s) = log s ++ [Callback []] /\
      lastSelectedEstablishment (settle ctrl FetchError s) = lastSelectedEstablishment s /\
      form (settle ctrl FetchError s) = form s /\
      getField officialEstablishmentName (fields (settle ctrl FetchError s)) =
        option_map (fun f => withError (Some (errorText s))
                               (withNoResults None (withSpinner false f)))
                   (getField officialEstablishmentName (fields s))
  | codeLookup =>
      log (settle ctrl FetchError s) = log s /\
      lastSelectedEstablishment (settle ctrl FetchError s) = noSelection /\
      (formEl s = true -> submitDisabledAll (settle ctrl FetchError s)) /\
      getField redemptionCode (fields (settle ctrl FetchError s)) =
        option_map (fun f => withSpinner false
                               (withError (Some (errorText s)) (withNoResults None f)))
                   (getField redemptionCode (fields s)) /\
      (forall k f, In (k, f) (fields (settle ctrl FetchError s)) ->
                   ~ In k [redemptionCode; officialEstablishmentName] -> isReset f)
  end.
Proof.
  intros Ht. rewrite (settle_taken ctrl _ s rq rest Ht).
  split; [|split; [|split; [|split; [reflexivity|]]]].
  - destruct (rq_channel rq).
    + now destruct (local_nameCatch (setPending rest s))
        as (_ & _ & _ & _ & _ & _ & -> & _).
    + destruct (local_codeFinally (codeCatch (setPending rest s)))
        as (_ & _ & _ & _ & _ & _ & -> & _).
      now destruct (local_codeCatch (setPending rest s))
        as (_ & _ & _ & _ & _ & _ & -> & _).
  - destruct (rq_channel rq).
    + now destruct (local_nameCatch (setPending rest s))
        as (_ & _ & _ & _ & _ & _ & _ & _ & _ & -> & _).
    + destruct (local_codeFinally (codeCatch (setPending rest s)))
        as (_ & _ & _ & _ & _ & _ & _ & _ & _ & -> & _).
      now destruct (local_codeCatch (setPending rest s))
        as (_ & _ & _ & _ & _ & _ & _ & _ & _ & -> & _).
  - destruct (rq_channel rq).
    + unfold nameCatch, emit. cbn [log setLog]. rewrite alerts_app. cbn. apply app_nil_r.
    + destruct (codeCatch_outcome (setPending rest s)) as (_ & _ & _ & _ & ->). reflexivity.
  - destruct (rq_channel rq).
    + split; [reflexivity|]. split; [reflexivity|]. split; [reflexivity|].
      unfold nameCatch, emit. cbn [fields setLog]. rewrite !getField_onField.
      cbn [FieldKey_beq]. cbn [fields setPending].
      destruct (getField officialEstablishmentName (fields s)); reflexivity.
    + destruct (codeCatch_outcome (setPending rest s)) as (A & B & C & D & E).
      split; [exact E|]. split; [exact A|]. split; [exact B|]. split; [exact C | exact D].
Qed.

Lemma failed_request_reports_connectivity_witness :
  airtableCache (settle 1 FetchError twoCodes) = airtableCache twoCodes.
Proof.
  refine (proj1 (failed_request_reports_connectivity 1 twoCodes _ _ _)).
  vm_compute. reflexivity.
Defined.

End LookupFacts.

(** ** Answers are remembered *)

Module MemoFacts.
Import Inv.
Import Ftg Spec.
Import FieldsFacts FrameFacts GatewayFacts LookupFacts.

Lemma cacheGet_of_get (V : Type) k v (c : Cache.t V) :
  Cache.get k c = Some v ->
  Cache.cacheGet k c = (Some v, Cache.set k v (Cache.delete k c)).
Proof.
  intros H. unfold Cache.cacheGet. destruct (Cache.has k c) eqn:Hh; cbn [negb].
  - now rewrite H.
  - apply CacheFacts.has_false_notin in Hh.
    rewrite (CacheFacts.get_notin V k c Hh) in H. discriminate.
Qed.

Lemma cache_after_answer ctrl data s rq rest :
  takeRequest ctrl (pending s) = Some (rq, rest) ->
  airtableCache (settle ctrl (FetchOk data) s) =
  Cache.cacheSet (cacheKey (rq_field rq) (rq_query rq)) data (airtableCache s).
Proof.
  intros Ht. rewrite (settle_taken ctrl _ s rq rest Ht). cbv zeta.
  destruct (rq_channel rq).
  - now destruct (local_nameThen (rq_typed rq) (searchAirtableForAutocomplete data)
        (setAirtableCache
           (Cache.cacheSet (cacheKey (rq_field rq) (rq_query rq)) data (airtableCache s))
           (setPending rest s))) as (_ & _ & _ & _ & _ & _ & -> & _).
  - now destruct (local_codeThen (rq_typed rq) data
        (setAirtableCache
           (Cache.cacheSet (cacheKey (rq_field rq) (rq_query rq)) data (airtableCache s))
           (setPending rest s))) as (_ & _ & _ & _ & _ & _ & -> & _).
Qed.

(** X14. Once a request has been answered, the next query for the same field
    and the same text, whatever its letter case and the white space
    around it, is answered from the cache with the body that came back:
    no fetch is issued, on either channel. *)
Theorem answered_query_is_remembered (ctrl : nat) (data : QueryResult) (s : State)
    (rq : Request) (rest : list Request) (ch : Channel) (query : string) (ctrl' : nat) :
  takeRequest ctrl (pending s) = Some (rq, rest) ->
  Js.truthy (Js.trim query) = true ->
  Js.toLowerCase (Js.trim query) = Js.toLowerCase (rq_query rq) ->
  exists c,
    queryAirtableContains ch (rq_field rq) query ctrl' (settle ctrl (FetchOk data) s)
    = Resolved data (setAirtableCache c (settle ctrl (FetchOk data) s)).
Proof.
  intros Ht Hq Hl. unfold queryAirtableContains. rewrite Hq. cbn [negb].
  rewrite (cache_after_answer ctrl data s rq rest Ht).
  assert (Hk : cacheKey (rq_field rq) (Js.trim query)
               = cacheKey (rq_field rq) (rq_query rq)).
  { unfold cacheKey. now rewrite Hl. }
  rewrite Hk.
  assert (Hg : Cache.get (cacheKey (rq_field rq) (rq_query rq))
                 (Cache.cacheSet (cacheKey (rq_field rq) (rq_query rq)) data
                    (airtableCache s)) = Some data).
  { apply CacheMore.get_after_cacheSetN. unfold Cache.MAX_CACHE. lia. }
  rewrite (cacheGet_of_get _ _ _ _ Hg). eexists. reflexivity.
Qed.

(** "WXYZ5678" answered, then " wxyz5678 " asked. *)
Lemma answered_query_is_remembered_witness :
  exists c,
    queryAirtableContains codeLookup "Redemption Code" " wxyz5678 " 7
      (settle 1 (FetchOk {| records := Some [Sample.amanTokyo] |}) twoCodes)
    = Resolved {| records := Some [Sample.amanTokyo] |}
        (setAirtableCache c
           (settle 1 (FetchOk {| records := Some [Sample.amanTokyo] |}) twoCodes)).
Proof.
  refine (answered_query_is_remembered 1 {| records := Some [Sample.amanTokyo] |} twoCodes
            {| rq_ctrl := 1; rq_channel := codeLookup; rq_field := "Redemption Code";
               rq_query := "WXYZ5678"; rq_typed := "WXYZ5678" |} _
            codeLookup " wxyz5678 " 7 _ _ _).
  - vm_compute. reflexivity.
  - reflexivity.
  - vm_compute. reflexivity.
Defined.

End MemoFacts.

(** ** Network calls of the name search, and what an input cancels *)

Module TrafficMore.
Import Inv.
Import Ftg Spec.
Import FieldsFacts FrameFacts GatewayFacts TrafficFacts LookupFacts.

(** X15. The suggestion source of the name field.  A query of fewer than two
    characters calls back with no suggestion, removes the spinner and
    the messages, and touches neither the network nor a running search.
    A longer query first aborts the running search and takes a new
    controller; then a query that is white space only is answered
    without the network as "no match", one the cache does not hold
    issues exactly one fetch for the trimmed text, and one the cache
    holds issues none. *)
Theorem name_source_network_calls (s : State) (query : string) :
  (String.length query < 2 ->
     log (nameSource query s) = log s ++ [Callback []] /\
     pending (nameSource query s) = pending s /\
     aborted (nameSource query s) = aborted s /\
     nameSearchController (nameSource query s) = nameSearchController s /\
     nextController (nameSource query s) = nextController s /\
     forall f, getField officialEstablishmentName (fields (nameSource query s)) = Some f ->
               spinner f = false /\ errorMsg f = None /\ noResultsMsg f = None) /\
  (2 <= String.length query ->
     nameSearchController (nameSource query s) = Some (nextController s) /\
     nextController (nameSource query s) = S (nextController s) /\
     (forall c, nameSearchController s = Some c -> In c (aborted (nameSource query s))) /\
     (Js.truthy (Js.trim query) = false ->
        log (nameSource query s) = log s ++ [Callback []] /\
        pending (nameSource query s) = pending s /\
        forall f, getField officialEstablishmentName (fields (nameSource query s)) = Some f ->
                  noResultsMsg f = Some (noResultsText nameSearch query)) /\
     (Js.truthy (Js.trim query) = true ->
      Cache.has (cacheKey NAME_FIELD (Js.trim query)) (airtableCache s) = false ->
        log (nameSource query s)
          = log s ++ [Fetch (nextController s) NAME_FIELD (Js.trim query)] /\
        pending (nameSource query s)
          = pending s ++ [{| rq_ctrl := nextController s; rq_channel := nameSearch;
                             rq_field := NAME_FIELD; rq_query := Js.trim query;
                             rq_typed := query |}]) /\
     (Js.truthy (Js.trim query) = true ->
      Cache.has (cacheKey NAME_FIELD (Js.trim query)) (airtableCache s) = true ->
        fetches (log (nameSource query s)) = fetches (log s) /\
        pending (nameSource query s) = pending s)).
Proof.
  unfold nameSource.
  set (s1 := onField officialEstablishmentName _ s).
  split.
  - intros Hlen. apply Nat.ltb_lt in Hlen. rewrite Hlen.
    repeat (split; [reflexivity|]).
    intros f. unfold emit. cbn [fields setLog]. subst s1. rewrite !getField_onField.
    cbn [FieldKey_beq].
    destruct (getField officialEstablishmentName (fields s)) as [f0|]; [|discriminate].
    cbn [option_map]. intros [= <-]. repeat split.
  - intros Hlen. apply Nat.ltb_ge in Hlen. rewrite Hlen.
    set (s2 := abortController (nameSearchController s1) s1).
    set (s3 := setNameSearchController _ _).
    assert (F2 : nextController s2 = nextController s /\ log s2 = log s /\
                 pending s2 = pending s /\ airtableCache s2 = airtableCache s /\
                 fields s2 = fields s1 /\
                 forall c, nameSearchController s = Some c -> In c (aborted s2)).
    { subst s2. unfold abortController. change (nameSearchController s1)
        with (nameSearchController s).
      destruct (nameSearchController s) as [c0|]; repeat split; try discriminate.
      intros c [= <-]. now left. }
    destruct F2 as (Hnext & Hlog & Hpend & Hcache & Hfields & Hab).
    assert (F3 : log s3 = log s /\ pending s3 = pending s /\
                 airtableCache s3 = airtableCache s /\ aborted s3 = aborted s2 /\
                 nameSearchController s3 = Some (nextController s) /\
                 nextController s3 = S (nextController s) /\ fields s3 = fields s1).
    { subst s3. cbn. now rewrite Hnext, Hlog, Hpend, Hcache, Hfields. }
    destruct F3 as (Hlog3 & Hpend3 & Hcache3 & Hab3 & Hc3 & Hn3 & Hf3).
    rewrite Hnext. unfold queryAirtableContains.
    destruct (Js.truthy (Js.trim query)) eqn:Ht; cbn [negb].
    + destruct (Cache.has (cacheKey NAME_FIELD (Js.trim query)) (airtableCache s)) eqn:Hh.
      * rewrite Hcache3. destruct (has_hit _ _ _ Hh) as [v [c' ->]].
        destruct (local_nameThen query (searchAirtableForAutocomplete v)
                    (setAirtableCache c' s3))
          as (_ & _ & _ & Hnc & _ & _ & _ & Ha & Hx & Hp & _ & Hf).
        split; [exact (eq_trans Hnc Hc3)|]. split; [exact (eq_trans Hx Hn3)|].
        split; [intros c Hc; rewrite Ha; apply (Hab c) in Hc;
                rewrite <- Hab3 in Hc; exact Hc|].
        split; [intros E; discriminate E|]. split; [intros _ E; discriminate E|].
        intros _ _. split; [|exact (eq_trans Hp Hpend3)].
        rewrite Hf. exact (f_equal fetches Hlog3).
      * rewrite Hcache3, (has_get _ _ _ Hh).
        split; [exact Hc3|]. split; [exact Hn3|].
        split; [intros c Hc; apply (Hab c) in Hc; rewrite <- Hab3 in Hc; exact Hc|].
        split; [intros E; discriminate E|]. split; [|intros _ E; discriminate E].
        intros _ _. cbn [pending log setPending emit setLog].
        now rewrite Hlog3, Hpend3.
    + pose proof (local_nameThen query (searchAirtableForAutocomplete {| records := Some [] |}) s3)
        as (_ & _ & _ & Hnc & _ & _ & _ & Ha & Hx & Hp & _ & Hf).
      split; [exact (eq_trans Hnc Hc3)|]. split; [exact (eq_trans Hx Hn3)|].
      split; [intros c Hc; rewrite Ha; apply (Hab c) in Hc; rewrite <- Hab3 in Hc; exact Hc|].
      split; [|split; [intros E; discriminate E | intros E; discriminate E]].
      intros _. split; [|split; [exact (eq_trans Hp Hpend3)|]].
      * unfold nameThen, emit. cbn [searchAirtableForAutocomplete records map filter].
        cbn [log setLog onField setFields]. now rewrite Hlog3.
      * intros f. unfold nameThen, emit.
        cbn [searchAirtableForAutocomplete records map filter].
        cbn [fields setLog]. rewrite !getField_onField. cbn [FieldKey_beq]. rewrite Hf3.
        destruct (getField officialEstablishmentName (fields s1)) as [f0|]; [|discriminate].
        cbn [option_map]. now intros [= <-].
Qed.

Lemma queried_traffic ch field query ctrl s :
  match queryAirtableContains ch field query ctrl s with
  | Resolved _ s' => aborted s' = aborted s /\ pending s' = pending s
  | Issued s' =>
      aborted s' = aborted s /\
      forall rq, In rq (pending s') -> In rq (pending s) \/ rq_ctrl rq = ctrl
  end.
Proof.
  unfold queryAirtableContains. destruct (negb _); [now split|].
  destruct (Cache.cacheGet _ _) as [[cached|] c']; [now split|].
  split; [reflexivity|]. cbn [pending setPending]. intros rq Hin.
  apply in_app_or in Hin. destruct Hin as [Hin|[<-|[]]]; [now left | now right].
Qed.

Lemma aborted_afterAbort s :
  pending (afterAbort s) = pending s /\
  nextController (afterAbort s) = nextController s /\
  (forall x, In x (aborted s) -> In x (aborted (afterAbort s))) /\
  (forall c, codeLookupController s = Some c -> In c (aborted (afterAbort s))).
Proof.
  unfold afterAbort, abortController.
  change (codeLookupController
            (onField redemptionCode
               (fun f => withHelp None (withError None (withNoResults None f)))
               (resetFields [redemptionCode] s))) with (codeLookupController s).
  destruct (codeLookupController s) as [c0|]; repeat split; try discriminate; auto.
  - intros x Hx. now right.
  - intros c [= <-]. now left.
Qed.

Lemma handleInput_traffic s value :
  inputValue redemptionCode s = Some value ->
  (forall x, In x (aborted s) -> In x (aborted (handleInput s))) /\
  (forall c, codeLookupController s = Some c -> In c (aborted (handleInput s))) /\
  (forall rq, In rq (pending (handleInput s)) ->
              In rq (pending s) \/ rq_ctrl rq = nextController s).
Proof.
  intros Hval. unfold handleInput. rewrite Hval. fold (afterAbort s).
  destruct (aborted_afterAbort s) as (Hp & Hn & Ha & Hc).
  destruct (negb (String.length (Js.trim value) =? 8)%nat).
  - set (pre := onField redemptionCode (withHelp (Some lengthHelpText)) (afterAbort s)).
    destruct (local_resetDependentFields DEPENDENT_OF_CODE pre)
      as (_ & _ & _ & _ & _ & _ & _ & Hab & _ & Hpe & _).
    rewrite Hab, Hpe. subst pre. cbn [aborted pending onField setFields]. rewrite Hp.
    split; [exact Ha|]. split; [exact Hc|]. intros rq Hin. now left.
  - set (s4 := onField redemptionCode (withSpinner true) (afterAbort s)).
    set (s5 := setCodeLookupController _ _).
    assert (H5 : aborted s5 = aborted (afterAbort s) /\ pending s5 = pending s /\
                 nextController s4 = nextController s).
    { subst s5 s4. cbn. now rewrite Hp, Hn. }
    destruct H5 as (Hab5 & Hp5 & Hn4).
    pose proof (queried_traffic codeLookup "Redemption Code" (Js.trim value)
                  (nextController s4) s5) as Hq.
    destruct (queryAirtableContains _ _ _ _ s5) as [data s6|s6].
    + destruct Hq as [Hqa Hqp].
      destruct (local_codeThen (Js.trim value) data s6)
        as (_ & _ & _ & _ & _ & _ & _ & Hab & _ & Hpe & _).
      rewrite Hab, Hpe, Hqa, Hqp, Hab5, Hp5.
      split; [exact Ha|]. split; [exact Hc|]. intros rq Hin. now left.
    + destruct Hq as [Hqa Hqp]. rewrite Hqa, Hab5.
      split; [exact Ha|]. split; [exact Hc|]. intros rq Hin.
      destruct (Hqp rq Hin) as [H|H]; [left; now rewrite <- Hp5 | right; now rewrite <- Hn4].
Qed.

(** X16. After an input event on the code field, whatever the length of the
    code, every code lookup still in flight has been aborted, but for
    the one the event itself may have issued. *)
Theorem code_input_cancels_running_lookups (s : State) (value : string) :
  reachable s ->
  inputValue redemptionCode s = Some value ->
  forall rq, In rq (pending (step EvCodeInput s)) -> rq_channel rq = codeLookup ->
    rq_ctrl rq = nextController s \/ In (rq_ctrl rq) (aborted (step EvCodeInput s)).
Proof.
  intros Hr Hval rq Hin Hch. cbn [step] in *.
  destruct (handleInput_traffic s value Hval) as (Ha & Hc & Hp).
  destruct (Hp rq Hin) as [Hold|Hnew]; [|now left]. right.
  destruct (ordered_reachable s Hr) as [Ho _].
  destruct (Ho rq Hold) as [c (Ec & _ & Hne)].
  rewrite Hch in Ec. cbn [controllerOf] in Ec.
  destruct (Nat.eq_dec (rq_ctrl rq) c) as [->|Hd].
  - now apply Hc.
  - apply Ha. now apply Hne.
Qed.

(** A lookup of "ABCD1234" in flight when "AB" is typed: it is aborted
    and nothing replaces it. *)
Lemma code_input_cancels_running_lookups_witness :
  In 0 (aborted (step EvCodeInput
                   (run [EvUserEdit redemptionCode "ABCD1234"; EvCodeInput;
                         EvUserEdit redemptionCode "AB"] Sample.started))).
Proof.
  assert (Hr : reachable (run [EvUserEdit redemptionCode "ABCD1234"; EvCodeInput;
                               EvUserEdit redemptionCode "AB"] Sample.started)).
  { apply reachable_run.
    exact (reach_init Sample.page (Some Sample.theForm) CODE_LOOKUP true). }
  destruct (code_input_cancels_running_lookups _ "AB" Hr eq_refl
              {| rq_ctrl := 0; rq_channel := codeLookup; rq_field := "Redemption Code";
                 rq_query := "ABCD1234"; rq_typed := "ABCD1234" |}) as [H|H].
  - vm_compute. now left.
  - reflexivity.
  - vm_compute in H. discriminate.
  - exact H.
Defined.

End TrafficMore.

(** ** Doing it twice *)

Module IdempotenceFacts.
Import Inv.
Import Ftg Spec Structure.
Import FieldsFacts ModeFacts ResetFacts.

Lemma setMode_twice mode s : setMode mode (setMode mode s) = setMode mode s.
Proof.
  rewrite (setMode_char mode (setMode mode s)), (setMode_char mode s).
  cbn [fields setFields setCurrentMode]. unfold setFields, setCurrentMode. cbn.
  f_equal. rewrite map_map. apply map_ext. intros [k f]. cbn [fst snd].
  now rewrite entered_idem.
Qed.

(** X17. Entering the mode the page is in changes nothing, so neither does a
    second FTGForm.setMode with the same name or a second
    FTGForm.reinitialize; and a name that is no mode is recorded as the
    current mode without hiding or locking anything. *)
Theorem reapplying_a_mode_changes_nothing (mode : string) (s : State) :
  setMode mode (setMode mode s) = setMode mode s /\
  initializeFields (initializeFields s) = initializeFields s /\
  (MODES mode = None -> setMode mode s = setCurrentMode mode s).
Proof.
  split; [apply setMode_twice|]. split.
  - unfold initializeFields.
    assert (E : currentMode (setMode (currentMode s) s) = currentMode s).
    { rewrite setMode_char. reflexivity. }
    rewrite E. apply setMode_twice.
  - intros H. unfold setMode, configOf. rewrite H. reflexivity.
Qed.

Lemma clearAndResetForm_char s :
  clearAndResetForm s =
  setFields (map (fun e => (fst e,
                            resetOne (currentMode s)
                              (negb (String.eqb (currentMode s) CODE_LOOKUP)
                               && autocompleteInstance s)
                              (fst e) (snd e))) (fields s)) s.
Proof.
  unfold clearAndResetForm. cbv zeta. rewrite preventInteraction_char.
  fold (preventListOf (currentMode s)). unfold resetFields.
  cbn [fields setFields resetFields currentMode autocompleteInstance].
  destruct (negb (String.eqb (currentMode s) CODE_LOOKUP) && autocompleteInstance s) eqn:Hb.
  - unfold writeInput, onField, updField, onEach. cbn [fields setFields].
    rewrite setFields_setFields, !map_map. rewrite !setFields_setFields. f_equal.
    apply map_ext. intros [k f]. cbn [fst snd memKey existsb].
    unfold resetOne. cbv zeta.
    destruct (FieldKey_beq k officialEstablishmentName); cbn [fst snd andb]; reflexivity.
  - unfold onEach. rewrite !map_map, !setFields_setFields. f_equal.
    apply map_ext. intros [k f]. cbn [fst snd memKey existsb].
    unfold resetOne. cbv zeta. now rewrite andb_false_r.
Qed.

Lemma resetSelect_idem sel : resetSelect (resetSelect sel) = resetSelect sel.
Proof. now destruct sel as [[|o os] si s2]. Qed.

Lemma resetOne_idem mode named k f :
  resetOne mode named k (resetOne mode named k f) = resetOne mode named k f.
Proof.
  unfold resetOne. cbv zeta.
  destruct (memKey k (preventListOf mode)), (FieldKey_beq k officialEstablishmentName), named;
    destruct f as [l [i|] [[[|o os] si [|]]|] h lk m e n sp hp]; reflexivity.
Qed.

(** X18. A reset of a form that has just been reset changes nothing. *)
Theorem reset_twice_is_reset_once (s : State) :
  clearAndResetForm (clearAndResetForm s) = clearAndResetForm s.
Proof.
  rewrite (clearAndResetForm_char (clearAndResetForm s)), (clearAndResetForm_char s).
  cbn [fields setFields currentMode autocompleteInstance].
  rewrite setFields_setFields, map_map. f_equal.
  apply map_ext. intros [k f]. cbn [fst snd]. now rewrite resetOne_idem.
Qed.

End IdempotenceFacts.

(** ** A record the page can show *)

Module PopulateFacts.
Import Inv.
Import Ftg Spec Structure Resolver.
Import FieldsFacts FrameFacts StructureFacts ResolverFacts LookupFacts.

Lemma NoDup_of_shape s s0 : shape s = shape s0 -> NoDup (keysOf s0) -> NoDup (keysOf s).
Proof. intros H Hn. rewrite <- keysOf_shape, H, keysOf_shape. exact Hn. Qed.

Lemma fieldShape_select f f' sel :
  fieldShape f' = fieldShape f -> select f = Some sel ->
  exists sel', select f' = Some sel' /\ options sel' = options sel /\
               select2 sel' = select2 sel.
Proof.
  unfold fieldShape. intros E Hs. rewrite Hs in E.
  destruct (select f') as [sel'|]; cbn [option_map] in E; [|discriminate].
  exists sel'. split; [reflexivity|]. split; congruence.
Qed.

Lemma getField_same_shape s s' k f :
  shape s' = shape s -> getField k (fields s) = Some f ->
  exists f', getField k (fields s') = Some f' /\ fieldShape f' = fieldShape f.
Proof.
  intros H Hg. pose proof (getField_shape (fields s) (fields s') k H) as E.
  rewrite Hg in E. destruct (getField k (fields s')) as [f'|]; cbn [option_map] in E;
    [|discriminate].
  exists f'. split; [reflexivity | congruence].
Qed.

Lemma dropdown_key_unique n n' k :
  In (n, k) dropdownMappings -> In (n', k) dropdownMappings -> n' = n.
Proof.
  unfold dropdownMappings. cbn [In].
  intros [E|[E|[E|[E|[]]]]] [E'|[E'|[E'|[E'|[]]]]]; congruence.
Qed.

Lemma dropdown_key_in n k : In (n, k) dropdownMappings -> In k (map snd dropdownMappings).
Proof. intros H. exact (in_map snd _ _ H). Qed.

Lemma hasSelect_false_no_select k s f sel :
  hasSelect k s = false -> getField k (fields s) = Some f -> select f = Some sel -> False.
Proof. unfold hasSelect. intros H Hg Hs. rewrite Hg, Hs in H. discriminate. Qed.

Lemma selectedBy_same (sel sel0 : SelectEl) (i : nat) :
  options sel = options sel0 -> select2 sel = select2 sel0 ->
  selectedBy sel i = selectedBy sel0 i.
Proof. intros Ho H2. unfold selectedBy. now rewrite Ho, H2. Qed.

Lemma set_showable r s0 sb done s n k :
  NoDup (keysOf s0) ->
  resolving r s0 sb done s ->
  In (n, k) dropdownMappings ->
  showable r s0 (n, k) = true ->
  (forall m, In m done -> In m dropdownMappings) ->
  exists s',
    resolving r s0 sb ((n, k) :: done) s' /\
    (jsTruthy (attr r n) = true -> hasSelect k s = true ->
     setSelectValue k (attr r n) s = Val true s') /\
    (jsTruthy (attr r n) && hasSelect k s = false -> s' = s).
Proof.
  intros Hn (Hsh & Hlog & Hflag & Hdone & Hfalsy & Hother) Hin Hshow Hsub.
  destruct (jsTruthy (attr r n) && hasSelect k s) eqn:Hc.
  - apply andb_prop in Hc. destruct Hc as [Hv Hh].
    assert (Hh0 : hasSelect k s0 = true) by (now rewrite <- (hasSelect_shape k s0 s Hsh)).
    unfold showable in Hshow. cbn [fst snd] in Hshow. rewrite Hv, Hh0 in Hshow.
    cbn [negb orb] in Hshow.
    destruct (pick (attr r n) k s0) as [i|] eqn:Hp; [|discriminate].
    pose proof Hp as Hp'. unfold pick in Hp'.
    destruct (attr r n) as [t|b shown] eqn:Ha; [|discriminate].
    destruct (getField k (fields s0)) as [f0|] eqn:Hg0; [|discriminate].
    destruct (select f0) as [sel0|] eqn:Hs0; [|discriminate].
    destruct (findIndex (optionMatches (Js.toLowerCase t)) (options sel0)) as [i0|] eqn:Hfi;
      [|discriminate].
    cbn [option_map] in Hp'. injection Hp' as Hi.
    destruct (getField_same_shape s0 s k f0 Hsh Hg0) as [f [Hg Hf]].
    destruct (fieldShape_select f0 f sel0 Hf Hs0) as [sel (Hs & Ho & H2)].
    assert (Hset : setSelectValue k (JStr t) s =
                   Val true (onField k (fun f1 =>
                     withMismatch None
                       (withSelect (Some {| options := options sel; selectedIndex := Some i;
                                            select2 := select2 sel |}) f1)) s)).
    { unfold setSelectValue. rewrite Hg, Hs. cbn [jsTruthy] in Hv. cbn [jsTruthy].
      rewrite Hv. cbn [negb]. rewrite Ho, Hfi.
      rewrite <- Ho, (selectedBy_same sel sel0 i0 Ho H2), Hi. reflexivity. }
    eexists. split; [|split; [intros _ _; exact Hset | intros E; discriminate E]].
    assert (Hpre : forall k', k' <> k ->
              getField k' (fields (onField k (fun f1 =>
                     withMismatch None
                       (withSelect (Some {| options := options sel; selectedIndex := Some i;
                                            select2 := select2 sel |}) f1)) s))
              = getField k' (fields s)).
    { intros k' Hne. rewrite getField_onField.
      destruct (FieldKey_beq_spec k' k); [contradiction | reflexivity]. }
    split; [|split; [exact Hlog | split; [exact Hflag | split; [|split]]]].
    + pose proof (kept_setSelectValue k (JStr t) s) as K. rewrite Hset in K.
      cbn [stateOf] in K. rewrite (K (NoDup_of_shape s s0 Hsh Hn)). exact Hsh.
    + assert (Hnew : filled r s0
                (onField k (fun f1 =>
                   withMismatch None
                     (withSelect (Some {| options := options sel; selectedIndex := Some i;
                                          select2 := select2 sel |}) f1)) s) (n, k)).
      { intros f1 sel1 Hg1 Hs1 _. cbn [fst snd] in *.
        rewrite Hg0 in Hg1. injection Hg1 as <-. rewrite Hs0 in Hs1. injection Hs1 as <-.
        rewrite getField_onField, FieldKey_beq_refl, Hg. cbn [option_map].
        eexists. split; [reflexivity|]. split; [|reflexivity].
        cbn. rewrite Ha, Hp, Ho, H2. reflexivity. }
      intros m [<-|Hm]; [exact Hnew|].
      destruct m as [n' k']. destruct (FieldKey_beq_spec k' k) as [->|Hne].
      * assert (En : n' = n) by exact (dropdown_key_unique n n' k Hin (Hsub _ Hm)).
        subst n'. exact Hnew.
      * intros f1 sel1 Hg1 Hs1 Ht. cbn [fst snd] in *.
        rewrite (Hpre k' Hne). exact (Hdone (n', k') Hm f1 sel1 Hg1 Hs1 Ht).
    + intros [n' k'] Hm Hf'. cbn [fst snd] in *.
      destruct (FieldKey_beq_spec k' k) as [->|Hne].
      * rewrite (dropdown_key_unique n n' k Hin Hm), Ha in Hf'. cbn [jsTruthy] in *. congruence.
      * rewrite (Hpre k' Hne). exact (Hfalsy (n', k') Hm Hf').
    + intros k' Hk'. rewrite Hpre; [now apply Hother|].
      intros ->. apply Hk'. exact (dropdown_key_in n k Hin).
  - exists s. split; [|split; [|reflexivity]].
    + split; [exact Hsh|]. split; [exact Hlog|]. split; [exact Hflag|].
      split; [|split; [exact Hfalsy | exact Hother]].
      intros m [<-|Hm]; [|now apply Hdone].
      intros f1 sel1 Hg1 Hs1 Ht. cbn [fst snd] in *. exfalso.
      rewrite Ht in Hc. cbn [andb] in Hc.
      rewrite (hasSelect_shape k s0 s Hsh) in Hc.
      exact (hasSelect_false_no_select k s0 f1 sel1 Hc Hg1 Hs1).
    + intros Ht Hh. rewrite Ht, Hh in Hc. discriminate.
Qed.

Lemma forEach_showable r s0 sb l :
  NoDup (keysOf s0) ->
  forall done s,
  resolving r s0 sb done s ->
  (forall m, In m l -> In m dropdownMappings) ->
  (forall m, In m done -> In m dropdownMappings) ->
  forallb (showable r s0) l = true ->
  exists s' done',
    forEachDropdown l r s = Val tt s' /\ resolving r s0 sb done' s' /\
    (forall m, In m l \/ In m done -> In m done') /\
    (forall m, In m done' -> In m dropdownMappings).
Proof.
  intros Hn. induction l as [|[n k] l IH]; intros done s Hr Hl Hd Hall.
  - exists s, done. cbn [forEachDropdown]. split; [reflexivity|]. split; [exact Hr|].
    split; [intros m [[]|H]; exact H | exact Hd].
  - cbn [forallb] in Hall. apply andb_prop in Hall. destruct Hall as [Hs Hall].
    assert (Hin : In (n, k) dropdownMappings) by (apply Hl; now left).
    destruct (set_showable r s0 sb done s n k Hn Hr Hin Hs Hd) as [s1 (Hr1 & Hyes & Hno)].
    assert (Hd1 : forall m, In m ((n, k) :: done) -> In m dropdownMappings).
    { intros m [<-|H]; auto. }
    destruct (IH ((n, k) :: done) s1 Hr1 (fun m H => Hl m (or_intror H)) Hd1 Hall)
      as [s' [done' (He & Hr' & Hsup & Hsub)]].
    exists s', done'. split; [|split; [exact Hr' | split; [|exact Hsub]]].
    + cbn [forEachDropdown].
      destruct (jsTruthy (attr r n) && hasSelect k s) eqn:Hc.
      * apply andb_prop in Hc. destruct Hc as [Hv Hh].
        rewrite (Hyes Hv Hh). cbn [bind]. exact He.
      * rewrite (Hno eq_refl) in He. exact He.
    + intros m [[<-|H]|H]; apply Hsup; [right; now left | now left | right; now right].
Qed.

Lemma guarded_showable r s0 sb done s n k :
  NoDup (keysOf s0) ->
  resolving r s0 sb done s ->
  In (n, k) dropdownMappings ->
  showable r s0 (n, k) = true ->
  (forall m, In m done -> In m dropdownMappings) ->
  exists b s',
    (if hasSelect k s then setSelectValue k (orEmpty (attr r n)) s else Val false s)
    = Val b s' /\
    resolving r s0 sb ((n, k) :: done) s'.
Proof.
  intros Hn Hr Hin Hs Hd.
  destruct (set_showable r s0 sb done s n k Hn Hr Hin Hs Hd) as [s1 (Hr1 & Hyes & Hno)].
  destruct (hasSelect k s) eqn:Hh.
  - unfold orEmpty. destruct (jsTruthy (attr r n)) eqn:Hv.
    + exists true, s1. split; [now apply Hyes | exact Hr1].
    + exists false, s. rewrite (Hno eq_refl) in Hr1. split; [|exact Hr1].
      unfold setSelectValue. destruct (getField k (fields s)) as [f|]; [|reflexivity].
      destruct (select f); reflexivity.
  - exists false, s. rewrite Hno in Hr1 by apply andb_false_r. split; [reflexivity | exact Hr1].
Qed.

Lemma resolving_writeInput r s0 sb done s kk v :
  NoDup (keysOf s0) ->
  ~ In kk (map snd dropdownMappings) ->
  (forall m, In m done -> In m dropdownMappings) ->
  resolving r s0 sb done s ->
  resolving r s0 (writeInput kk v s) done (writeInput kk v s).
Proof.
  intros Hn Hk Hd (Hsh & Hlog & Hflag & Hdone & Hfalsy & Hother).
  assert (Hpre : forall m, In m dropdownMappings ->
            getField (snd m) (fields (writeInput kk v s)) = getField (snd m) (fields s)).
  { intros [n k] Hm. cbn [snd]. unfold writeInput. rewrite getField_onField.
    destruct (FieldKey_beq_spec k kk) as [->|Hne]; [|reflexivity].
    exfalso. apply Hk. exact (dropdown_key_in n kk Hm). }
  split; [|split; [exact Hlog | split; [exact Hflag | split; [|split]]]].
  - rewrite (kept_writeInput kk v s (NoDup_of_shape s s0 Hsh Hn)). exact Hsh.
  - intros m Hm f sel Hg Hs Ht. rewrite (Hpre m (Hd m Hm)). exact (Hdone m Hm f sel Hg Hs Ht).
  - intros m Hm Hf. rewrite (Hpre m Hm). exact (Hfalsy m Hm Hf).
  - reflexivity.
Qed.

Lemma resolving_start r s : resolving r s s [] s.
Proof. repeat split. intros m []. Qed.

Lemma not_dropdown k :
  k = officialEstablishmentName \/ k = customEstablishmentName ->
  ~ In k (map snd dropdownMappings).
Proof. intros [->| ->]; cbn; intuition discriminate. Qed.

Lemma inputValue_writeInput k k' v s :
  inputValue k (writeInput k' v s) =
  if FieldKey_beq k k'
  then match inputValue k s with Some _ => Some v | None => None end
  else inputValue k s.
Proof.
  unfold inputValue, writeInput. rewrite getField_onField.
  destruct (FieldKey_beq k k'); [|reflexivity].
  destruct (getField k (fields s)) as [f|]; [|reflexivity].
  cbn [option_map]. destruct (input f) eqn:E; [reflexivity | exact E].
Qed.

Lemma inputValue_same k s s' :
  getField k (fields s') = getField k (fields s) -> inputValue k s' = inputValue k s.
Proof. unfold inputValue. now intros ->. Qed.

(** X19. A record whose dropdown attributes all have an option on the page
    (or are not set, or have no select on the page) is resolved without
    exception, mismatch message, notice, request or widget callback
    (what is printed on the console is not part of the model): each
    dropdown the record sets shows the first option that matches, or,
    on a select run by Select2, the first option that bears the value of
    that first match, with its mismatch message removed; a dropdown the
    record does not set keeps its state; the official name
    field receives the record's name when it has one; the custom name
    field receives the name, or the empty text when the record has
    none; and the code field is left as it is. *)
Theorem record_the_page_can_show_fills_the_form (r : AirtableRecord) (s : State) :
  NoDup (keysOf s) ->
  forallb (showable r s) dropdownMappings = true ->
  exists s',
    handleRedemptionCodeSelection r s = Val tt s' /\
    log s' = log s /\
    mismatchAlertDispatched s' = mismatchAlertDispatched s /\
    (forall m, In m dropdownMappings -> filled r s s' m) /\
    (forall m, In m dropdownMappings -> jsTruthy (attr r (fst m)) = false ->
               getField (snd m) (fields s') = getField (snd m) (fields s)) /\
    inputValue officialEstablishmentName s' =
      (if jsTruthy (attr r NAME_FIELD)
       then match inputValue officialEstablishmentName s with
            | Some _ => Some (toStr (attr r NAME_FIELD))
            | None => None
            end
       else inputValue officialEstablishmentName s) /\
    inputValue customEstablishmentName s' =
      match inputValue customEstablishmentName s with
      | Some _ => Some (toStr (orEmpty (attr r NAME_FIELD)))
      | None => None
      end /\
    getField redemptionCode (fields s') = getField redemptionCode (fields s).
Proof.
  intros Hn Hall. unfold handleRedemptionCodeSelection.
  set (name := attr r NAME_FIELD).
  set (s1 := if jsTruthy name then _ else s).
  assert (Hnone : forall m : string * FieldKey, In m [] -> In m dropdownMappings)
    by (intros m []).
  assert (R1 : resolving r s s1 [] s1).
  { subst s1. destruct (jsTruthy name); [|apply resolving_start].
    apply (resolving_writeInput r s
             (writeInput officialEstablishmentName (toStr name) s));
      [exact Hn | apply not_dropdown; now right | exact Hnone|].
    apply (resolving_writeInput r s s);
      [exact Hn | apply not_dropdown; now left | exact Hnone|].
    apply resolving_start. }
  destruct (forEach_showable r s s1 dropdownMappings Hn [] s1 R1 (fun m H => H) Hnone Hall)
    as [s2 [done2 (E2 & R2 & Hsup2 & Hsub2)]].
  rewrite E2. cbn [bind]. unfold updateSelectElements.
  set (s3 := writeInput customEstablishmentName (toStr (orEmpty name)) s2).
  assert (R3 : resolving r s s3 done2 s3).
  { apply (resolving_writeInput r s s1);
      [exact Hn | apply not_dropdown; now right | exact Hsub2|].
    exact R2. }
  assert (Hall' : forall m, In m dropdownMappings -> showable r s m = true).
  { intros m Hm. rewrite forallb_forall in Hall. now apply Hall. }
  assert (Ip : In ("Partner Status", partnerStatus) dropdownMappings)
    by (cbn; tauto).
  assert (Ia : In ("Award Level", awardLevel) dropdownMappings) by (cbn; tauto).
  assert (Id : In ("Duties & Taxes", dutiesAndTaxes) dropdownMappings) by (cbn; tauto).
  destruct (guarded_showable r s s3 done2 s3 _ _ Hn R3 Ip (Hall' _ Ip) Hsub2)
    as [b4 [s4 [E4 R4]]].
  assert (Hsub4 : forall m, In m (("Partner Status", partnerStatus) :: done2) ->
                            In m dropdownMappings).
  { intros m [<-|H]; auto. }
  destruct (guarded_showable r s s3 _ s4 _ _ Hn R4 Ia (Hall' _ Ia) Hsub4)
    as [b5 [s5 [E5 R5]]].
  assert (Hsub5 : forall m, In m (("Award Level", awardLevel)
                                    :: ("Partner Status", partnerStatus) :: done2) ->
                            In m dropdownMappings).
  { intros m [<-|H]; auto. }
  destruct (guarded_showable r s s3 _ s5 _ _ Hn R5 Id (Hall' _ Id) Hsub5)
    as [b6 [s6 [E6 R6]]].
  fold s3. rewrite E4. cbn [bind]. rewrite E5. cbn [bind]. rewrite E6. cbn [bind].
  exists s6. split; [reflexivity|].
  destruct R6 as (Hsh6 & Hlog6 & Hflag6 & Hdone6 & Hfalsy6 & Hother6).
  destruct R2 as (_ & _ & _ & _ & _ & Hother2).
  assert (Hcode : ~ In redemptionCode (map snd dropdownMappings))
    by (cbn; intuition discriminate).
  split; [exact Hlog6|]. split; [exact Hflag6|].
  split; [|split; [exact Hfalsy6|split; [|split]]].
  - intros m Hm. apply Hdone6. right. right. right. apply Hsup2. now left.
  - rewrite (inputValue_same officialEstablishmentName s3 s6)
      by (apply Hother6, not_dropdown; now left).
    subst s3. rewrite inputValue_writeInput. cbn [FieldKey_beq].
    rewrite (inputValue_same officialEstablishmentName s1 s2)
      by (apply Hother2, not_dropdown; now left).
    subst s1. destruct (jsTruthy name); [|reflexivity].
    rewrite !inputValue_writeInput. cbn [FieldKey_beq]. reflexivity.
  - rewrite (inputValue_same customEstablishmentName s3 s6)
      by (apply Hother6, not_dropdown; now right).
    subst s3. rewrite inputValue_writeInput. cbn [FieldKey_beq].
    rewrite (inputValue_same customEstablishmentName s1 s2)
      by (apply Hother2, not_dropdown; now right).
    subst s1. destruct (jsTruthy name); [|reflexivity].
    rewrite !inputValue_writeInput. cbn [FieldKey_beq].
    now destruct (inputValue customEstablishmentName s).
  - rewrite (Hother6 redemptionCode Hcode). subst s3. unfold writeInput.
    rewrite getField_onField. cbn [FieldKey_beq].
    rewrite (Hother2 redemptionCode Hcode). subst s1.
    destruct (jsTruthy name); [|reflexivity].
    unfold writeInput. rewrite !getField_onField. reflexivity.
Qed.

(** Aman Tokyo on the sample page: "Gold" selects " Gold Tier ", the
    first option that contains it. *)
Lemma record_the_page_can_show_fills_the_form_witness :
  exists s',
    handleRedemptionCodeSelection Sample.amanTokyo Sample.started = Val tt s' /\
    log s' = log Sample.started /\
    inputValue officialEstablishmentName s' = Some "Aman Tokyo".
Proof.
  destruct (record_the_page_can_show_fills_the_form Sample.amanTokyo Sample.started)
    as [s' (E & L & _ & _ & _ & O & _ & _)].
  - vm_compute. repeat (constructor; [cbn; intuition discriminate|]). constructor.
  - vm_compute. reflexivity.
  - exists s'. split; [exact E|]. split; [exact L|]. exact O.
Defined.

End PopulateFacts.

(** ** How often the page is wired *)

Module BootFacts.
Import Boot.

Lemma run_early p evs w :
  waiting w = false -> timer w = false -> run p evs w = 
  {| defined := defined (run p evs w); waiting := false; timer := false; runs := runs w;
     codeListeners := codeListeners w; submitListeners := submitListeners w;
     widgets := widgets w; instance := instance w |}.
Proof.
  revert w. induction evs as [|e evs IH]; intros w Hw Ht; cbn [run fold_left].
  - destruct w; cbn in *. now subst.
  - fold (run p evs (step p w e)). destruct e; cbn [step]; rewrite ?Hw, ?Ht.
    + rewrite IH by reflexivity. reflexivity.
    + now apply IH.
    + now apply IH.
Qed.

Lemma run_late p evs w :
  waiting w = true ->
  runs (run p evs w) =
  runs w + List.length (filter isReady evs)
  + (if timer w then if timerFinds (defined w) evs then 1 else 0 else 0).
Proof.
  revert w. induction evs as [|e evs IH]; intros w Hw; cbn [run fold_left].
  - cbn. destruct (timer w); lia.
  - fold (run p evs (step p w e)). destruct e; cbn [step filter isReady timerFinds].
    + rewrite IH by exact Hw. cbn. reflexivity.
    + rewrite Hw. rewrite IH by exact Hw. cbn [initializeSystem runs timer defined List.length].
      lia.
    + destruct (timer w) eqn:Et.
      * destruct (defined w) eqn:Ed; rewrite IH by exact Hw; cbn; lia.
      * rewrite IH by exact Hw. rewrite Et. lia.
Qed.

Lemma wired_initializeSystem p w :
  (codeListeners w = (if hasCodeInput p then runs w else 0) /\
   submitListeners w = (if hasForm p then runs w else 0) /\
   widgets w = (if instance w then 1 else 0)) ->
  (codeListeners (initializeSystem p w)
   = (if hasCodeInput p then runs (initializeSystem p w) else 0) /\
   submitListeners (initializeSystem p w)
   = (if hasForm p then runs (initializeSystem p w) else 0) /\
   widgets (initializeSystem p w) = (if instance (initializeSystem p w) then 1 else 0)).
Proof.
  intros (Hc & Hs & Hw).
  cbn [initializeSystem codeListeners submitListeners widgets instance runs].
  rewrite Hc, Hs, Hw.
  destruct (hasCodeInput p), (hasForm p), (instance w), (hasNameInput p), (defined w),
    (constructs p); repeat split.
Qed.

Lemma wired_step p w e :
  (codeListeners w = (if hasCodeInput p then runs w else 0) /\
   submitListeners w = (if hasForm p then runs w else 0) /\
   widgets w = (if instance w then 1 else 0)) ->
  (codeListeners (step p w e) = (if hasCodeInput p then runs (step p w e) else 0) /\
   submitListeners (step p w e) = (if hasForm p then runs (step p w e) else 0) /\
   widgets (step p w e) = (if instance (step p w e) then 1 else 0)).
Proof.
  intros H. destruct e; cbn [step].
  - exact H.
  - destruct (waiting w); [now apply wired_initializeSystem | exact H].
  - destruct (timer w); [|exact H].
    destruct (defined w); [apply wired_initializeSystem|]; exact H.
Qed.

Lemma wired_run p evs w :
  (codeListeners w = (if hasCodeInput p then runs w else 0) /\
   submitListeners w = (if hasForm p then runs w else 0) /\
   widgets w = (if instance w then 1 else 0)) ->
  (codeListeners (run p evs w) = (if hasCodeInput p then runs (run p evs w) else 0) /\
   submitListeners (run p evs w) = (if hasForm p then runs (run p evs w) else 0) /\
   widgets (run p evs w) = (if instance (run p evs w) then 1 else 0)).
Proof.
  revert w. induction evs as [|e evs IH]; intros w H; [exact H|].
  cbn [run fold_left]. apply IH. now apply wired_step.
Qed.

(** X20. When window.Autocomplete is defined as the ready handler runs, the
    page is wired once, whatever happens later.  When it is not, every
    autocompleteReady event wires it (the listener is never removed) and
    so does the one-second timer if the library is defined by then: a
    library that announces itself before the timer fires has the page
    wired twice.  Each wiring adds an input listener to the code field
    and a submit listener to the form; the Autocomplete widget is built
    at most once. *)
Theorem wiring_runs_counted (p : Page) (evs : list Ev) :
  runs (run p evs (start p true)) = 1 /\
  runs (run p evs (start p false)) =
    List.length (filter isReady evs) + (if timerFinds false evs then 1 else 0) /\
  forall d,
    codeListeners (run p evs (start p d))
      = (if hasCodeInput p then runs (run p evs (start p d)) else 0) /\
    submitListeners (run p evs (start p d))
      = (if hasForm p then runs (run p evs (start p d)) else 0) /\
    widgets (run p evs (start p d)) <= 1.
Proof.
  split; [|split].
  - rewrite run_early; reflexivity.
  - rewrite run_late by reflexivity. reflexivity.
  - intros d.
    destruct (wired_run p evs (start p d)) as (Hc & Hs & Hw).
    { destruct d; cbn [start initializeSystem codeListeners submitListeners widgets
                       instance runs negb andb orb].
      - destruct (hasCodeInput p), (hasForm p), (hasNameInput p), (constructs p);
          repeat split.
      - destruct (hasCodeInput p), (hasForm p); repeat split. }
    split; [exact Hc|]. split; [exact Hs|]. rewrite Hw.
    destruct (instance _); lia.
Qed.

(** The library announces itself half a second after DOM ready: two
    wirings, two input listeners on the code field, one widget. *)
Example late_library_wires_twice :
  let p := {| hasCodeInput := true; hasNameInput := true; hasForm := true;
              constructs := true |} in
  let w := run p [Defined; AutocompleteReady; Timeout] (start p false) in
  runs w = 2 /\ codeListeners w = 2 /\ submitListeners w = 2 /\ widgets w = 1.
Proof. repeat split. Qed.

End BootFacts.

(** ** Hidden and locked for good *)

Module StickyFacts.
Import Inv.
Import Ftg Structure FieldsFacts.

Ltac stuck_easy :=
  let f := fresh "f" in
  let H := fresh "H" in
  intros f; split; intros H; first [exact H | reflexivity].

Lemma stuck_refl f : stuck f f.
Proof. split; auto. Qed.

Lemma stuck_trans f1 f2 f3 : stuck f1 f2 -> stuck f2 f3 -> stuck f1 f3.
Proof. intros [A B] [C D]. split; auto. Qed.

Lemma sticky_refl s : sticky s s.
Proof.
  unfold sticky. induction (fields s) as [|e fs IH]; constructor; [|exact IH].
  split; [reflexivity | apply stuck_refl].
Qed.

Lemma sticky_trans s1 s2 s3 : sticky s1 s2 -> sticky s2 s3 -> sticky s1 s3.
Proof.
  unfold sticky. generalize (fields s1) (fields s2) (fields s3). clear.
  intros l1 l2 l3 H. revert l3. induction H as [|e1 e2 l1 l2 [Hk Hs] _ IH]; intros l3 H3.
  - inversion H3. constructor.
  - inversion H3 as [|? e3 ? l3' [Hk' Hs'] Ht]; subst. constructor; [|now apply IH].
    split; [congruence | eapply stuck_trans; eauto].
Qed.

Lemma sticky_same s s' : fields s' = fields s -> sticky s s'.
Proof. intros H. unfold sticky. rewrite H. apply (sticky_refl s). Qed.

Lemma sticky_emit e s : sticky s (emit e s).
Proof. apply sticky_same. reflexivity. Qed.

Lemma sticky_setLastSelected v s : sticky s (setLastSelected v s).
Proof. apply sticky_same. reflexivity. Qed.

Lemma Forall2_map_right (fs : Fields) (h : FieldKey * Field -> FieldKey * Field) :
  (forall e, fst (h e) = fst e /\ stuck (snd e) (snd (h e))) ->
  Forall2 (fun e e' => fst e' = fst e /\ stuck (snd e) (snd e')) fs (map h fs).
Proof. intros H. induction fs as [|e fs IH]; cbn [map]; constructor; auto. Qed.

Lemma sticky_map (g : FieldKey -> Field -> Field) s :
  (forall k f, stuck f (g k f)) ->
  sticky s (setFields (map (fun e => (fst e, g (fst e) (snd e))) (fields s)) s).
Proof.
  intros Hg. unfold sticky. cbn [fields setFields]. apply Forall2_map_right.
  intros [k f]. cbn [fst snd]. split; [reflexivity | apply Hg].
Qed.

Lemma sticky_onField k g s : (forall f, stuck f (g f)) -> sticky s (onField k g s).
Proof.
  intros Hg. unfold sticky, onField, updField. cbn [fields setFields].
  apply Forall2_map_right. intros [k0 f]. cbn [fst snd].
  destruct (FieldKey_beq k0 k); cbn [fst snd]; split; auto using stuck_refl.
Qed.

Lemma stuck_preventEdit f : stuck f (preventEdit f).
Proof.
  unfold preventEdit. destruct (select f) as [sel|].
  - destruct (select2 sel); split; cbn; auto; discriminate.
  - destruct (input f); [|apply stuck_refl]. split; cbn; auto; discriminate.
Qed.

Lemma stuck_resetField f : stuck f (resetField f).
Proof. unfold resetField. destruct (input f), (select f); split; auto. Qed.

Lemma sticky_writeInput k v s : sticky s (writeInput k v s).
Proof.
  apply sticky_onField. intros f. destruct (input f); [|apply stuck_refl]. split; auto.
Qed.

Lemma sticky_each (g : Field -> Field) names s :
  (forall f, stuck f (g f)) ->
  sticky s (fold_left (fun s n => onField n g s) names s).
Proof.
  intros Hg. revert s. induction names as [|n names IH]; intros s; cbn [fold_left].
  - apply sticky_refl.
  - eapply sticky_trans; [apply sticky_onField, Hg | apply IH].
Qed.

Lemma sticky_resetFields ex s : sticky s (resetFields ex s).
Proof.
  unfold sticky, resetFields. cbn [fields setFields]. apply Forall2_map_right.
  intros [k f]. cbn [fst snd].
  destruct (memKey k ex); cbn [fst snd]; split; auto using stuck_refl, stuck_resetField.
Qed.

Lemma sticky_updateFormSubmitState s : sticky s (updateFormSubmitState s).
Proof. apply sticky_same. unfold updateFormSubmitState. now destruct (formEl s). Qed.

Lemma sticky_resetDependentFields ex s : sticky s (resetDependentFields ex s).
Proof.
  unfold resetDependentFields.
  eapply sticky_trans; [|apply sticky_updateFormSubmitState].
  eapply sticky_trans; [|apply sticky_setLastSelected].
  destruct (negb (memKey customEstablishmentName ex)).
  - eapply sticky_trans; [apply sticky_resetFields | apply sticky_writeInput].
  - apply sticky_resetFields.
Qed.

Lemma sticky_clearAndResetForm s : sticky s (clearAndResetForm s).
Proof.
  unfold clearAndResetForm.
  set (s1 := resetFields [] s).
  set (s2 := setFields _ s1).
  assert (H2 : sticky s s2).
  { eapply sticky_trans; [apply sticky_resetFields|]. subst s2.
    apply (sticky_map (fun _ f => clearMessages f)). intros k. stuck_easy. }
  set (s3 := preventInteraction _ s2).
  assert (H3 : sticky s s3).
  { eapply sticky_trans; [exact H2|]. apply sticky_each, stuck_preventEdit. }
  destruct (negb _ && _); [|exact H3].
  eapply sticky_trans; [exact H3 | apply sticky_writeInput].
Qed.

Lemma sticky_setSelectValue k v s : sticky s (stateOf (setSelectValue k v s)).
Proof.
  unfold setSelectValue, showMismatch.
  destruct (getField k (fields s)) as [f|]; [|apply sticky_refl].
  destruct (select f) as [sel|]; [|apply sticky_refl].
  destruct (negb (jsTruthy v)); [apply sticky_refl|].
  destruct v as [target|b shown]; [|apply sticky_refl].
  destruct (findIndex _ _) as [i|]; cbn [stateOf].
  - apply sticky_onField. stuck_easy.
  - eapply sticky_trans; [|apply sticky_clearAndResetForm].
    set (s1 := emit _ (onField k _ s)).
    assert (H1 : sticky s s1).
    { subst s1. eapply sticky_trans; [|apply sticky_emit]. apply sticky_onField; stuck_easy. }
    destruct (mismatchAlertDispatched s1); [exact H1|].
    eapply sticky_trans; [exact H1 | apply sticky_same; reflexivity].
Qed.

Lemma sticky_bind {A B : Type} (r : Result A) (k : A -> State -> Result B) s :
  sticky s (stateOf r) ->
  (forall a s1, sticky s1 (stateOf (k a s1))) ->
  sticky s (stateOf (bind r k)).
Proof.
  intros H Hk. destruct r as [a s1|s1]; cbn [bind stateOf] in *; [|exact H].
  eapply sticky_trans; [exact H | apply Hk].
Qed.

Lemma sticky_guarded (b : bool) k v s :
  sticky s (stateOf (if b then setSelectValue k v s else Val false s)).
Proof. destruct b; [apply sticky_setSelectValue | apply sticky_refl]. Qed.

Lemma sticky_updateSelectElements n p a d s :
  sticky s (stateOf (updateSelectElements n p a d s)).
Proof.
  unfold updateSelectElements.
  eapply sticky_trans; [apply sticky_writeInput|].
  apply sticky_bind; [apply sticky_guarded|]. intros _ s2.
  apply sticky_bind; [apply sticky_guarded|]. intros _ s3.
  apply sticky_bind; [apply sticky_guarded|]. intros _ s4.
  apply sticky_refl.
Qed.

Lemma sticky_forEachDropdown l record s :
  sticky s (stateOf (forEachDropdown l record s)).
Proof.
  revert s. induction l as [|[fieldName configName] l IH]; intros s; cbn [forEachDropdown].
  - apply sticky_refl.
  - destruct (jsTruthy _ && hasSelect _ _); [|apply IH].
    apply sticky_bind; [apply sticky_setSelectValue|]. intros _ s1. apply IH.
Qed.

Lemma sticky_named record s :
  sticky s (if jsTruthy (attr record NAME_FIELD)
          then writeInput customEstablishmentName (toStr (attr record NAME_FIELD))
                 (writeInput officialEstablishmentName (toStr (attr record NAME_FIELD)) s)
          else s).
Proof.
  destruct (jsTruthy _); [|apply sticky_refl].
  eapply sticky_trans; apply sticky_writeInput.
Qed.

Lemma sticky_handleRedemptionCodeSelection record s :
  sticky s (stateOf (handleRedemptionCodeSelection record s)).
Proof.
  unfold handleRedemptionCodeSelection.
  eapply sticky_trans; [apply sticky_named|].
  apply sticky_bind; [apply sticky_forEachDropdown|].
  intros _ s2. apply sticky_updateSelectElements.
Qed.

Lemma sticky_codeCatch s : sticky s (codeCatch s).
Proof.
  unfold codeCatch.
  eapply sticky_trans; [|apply sticky_resetDependentFields].
  eapply sticky_trans; [|apply sticky_onField; stuck_easy]. apply sticky_onField; stuck_easy.
Qed.

Lemma sticky_codeFinally s : sticky s (codeFinally s).
Proof. apply sticky_onField. stuck_easy. Qed.

Lemma sticky_codeThen code data s : sticky s (codeThen code data s).
Proof.
  unfold codeThen.
  eapply sticky_trans; [|apply sticky_codeFinally].
  destruct (records data) as [[|r rest]|].
  - eapply sticky_trans; [|apply sticky_resetDependentFields]. apply sticky_onField; stuck_easy.
  - set (s1 := onField redemptionCode _ s).
    assert (H1 : sticky s s1) by (apply sticky_onField; stuck_easy).
    pose proof (sticky_handleRedemptionCodeSelection r s1) as H2.
    destruct (handleRedemptionCodeSelection r s1) as [u s2|s2]; cbn [stateOf] in H2.
    + eapply sticky_trans; [exact H1|]. eapply sticky_trans; [exact H2|].
      eapply sticky_trans; [|apply sticky_updateFormSubmitState]. apply sticky_same. reflexivity.
    + eapply sticky_trans; [exact H1|]. eapply sticky_trans; [exact H2 | apply sticky_codeCatch].
  - apply sticky_codeCatch.
Qed.

Lemma sticky_nameThen query results s : sticky s (nameThen query results s).
Proof.
  unfold nameThen.
  eapply sticky_trans; [|apply sticky_emit].
  eapply sticky_trans; [|apply sticky_onField; stuck_easy]. apply sticky_onField; stuck_easy.
Qed.

Lemma sticky_nameCatch s : sticky s (nameCatch s).
Proof.
  unfold nameCatch.
  eapply sticky_trans; [|apply sticky_emit].
  eapply sticky_trans; [|apply sticky_onField; stuck_easy]. apply sticky_onField; stuck_easy.
Qed.

Lemma sticky_abortController c s : sticky s (abortController c s).
Proof. apply sticky_same. now destruct c. Qed.

Lemma sticky_queried ch field query ctrl s :
  sticky s (match queryAirtableContains ch field query ctrl s with
          | Resolved _ s' => s'
          | Issued s' => s'
          end).
Proof.
  apply sticky_same. unfold queryAirtableContains.
  destruct (negb _); [reflexivity|].
  destruct (Cache.cacheGet _ _) as [[cached|] c']; reflexivity.
Qed.

Lemma sticky_nameSource query s : sticky s (nameSource query s).
Proof.
  unfold nameSource.
  set (s1 := onField officialEstablishmentName _ s).
  assert (H1 : sticky s s1) by (apply sticky_onField; stuck_easy).
  destruct (String.length query <? 2)%nat.
  - eapply sticky_trans; [exact H1|].
    eapply sticky_trans; [|apply sticky_emit]. apply sticky_onField; stuck_easy.
  - set (s2 := abortController (nameSearchController s1) s1).
    set (s3 := setNameSearchController _ _).
    assert (H3 : sticky s s3).
    { eapply sticky_trans; [exact H1|].
      apply (sticky_trans s1 s2); [apply sticky_abortController | apply sticky_same; reflexivity]. }
    pose proof (sticky_queried nameSearch NAME_FIELD query (nextController s2) s3) as H4.
    destruct (queryAirtableContains _ _ _ _ s3) as [data s4|s4].
    + eapply sticky_trans; [exact H3|]. eapply sticky_trans; [exact H4 | apply sticky_nameThen].
    + eapply sticky_trans; [exact H3 | exact H4].
Qed.

Lemma sticky_onSelectItem item s : sticky s (onSelectItem item s).
Proof.
  unfold onSelectItem.
  set (s1 := onField officialEstablishmentName _ s).
  assert (H1 : sticky s s1) by (apply sticky_onField; stuck_easy).
  pose proof (sticky_handleRedemptionCodeSelection (item_data item) s1) as H2.
  destruct (handleRedemptionCodeSelection _ s1) as [u s2|s2]; cbn [stateOf] in H2.
  - eapply sticky_trans; [exact H1|]. eapply sticky_trans; [exact H2|].
    eapply sticky_trans; [|apply sticky_updateFormSubmitState]. apply sticky_same. reflexivity.
  - eapply sticky_trans; [exact H1 | exact H2].
Qed.

Lemma sticky_nameInputListener s : sticky s (nameInputListener s).
Proof.
  unfold nameInputListener.
  set (s1 := if nameDiverged _ s then _ else s).
  assert (H1 : sticky s s1).
  { subst s1. destruct (nameDiverged _ s); [apply sticky_resetDependentFields | apply sticky_refl]. }
  destruct (negb _); [|exact H1].
  eapply sticky_trans; [exact H1 | apply sticky_resetDependentFields].
Qed.

Lemma sticky_nameBlurListener s : sticky s (nameBlurListener s).
Proof.
  unfold nameBlurListener.
  destruct (_ || _); [apply sticky_resetDependentFields | apply sticky_refl].
Qed.

Lemma sticky_handleInput s : sticky s (handleInput s).
Proof.
  unfold handleInput.
  destruct (inputValue redemptionCode s) as [value|]; [|apply sticky_refl].
  set (s2 := onField redemptionCode _ (resetFields [redemptionCode] s)).
  assert (H2 : sticky s s2).
  { eapply sticky_trans; [apply sticky_resetFields | apply sticky_onField; stuck_easy]. }
  set (s3 := abortController (codeLookupController s2) s2).
  assert (H3 : sticky s s3).
  { eapply sticky_trans; [exact H2 | apply sticky_abortController]. }
  destruct (negb (String.length (Js.trim value) =? 8)%nat).
  - eapply sticky_trans; [exact H3|].
    eapply sticky_trans; [|apply sticky_resetDependentFields]. apply sticky_onField; stuck_easy.
  - set (s4 := onField redemptionCode (withSpinner true) s3).
    set (s5 := setCodeLookupController _ _).
    assert (H5 : sticky s s5).
    { eapply sticky_trans; [exact H3|].
      apply (sticky_trans s3 s4); [apply sticky_onField; stuck_easy | apply sticky_same; reflexivity]. }
    pose proof (sticky_queried codeLookup "Redemption Code" (Js.trim value)
                  (nextController s4) s5) as H6.
    destruct (queryAirtableContains _ _ _ _ s5) as [data s6|s6].
    + eapply sticky_trans; [exact H5|]. eapply sticky_trans; [exact H6 | apply sticky_codeThen].
    + eapply sticky_trans; [exact H5 | exact H6].
Qed.

Lemma sticky_settle ctrl o s : sticky s (settle ctrl o s).
Proof.
  unfold settle.
  destruct (takeRequest ctrl (pending s)) as [[rq rest]|]; [|apply sticky_refl].
  set (s1 := setPending rest s).
  assert (H1 : sticky s s1) by (apply sticky_same; reflexivity).
  eapply sticky_trans; [exact H1|].
  destruct o as [data| |].
  - set (s2 := setAirtableCache _ s1).
    assert (H2 : sticky s1 s2) by (apply sticky_same; reflexivity).
    eapply sticky_trans; [exact H2|].
    destruct (rq_channel rq); [apply sticky_nameThen | apply sticky_codeThen].
  - destruct (rq_channel rq); [apply sticky_nameCatch|].
    eapply sticky_trans; [apply sticky_codeCatch | apply sticky_codeFinally].
  - destruct (rq_channel rq); [apply sticky_onField; stuck_easy | apply sticky_codeFinally].
Qed.

Lemma sticky_setMode mode s : sticky s (setMode mode s).
Proof.
  unfold setMode. cbv zeta.
  apply (sticky_trans s (setCurrentMode mode s)); [apply sticky_same; reflexivity|].
  apply (sticky_trans _ (hideElements (hide (configOf mode)) (setCurrentMode mode s))).
  - apply sticky_each. stuck_easy.
  - apply sticky_each, stuck_preventEdit.
Qed.

Lemma sticky_step e s : sticky s (step e s).
Proof.
  destruct e; cbn [step]; try destruct (autocompleteInstance s); try apply sticky_refl.
  all: first [ apply sticky_writeInput | apply sticky_nameSource | apply sticky_onSelectItem
             | apply sticky_nameInputListener | apply sticky_nameBlurListener
             | apply sticky_handleInput | apply sticky_settle | apply sticky_clearAndResetForm
             | apply sticky_setMode | apply sticky_same; reflexivity ].
Qed.

Lemma sticky_run evs s : sticky s (run evs s).
Proof.
  revert s. induction evs as [|e evs IH]; intros s; cbn [run fold_left].
  - apply sticky_refl.
  - eapply sticky_trans; [apply sticky_step | apply IH].
Qed.

Lemma sticky_initializeSystem widget s : sticky s (initializeSystem widget s).
Proof.
  unfold initializeSystem, initializeFields.
  set (s1 := addEstablishmentNameListener widget _).
  assert (H1 : sticky s s1).
  { apply (sticky_trans s (setMode (currentMode s) s)); [apply sticky_setMode|]. apply sticky_same.
    subst s1. unfold addEstablishmentNameListener.
    destruct (autocompleteInstance _); [reflexivity|].
    destruct (inputValue _ _); [|reflexivity]. now destruct widget. }
  destruct (form s1); [|exact H1].
  eapply sticky_trans; [exact H1|].
  eapply sticky_trans; [|apply sticky_updateFormSubmitState]. apply sticky_same. reflexivity.
Qed.

(** X21. Nothing main.js does ever shows a hidden field again or unlocks
    a locked one: over any sequence of events and any (re)initialisation,
    every binding that was hidden is still hidden and every binding that
    was locked is still locked, key by key. *)
Theorem hidden_and_locked_for_good (s : State) (evs : list Event) (widget : bool) :
  sticky s (run evs s) /\ sticky s (initializeSystem widget s).
Proof. split; [apply sticky_run | apply sticky_initializeSystem]. Qed.

(** *** The spinner *)

Lemma getField_onField_same k g s :
  getField k (fields (onField k g s)) = option_map g (getField k (fields s)).
Proof. unfold onField. cbn [fields setFields]. apply getField_updField_same. Qed.

Lemma spinner_off_after (g : Field -> Field) k s f :
  (forall f0, spinner (g f0) = false) ->
  getField k (fields (onField k g s)) = Some f -> spinner f = false.
Proof.
  intros Hg. rewrite getField_onField_same.
  destruct (getField k (fields s)) as [f0|]; [|discriminate].
  cbn [option_map]. intros [= <-]. apply Hg.
Qed.

(** X22. When a request settles, whatever the outcome (an answer, a
    failure, an abort error), the spinner of the field that asked is
    removed, also while a later request of the same channel is still in
    flight. *)
Theorem settled_request_removes_spinner (ctrl : nat) (o : FetchOutcome) (s : State)
    (rq : Request) (rest : list Request) (f : Field) :
  takeRequest ctrl (pending s) = Some (rq, rest) ->
  getField (fieldOf (rq_channel rq)) (fields (settle ctrl o s)) = Some f ->
  spinner f = false.
Proof.
  intros Ht. unfold settle. rewrite Ht.
  destruct (rq_channel rq); cbn [fieldOf]; destruct o as [data| |].
  - unfold nameThen, emit. cbn [fields setLog]. rewrite getField_onField_same.
    intros H. destruct (getField _ _) as [f1|] eqn:E1; [|discriminate].
    cbn [option_map] in H. injection H as <-. cbn [spinner withNoResults].
    eapply spinner_off_after; [|exact E1]. reflexivity.
  - unfold nameCatch, emit. cbn [fields setLog]. rewrite getField_onField_same.
    intros H. destruct (getField _ _) as [f1|] eqn:E1; [|discriminate].
    cbn [option_map] in H. injection H as <-. cbn [spinner withError].
    eapply spinner_off_after; [|exact E1]. reflexivity.
  - unfold nameAborted. apply spinner_off_after. reflexivity.
  - unfold codeThen, codeFinally. apply spinner_off_after. reflexivity.
  - unfold codeFinally. apply spinner_off_after. reflexivity.
  - unfold codeFinally. apply spinner_off_after. reflexivity.
Qed.

(** The first of two code lookups settles with an abort error: the
    spinner goes, and the second lookup is still in flight. *)
Lemma settled_request_removes_spinner_witness :
  option_map spinner (getField redemptionCode (fields (settle 0 FetchAbort twoCodes)))
  = Some false /\
  List.length (pending (settle 0 FetchAbort twoCodes)) = 1.
Proof.
  split; [|reflexivity].
  destruct (getField redemptionCode (fields (settle 0 FetchAbort twoCodes))) as [f|] eqn:E.
  - cbn [option_map]. f_equal.
    refine (settled_request_removes_spinner 0 FetchAbort twoCodes
              {| rq_ctrl := 0; rq_channel := codeLookup; rq_field := "Redemption Code";
                 rq_query := "ABCD1234"; rq_typed := "ABCD1234" |} _ f _ E).
    vm_compute. reflexivity.
  - vm_compute in E. discriminate E.
Defined.

End StickyFacts.

(** ** What the submit listener collects *)

Module SubmissionFacts.
Import Inv.
Import Ftg Spec Structure Submission.
Import JsFacts FieldsFacts IdempotenceFacts.

Lemma isBlank_spec (value : string) : isBlank value = whitespaceOnly value.
Proof.
  unfold isBlank. rewrite <- (negb_involutive (whitespaceOnly value)), <- trim_truthy.
  destruct value as [|c r]; [reflexivity|]. cbn [Js.truthy negb orb].
  destruct (Js.trim (String c r)); reflexivity.
Qed.

Lemma submitted_resetOne mode named k f :
  submittedData [(k, resetOne mode named k f)] =
  match input f, select f with
  | None, None => []
  | _, _ => [(k, blankOf f)]
  end.
Proof.
  unfold resetOne, submittedData, blankOf, selectValue. cbv zeta.
  destruct (memKey k (preventListOf mode)), (FieldKey_beq k officialEstablishmentName), named;
    destruct f as [l [i|] [[[|o os] si [|]]|] h lk m e n sp hp]; reflexivity.
Qed.

(** X23. The submit listener collects, for every binding with a control,
    the input's value or else the select's, and warns about exactly the
    entries whose value is empty or white space only.  Right after a
    reset it collects the empty text for every binding with an input and
    the value of the first option for every other dropdown. *)
Theorem reset_form_submits_blanks (s : State) :
  (forall data k v, In (k, v) (warned data) <-> In (k, v) data /\ whitespaceOnly v = true) /\
  (forall k v, In (k, v) (submittedData (fields (clearAndResetForm s))) ->
     exists f, In (k, f) (fields s) /\ hasControl f /\ v = blankOf f) /\
  (forall k f, In (k, f) (fields s) -> hasControl f ->
     In (k, blankOf f) (submittedData (fields (clearAndResetForm s)))).
Proof.
  split; [|split].
  - intros data k v. unfold warned. rewrite filter_In. cbn [snd]. now rewrite isBlank_spec.
  - intros k v. rewrite clearAndResetForm_char. cbn [fields setFields].
    unfold submittedData at 1. rewrite in_flat_map. intros [[k0 f0] [Hin Hv]].
    apply in_map_iff in Hin. destruct Hin as [[k1 f1] [E Hin]].
    cbn [fst snd] in E. injection E as <- <-.
    pose proof (submitted_resetOne (currentMode s)
                  (negb (String.eqb (currentMode s) CODE_LOOKUP) && autocompleteInstance s)
                  k1 f1) as Hs.
    unfold submittedData in Hs. cbn [flat_map fst snd] in Hs. rewrite app_nil_r in Hs.
    cbn [fst snd] in Hv. rewrite Hs in Hv.
    exists f1. unfold hasControl.
    destruct (input f1) eqn:Ei, (select f1) eqn:Es; cbn [In] in Hv;
      try (destruct Hv as [Hv|[]]; injection Hv as <- <-;
           split; [exact Hin|]; split; [|reflexivity]).
    + left. discriminate.
    + left. discriminate.
    + right. discriminate.
    + destruct Hv.
  - intros k f Hin Hc. rewrite clearAndResetForm_char. cbn [fields setFields].
    unfold submittedData. rewrite in_flat_map.
    exists (k, resetOne (currentMode s)
                 (negb (String.eqb (currentMode s) CODE_LOOKUP) && autocompleteInstance s) k f).
    split.
    + apply in_map_iff. exists (k, f). split; [reflexivity | exact Hin].
    + pose proof (submitted_resetOne (currentMode s)
                    (negb (String.eqb (currentMode s) CODE_LOOKUP) && autocompleteInstance s)
                    k f) as Hs.
      unfold submittedData in Hs. cbn [flat_map fst snd] in Hs. rewrite app_nil_r in Hs.
      cbn [fst snd]. rewrite Hs. unfold hasControl in Hc.
      destruct (input f), (select f); cbn [In]; try (now left).
      destruct Hc as [Hc|Hc]; congruence.
Qed.

End SubmissionFacts.
